(** * crimm: the batched FFT correlation engine (src/fft_correlate.c)

    A shallow embedding of the C functions of [fft_correlate.c] and the
    properties its specification states about them.

    Conventions of the embedding.
    - A C [int] is a [Z] (loop counters that only count upwards from 0 are
      [nat]); [/] and [%] on [int] are [Z.quot] and [Z.rem], which truncate
      towards zero as C does.  The dimensions of an array, and the counters
      and products bounded by them, are taken to fit an [int] and are not
      narrowed.  [roll_steps] and [n_threads] are arbitrary [int]s: where
      [roll_steps] is added to a coordinate the sum may overflow, which is
      undefined behaviour in C.
    - A NumPy array is a C-contiguous buffer: its shape and the flat list of
      its elements in row-major order.  A pointer into it is an offset.
    - The embedding returns [None] as soon as the C code would do something
      undefined or fatal: read or write outside the object it indexes, read
      a cell it never initialised, overflow an [int] addition, execute a
      plan that was not created, or open a parallel region for a number of
      threads that is not positive.
    - The [float] values of the arrays are abstract (a type [F] with the
      operations the code uses).  The scores handled by the selector are
      compared only: a score is a NaN or a number, and the numbers are
      represented by integers, which carry the order of the floats (the
      two zeros, which compare equal, are one number). *)

From Stdlib Require Import ZArith Lia String.
From stdpp Require Import base option list sorting.

(** ** C loops *)

(** [for (int i = start; i < start + count; i++) body] over a state that
    the body may fail to produce. *)
Fixpoint for_loop {St : Type} (start count : nat)
    (body : nat → St → option St) (s : St) : option St :=
  match count with
  | O => Some s
  | S count' => s' ← body start s; for_loop (S start) count' body s'
  end.

(** [for (int x = n - 1, new_x = 0; x >= 0; x--, new_x++) body]. *)
Definition for_down {St : Type} (n : Z)
    (body : Z → Z → St → option St) (s : St) : option St :=
  for_loop 0 (Z.to_nat n)
    (λ c, body (n - 1 - Z.of_nat c)%Z (Z.of_nat c)) s.

(** ** The best-score selector *)

(** A [float] score.  The selector does nothing with a score but compare
    it: a score that is not a NaN is represented by an integer that holds
    its place in the order of the floats (the two zeros are one value); a
    NaN is below nothing and nothing is below it. *)
Inductive float : Type := Num (v : Z) | NaN.

Global Instance float_eq_dec : EqDecision float.
Proof. solve_decision. Defined.

(** [a < b] on [float]s; [a > b] is [flt b a]. *)
Definition flt (a b : float) : bool :=
  match a, b with
  | Num x, Num y => (x <? y)%Z
  | _, _ => false
  end.

Record ScoreIndexPair : Type := { index : nat; score : float }.

(** A cell of the [malloc]ed heap: [None] until it is written. *)
Abbreviation heap_cell := (option ScoreIndexPair).

(** Lines 28-32: [(l < r) - (l > r)]. *)
Definition comparator (p q : ScoreIndexPair) : Z :=
  let l := score p in
  let r := score q in
  (Z.b2z (flt l r) - Z.b2z (flt r l))%Z.

(** What the C standard promises of [qsort]: the array is permuted into
    ascending order of the comparison function.  The order of elements
    that compare equal is unspecified; with [comparator] a NaN compares
    equal to every score. *)
Definition qsort_contract
    (qsort : list ScoreIndexPair → (ScoreIndexPair → ScoreIndexPair → Z) →
             list ScoreIndexPair) : Prop :=
  ∀ l, qsort l comparator ≡ₚ l ∧
       Sorted (λ p q, (comparator p q ≤ 0)%Z) (qsort l comparator).

Section selector.
Variable qsort :
  list ScoreIndexPair → (ScoreIndexPair → ScoreIndexPair → Z) →
  list ScoreIndexPair.

(** [qsort(heap, top_n_poses, sizeof(ScoreIndexPair), comparator)]: the
    comparison reads every cell. *)
Definition qsort_heap (heap : list heap_cell) : option (list heap_cell) :=
  l ← mapM id heap; Some (Some <$> qsort l comparator).

(** The body of the scanning loop, lines 41-54. *)
Definition scan_step (scores : list float) (top_n_poses : nat)
    (i : nat) (heap : list heap_cell) : option (list heap_cell) :=
  s ← scores !! i;
  if bool_decide (i < top_n_poses) then
    let heap := <[i := Some {| index := i; score := s |}]> heap in
    if bool_decide (i = top_n_poses - 1) then qsort_heap heap
    else Some heap
  else
    root ← mjoin (heap !! 0);
    if flt s (score root) then
      qsort_heap (<[0 := Some {| index := i; score := s |}]> heap)
    else Some heap.

Definition get_top_n_scores (scores : list float) (n top_n_poses : nat)
    : option (list heap_cell) :=
  heap ← for_loop 0 n (scan_step scores top_n_poses)
           (replicate top_n_poses None);
  Some (take top_n_poses heap).
End selector.

(** A conforming [qsort] that keeps equal elements in their order, as an
    insertion sort or a merge sort does. *)
Fixpoint insert_sorted (cmp : ScoreIndexPair → ScoreIndexPair → Z)
    (p : ScoreIndexPair) (l : list ScoreIndexPair) : list ScoreIndexPair :=
  match l with
  | [] => [p]
  | q :: l' =>
      if (cmp p q <=? 0)%Z then p :: q :: l' else q :: insert_sorted cmp p l'
  end.

Definition stable_qsort (l : list ScoreIndexPair)
    (cmp : ScoreIndexPair → ScoreIndexPair → Z) : list ScoreIndexPair :=
  foldr (insert_sorted cmp) [] l.

(** The number that a score which is not a NaN stands for. *)
Definition num (a : float) : Z :=
  match a with Num v => v | NaN => 0%Z end.

(** A stream without NaN. *)
Definition numbers (scores : list float) : Prop :=
  Forall (λ s, s ≠ NaN) scores.

(** The [N] lowest of the numbers of a stream, by a full sort. *)
Definition lowest_scores (N : nat) (scores : list Z) : list Z :=
  take N (merge_sort Z.le scores).

(** Worst of the kept entries first: no entry is below the one that
    follows it. *)
Definition descending (l : list ScoreIndexPair) : Prop :=
  Sorted (λ p q, flt (score p) (score q) = false) l.

(** Entries that name distinct positions among the first [m] of the stream,
    each with the score found there. *)
Definition valid_entries (scores : list float) (m : nat)
    (l : list ScoreIndexPair) : Prop :=
  (∀ p, p ∈ l → index p < m ∧ scores !! index p = Some (score p)) ∧
  NoDup (index <$> l).

(** The heap while it fills: the first [i] cells are written. *)
Definition fill_invariant (scores : list float) (N i : nat)
    (heap : list heap_cell) : Prop :=
  ∃ l, heap = (Some <$> l) ++ replicate (N - i) None ∧
       length l = i ∧ valid_entries scores i l ∧
       take i scores ≡ₚ score <$> l.

(** The heap once full, after [m] entries of a stream of numbers: it is
    sorted and holds [N] entries that no entry left out ([rest]) beats. *)
Definition full_invariant (scores : list float) (N m : nat)
    (heap : list heap_cell) : Prop :=
  ∃ l rest, heap = Some <$> l ∧ length l = N ∧ descending l ∧
            valid_entries scores m l ∧
            take m scores ≡ₚ (score <$> l) ++ rest ∧
            (∀ a b, a ∈ score <$> l → b ∈ rest → (num a ≤ num b)%Z).

Definition scan_invariant (scores : list float) (N i : nat)
    (heap : list heap_cell) : Prop :=
  if decide (i < N) then fill_invariant scores N i heap
  else full_invariant scores N i heap.

(** ** NumPy arrays *)

Inductive NPY_TYPES : Type := NPY_FLOAT32 | NPY_FLOAT64 | NPY_INT32 | NPY_INT64.

Global Instance NPY_TYPES_eq_dec : EqDecision NPY_TYPES.
Proof. solve_decision. Defined.

(** A C-contiguous array object: element type, shape, and the elements in
    row-major order. *)
Record PyArray (F : Type) : Type :=
  { type_num : NPY_TYPES; dims : list Z; data : list F }.
Arguments type_num {F} _.
Arguments dims {F} _.
Arguments data {F} _.

Section arrays.
Context {F : Type}.
Local Open Scope Z_scope.

Definition PyArray_NDIM (a : PyArray F) : nat := length (dims a).
Definition PyArray_TYPE (a : PyArray F) : NPY_TYPES := type_num a.

(** [PyArray_DIMS(a)[k]] *)
Definition PyArray_DIMS (a : PyArray F) (k : nat) : option Z := dims a !! k.

(** The stride of axis [k], in elements. *)
Definition stride (a : PyArray F) (k : nat) : Z :=
  foldr Z.mul 1 (drop (S k) (dims a)).

(** [PyArray_GETPTR1(a, i)] and [PyArray_GETPTR2(a, i, j)], as offsets
    into [data a]. *)
Definition PyArray_GETPTR1 (a : PyArray F) (i : Z) : Z := i * stride a 0.
Definition PyArray_GETPTR2 (a : PyArray F) (i j : Z) : Z :=
  i * stride a 0 + j * stride a 1.

(** [p[k]], where [p] points to a field of [len] elements of [buf]. *)
Definition load (buf : list F) (p len k : Z) : option F :=
  if bool_decide (0 ≤ k < len ∧ 0 ≤ p) then buf !! Z.to_nat (p + k)
  else None.

(** [p[k] = v] *)
Definition store (buf : list F) (p len k : Z) (v : F) : option (list F) :=
  if bool_decide (0 ≤ k < len ∧ 0 ≤ p ∧ p + k < Z.of_nat (length buf))
  then Some (<[Z.to_nat (p + k) := v]> buf)
  else None.

(** The [len] elements of [buf] from [p] on. *)
Definition block (buf : list F) (p len : Z) : list F :=
  take (Z.to_nat len) (drop (Z.to_nat p) buf).

(** The [len] elements at [p], read or written as a whole by a
    transform. *)
Definition load_block (buf : list F) (p len : Z) : option (list F) :=
  if bool_decide (0 ≤ p ∧ 0 ≤ len ∧ p + len ≤ Z.of_nat (length buf))
  then Some (block buf p len)
  else None.

Definition store_block (buf : list F) (p len : Z) (vs : list F)
    : option (list F) :=
  if bool_decide (0 ≤ p ∧ Z.of_nat (length vs) = len ∧
                  p + len ≤ Z.of_nat (length buf))
  then Some (take (Z.to_nat p) buf ++ vs ++
             drop (Z.to_nat (p + len)) buf)
  else None.
End arrays.

(** ** [int] arithmetic *)

Definition INT_MIN : Z := (- 2 ^ 31)%Z.
Definition INT_MAX : Z := (2 ^ 31 - 1)%Z.

(** [a + b] on [int]s.  The sum of two [int]s that is not an [int] is
    undefined behaviour; the test is the usual one,
    [(b > 0 && a > INT_MAX - b) || (b < 0 && a < INT_MIN - b)]. *)
Definition int_add (a b : Z) : option Z :=
  if bool_decide ((0 < b ∧ INT_MAX - b < a) ∨ (b < 0 ∧ a < INT_MIN - b))%Z
  then None
  else Some (a + b)%Z.

(** ** Circular realignment *)

(** Lines 171-179, and the same expression at lines 162-164 and 203-205. *)
Definition roll_cur_idx (nx ny nz x y z roll_steps : Z) : option Z :=
  sx ← int_add x roll_steps;
  sy ← int_add y roll_steps;
  sz ← int_add z roll_steps;
  Some (Z.rem sx nx * ny * nz + Z.rem sy ny * nz + Z.rem sz nz)%Z.

Section realign.
Context {F : Type}.
Variable fadd : F → F → F.
Local Open Scope Z_scope.

(** Lines 141-169.  [cur_arr] is the start of orientation [i]; the
    destination [cur_arr_grids] is the field of channel [j]; both lie in
    the one buffer the loop updates.  The index expression of lines
    162-164 is that of [roll_cur_idx], additions included.  The
    orientations, which OpenMP hands to threads, are taken in order. *)
Definition flip_and_roll (grids : PyArray F) (roll_steps : Z)
    : option (PyArray F) :=
  n_orientations ← PyArray_DIMS grids 0;
  n_grids ← PyArray_DIMS grids 1;
  nx ← PyArray_DIMS grids 2;
  ny ← PyArray_DIMS grids 3;
  nz ← PyArray_DIMS grids 4;
  let N_grid_points := nx * ny * nz in
  buf ← for_loop 0 (Z.to_nat n_orientations) (λ i buf,
    let cur_arr := PyArray_GETPTR1 grids (Z.of_nat i) in
    for_loop 0 (Z.to_nat n_grids) (λ j buf,
      let cur_arr_grids :=
        PyArray_GETPTR2 grids (Z.of_nat i) (Z.of_nat j) in
      for_loop 0 (Z.to_nat N_grid_points) (λ k buf,
        let k := Z.of_nat k in
        let x := k ÷ (ny * nz) in
        let y := Z.rem k (ny * nz) ÷ nz in
        let z := Z.rem k nz in
        idx ← roll_cur_idx nx ny nz x y z roll_steps;
        v ← load buf cur_arr N_grid_points idx;
        store buf cur_arr_grids N_grid_points k v) buf) buf) (data grids);
  Some {| type_num := type_num grids; dims := dims grids; data := buf |}.

(** Lines 181-217, without the [printf]; [neg_val_ids] and [n_neg_vals]
    are used in commented-out code only.  The index expression of lines
    203-205 is that of [roll_cur_idx], additions included.  The
    orientations, which OpenMP hands to threads, are taken in order. *)
Definition sum_grids (grids result : PyArray F) (roll_steps : Z)
    : option (PyArray F) :=
  n_orientations ← PyArray_DIMS grids 0;
  n_grids ← PyArray_DIMS grids 1;
  nx ← PyArray_DIMS grids 2;
  ny ← PyArray_DIMS grids 3;
  nz ← PyArray_DIMS grids 4;
  let N_grid_points := nx * ny * nz in
  buf ← for_loop 0 (Z.to_nat n_orientations) (λ i buf,
    let cur_arr_result := PyArray_GETPTR1 result (Z.of_nat i) in
    for_loop 0 (Z.to_nat n_grids) (λ j buf,
      let cur_arr_grids :=
        PyArray_GETPTR2 grids (Z.of_nat i) (Z.of_nat j) in
      for_down nx (λ x new_x buf,
        for_down ny (λ y new_y buf,
          for_down nz (λ z new_z buf,
            updated_idx ←
              roll_cur_idx nx ny nz new_x new_y new_z roll_steps;
            v ← load (data grids) cur_arr_grids N_grid_points
                   (x * ny * nz + y * nz + z);
            old ← load buf cur_arr_result N_grid_points updated_idx;
            store buf cur_arr_result N_grid_points updated_idx
              (fadd old v)) buf) buf) buf) buf) (data result);
  Some {| type_num := type_num result; dims := dims result; data := buf |}.
End realign.

(** ** The correlation kernel *)

(** Single-precision arithmetic on real and complex values, as far as the
    kernel uses it. *)
Record Numerics (F C : Type) : Type :=
  { float_recip : Z → F;          (* (float)(1.0 / n) *)
    conjf : C → C;
    cmul : C → C → C;             (* complex * complex *)
    cscale : C → F → C }.         (* complex * float *)
Arguments float_recip {F C} _ _.
Arguments conjf {F C} _ _.
Arguments cmul {F C} _ _ _.
Arguments cscale {F C} _ _ _.

(** The real FFT backend.  Creating a plan for a grid with
    [FFTW_MEASURE] gives no plan ([NULL], here [None]) or a plan; in the
    second case the planner overwrites the arrays it is given, and the
    function returns what it leaves in the real one (the input of a
    forward plan, the output of an inverse plan).  Executing a forward
    plan takes [nx*ny*nz] reals to a half-spectrum, executing an inverse
    plan takes a half-spectrum back. *)
Record Backend (F C : Type) : Type :=
  { fftwf_plan_dft_r2c_3d : Z → Z → Z → list F → option (list F);
    fftwf_plan_dft_c2r_3d : Z → Z → Z → list F → option (list F);
    fftwf_execute_dft_r2c : Z → Z → Z → list F → list C;
    fftwf_execute_dft_c2r : Z → Z → Z → list C → list F }.
Arguments fftwf_plan_dft_r2c_3d {F C} _ _ _ _ _.
Arguments fftwf_plan_dft_c2r_3d {F C} _ _ _ _ _.
Arguments fftwf_execute_dft_r2c {F C} _ _ _ _ _.
Arguments fftwf_execute_dft_c2r {F C} _ _ _ _ _.

(** The backend keeps the sizes of the plans it was built for. *)
Definition backend_sized {F C : Type} (fftw : Backend F C) : Prop :=
  ∀ nx ny nz : Z, (0 ≤ nx)%Z → (0 ≤ ny)%Z → (0 ≤ nz)%Z →
    (∀ v, Z.of_nat (length v) = (nx * ny * nz)%Z →
       Z.of_nat (length (fftwf_execute_dft_r2c fftw nx ny nz v))
       = (nx * ny * (nz ÷ 2 + 1))%Z) ∧
    (∀ s, Z.of_nat (length s) = (nx * ny * (nz ÷ 2 + 1))%Z →
       Z.of_nat (length (fftwf_execute_dft_c2r fftw nx ny nz s))
       = (nx * ny * nz)%Z).

(** For a grid of positive sizes the planner makes a plan, and leaves as
    many values in the array as it found. *)
Definition backend_plans {F C : Type} (fftw : Backend F C) : Prop :=
  ∀ (nx ny nz : Z) (v : list F), (0 < nx)%Z → (0 < ny)%Z → (0 < nz)%Z →
    (∃ v', fftwf_plan_dft_r2c_3d fftw nx ny nz v = Some v' ∧
           length v' = length v) ∧
    (∃ v', fftwf_plan_dft_c2r_3d fftw nx ny nz v = Some v' ∧
           length v' = length v).

Section kernel.
Context {F C : Type}.
Variable num : Numerics F C.
Variable fftw : Backend F C.
Local Open Scope Z_scope.

(** Lines 110-112. *)
Definition conj_multiply (N_fft_points : Z) (fft_r : list C) (scale : F)
    (cur_fft_l : list C) : option (list C) :=
  for_loop 0 (Z.to_nat N_fft_points) (λ k cur_fft_l,
    r ← fft_r !! k;
    l ← cur_fft_l !! k;
    Some (<[k := cscale num (cmul num (conjf num r) l) scale]> cur_fft_l))
    cur_fft_l.

(** Creating a plan with [FFTW_MEASURE] on the [len] reals at [p]:
    whether a plan was made, and the buffer as the planner leaves it. *)
Definition plan_measure (plan : list F → option (list F))
    (buf : list F) (p len : Z) : option (bool * list F) :=
  match plan (block buf p len) with
  | Some v => buf' ← store_block buf p len v; Some (true, buf')
  | None => Some (false, buf)
  end.

(** Lines 67-123.  The result is the two arrays as the call leaves
    them.  The plans are created on the first field of each array
    (lines 94-95); the complex array of the inverse plan is [fft_l],
    of [N_fft_points * n_orientations] points.  A plan that was not
    created cannot be executed, and [num_threads] needs a positive
    number.  Each orientation works on its own part of [fft_l], which
    is the value [cur_fft_l] here; the orientations, which OpenMP hands
    to [n_threads] threads, are taken in order. *)
Definition fft_correlate_batch (recep_grid result : PyArray F)
    (n_threads : Z) : option (PyArray F * PyArray F) :=
  n_grids ← PyArray_DIMS recep_grid 0;
  n_orientations ← PyArray_DIMS result 0;
  nx ← PyArray_DIMS recep_grid 1;
  ny ← PyArray_DIMS recep_grid 2;
  nz ← PyArray_DIMS recep_grid 3;
  let N_grid_points := nx * ny * nz in
  let N_fft_points := nx * ny * (nz ÷ 2 + 1) in
  let recep_arr := PyArray_GETPTR1 recep_grid 0 in
  let lig_arr := PyArray_GETPTR1 result 0 in
  '(plan_fwd, recep) ←
    plan_measure (fftwf_plan_dft_r2c_3d fftw nx ny nz)
      (data recep_grid) recep_arr N_grid_points;
  '(plan_inv, lig) ←
    plan_measure (fftwf_plan_dft_c2r_3d fftw nx ny nz)
      (data result) lig_arr N_grid_points;
  if bool_decide (plan_inv = true ∧
                  N_fft_points * n_orientations < N_fft_points)
  then None else
  let scale := float_recip num N_grid_points in
  lig ← for_loop 0 (Z.to_nat n_grids) (λ i lig,
    cur_recep ← load_block recep
                  (PyArray_GETPTR1 recep_grid (Z.of_nat i)) N_grid_points;
    if negb plan_fwd then None else
    let fft_r := fftwf_execute_dft_r2c fftw nx ny nz cur_recep in
    if bool_decide (n_threads < 1) then None else
    for_loop 0 (Z.to_nat n_orientations) (λ j lig,
      let p := PyArray_GETPTR2 result (Z.of_nat j) (Z.of_nat i) in
      cur_lig ← load_block lig p N_grid_points;
      let cur_fft_l := fftwf_execute_dft_r2c fftw nx ny nz cur_lig in
      cur_fft_l ← conj_multiply N_fft_points fft_r scale cur_fft_l;
      if negb plan_inv then None else
      store_block lig p N_grid_points
        (fftwf_execute_dft_c2r fftw nx ny nz cur_fft_l)) lig) lig;
  Some ({| type_num := type_num recep_grid; dims := dims recep_grid;
           data := recep |},
        {| type_num := type_num result; dims := dims result;
           data := lig |}).

(** ** The Python entry point *)

Inductive PyObject : Type :=
  | PyArrayObject (a : PyArray F)
  | PyLongObject (n : Z)
  | PyOtherObject.

(** What the wrapper returns: [None], or [NULL] with the error set. *)
Inductive PyReturn : Type :=
  | Py_None
  | PyArg_ParseTuple_failed
  | PyExc_TypeError (msg : string).

(** Lines 221-260.  The format ["O!O!i"] takes two arrays and a Python
    integer that fits an [int].  The second component of the result is
    the argument tuple as the call leaves it: the kernel works on the
    arrays of the caller. *)
Definition py_fft_correlate_batch (args : list PyObject)
    : option (PyReturn * list PyObject) :=
  match args with
  | [PyArrayObject recep_grid; PyArrayObject result;
     PyLongObject n_threads] =>
      if bool_decide (¬ (- 2 ^ 31 ≤ n_threads < 2 ^ 31)) then
        Some (PyArg_ParseTuple_failed, args)
      else if bool_decide (PyArray_NDIM recep_grid ≠ 4%nat ∨
                      PyArray_TYPE recep_grid ≠ NPY_FLOAT32) then
        Some (PyExc_TypeError
                "Expected receptor arrays of float32 with 4 dimensions.",
              args)
      else if bool_decide (PyArray_NDIM result ≠ 5%nat ∨
                           PyArray_TYPE result ≠ NPY_FLOAT32) then
        Some (PyExc_TypeError
                "Expected result arrays of float32 with 5 dimensions.",
              args)
      else
        n_grids ← PyArray_DIMS recep_grid 0;
        n_grids_result ← PyArray_DIMS result 1;
        if bool_decide (n_grids ≠ n_grids_result) then
          Some (PyExc_TypeError
            "Expected same number of grids for both receptor and result arrays.",
            args)
        else
          '(recep_grid', result') ←
            fft_correlate_batch recep_grid result n_threads;
          Some (Py_None,
                [PyArrayObject recep_grid'; PyArrayObject result';
                 PyLongObject n_threads])
  | _ => Some (PyArg_ParseTuple_failed, args)
  end.
End kernel.
Arguments PyArrayObject {F} _.
Arguments PyLongObject {F} _.
Arguments PyOtherObject {F}.

(** An arithmetic and a backend over [Z] and the Gaussian integers, to run
    the kernel on: the scale factor is the number of points itself, a
    plan is made for every grid of positive sizes and planning leaves the
    arrays as they are (as when the plan is known from before), the
    forward transform pads or cuts the field to the half-spectrum size,
    and the inverse one takes real parts. *)
Definition Z_numerics : Numerics Z (Z * Z) :=
  {| float_recip := λ n, n;
     conjf := λ c, (c.1, - c.2)%Z;
     cmul := λ a b, (a.1 * b.1 - a.2 * b.2, a.1 * b.2 + a.2 * b.1)%Z;
     cscale := λ c s, (c.1 * s, c.2 * s)%Z |}.

Definition Z_backend : Backend Z (Z * Z) :=
  {| fftwf_plan_dft_r2c_3d := λ nx ny nz v,
       if bool_decide (0 < nx ∧ 0 < ny ∧ 0 < nz)%Z then Some v else None;
     fftwf_plan_dft_c2r_3d := λ nx ny nz v,
       if bool_decide (0 < nx ∧ 0 < ny ∧ 0 < nz)%Z then Some v else None;
     fftwf_execute_dft_r2c := λ nx ny nz v,
       resize (Z.to_nat (nx * ny * (nz ÷ 2 + 1))) (0, 0)%Z
              ((λ x, (x, 1%Z)) <$> v);
     fftwf_execute_dft_c2r := λ nx ny nz s,
       resize (Z.to_nat (nx * ny * nz)) 0%Z (fst <$> s) |}.

(** ** Shapes and loop invariants of the realignment *)

Section realign_spec.
Context {F : Type}.
Variable fadd : F → F → F.
Local Open Scope Z_scope.

(** [grids] is an [(O, C, nx, ny, nz)] array and [result] an
    [(O, nx, ny, nz)] array. *)
Record sum_grids_shapes (grids result : PyArray F) (O C nx ny nz : Z)
    : Prop :=
  { shape_grids : dims grids = [O; C; nx; ny; nz];
    shape_result : dims result = [O; nx; ny; nz];
    shape_nonneg : 0 ≤ O ∧ 0 ≤ C ∧ 0 ≤ nx ∧ 0 ≤ ny ∧ 0 ≤ nz;
    size_grids : Z.of_nat (length (data grids)) = O * C * (nx * ny * nz);
    size_result : Z.of_nat (length (data result)) = O * (nx * ny * nz) }.

(** The index that [roll_cur_idx] returns when none of its additions
    overflows. *)
Definition roll_idx (nx ny nz x y z roll_steps : Z) : Z :=
  Z.rem (x + roll_steps) nx * ny * nz +
  Z.rem (y + roll_steps) ny * nz +
  Z.rem (z + roll_steps) nz.

(** A roll of at least 0 that overflows at no coordinate of the grid:
    the largest sum, [n - 1 + roll_steps], is at most [INT_MAX]. *)
Definition roll_fits (nx ny nz roll_steps : Z) : Prop :=
  roll_steps = 0 ∨
  (roll_steps + nx ≤ 2 ^ 31 ∧ roll_steps + ny ≤ 2 ^ 31 ∧
   roll_steps + nz ≤ 2 ^ 31).

(** Where [result[i]] holds the cell that [(x, y, z)] is rolled to, as
    the loops compute it. *)
Definition result_cell (nx ny nz i x y z roll_steps : Z) : nat :=
  Z.to_nat (i * (nx * ny * nz) + roll_idx nx ny nz x y z roll_steps).

(** The roll of the specification: the cell of [result[i]] at the
    coordinates [((x + r) mod nx, (y + r) mod ny, (z + r) mod nz)]. *)
Definition rolled_cell (nx ny nz i x y z r : Z) : nat :=
  Z.to_nat (i * (nx * ny * nz) +
            ((x + r) `mod` nx * ny * nz + (y + r) `mod` ny * nz +
             (z + r) `mod` nz)).

(** Where [grids[i][j]] holds the cell [(x, y, z)]. *)
Definition grids_cell (C nx ny nz i j x y z : Z) : nat :=
  Z.to_nat ((i * C + j) * (nx * ny * nz) + (x * ny * nz + y * nz + z)).

(** [vs] lists, for the channels [0 .. k-1] of orientation [i], the
    value at the mirror image of the cell [(x, y, z)]. *)
Definition flipped_channels (grids : PyArray F) (C nx ny nz i x y z : Z)
    (k : nat) (vs : list F) : Prop :=
  length vs = k ∧
  ∀ j : nat, (j < k)%nat →
    vs !! j = data grids !!
                grids_cell C nx ny nz i (Z.of_nat j)
                  (nx - 1 - x) (ny - 1 - y) (nz - 1 - z).

(** The buffer when [K i x y z] channels have been added to each
    destination cell. *)
Definition accumulated (grids result : PyArray F) (O C nx ny nz r : Z)
    (K : Z → Z → Z → Z → nat) (buf : list F) : Prop :=
  length buf = length (data result) ∧
  ∀ i x y z prior,
    0 ≤ i < O → 0 ≤ x < nx → 0 ≤ y < ny → 0 ≤ z < nz →
    data result !! result_cell nx ny nz i x y z r = Some prior →
    ∃ vs, flipped_channels grids C nx ny nz i x y z (K i x y z) vs ∧
          buf !! result_cell nx ny nz i x y z r
          = Some (foldl fadd prior vs).

(** How many channels each cell has received when the loops stand at
    orientation [i], channel [j] and destination [(cx, cy, cz)]. *)
Definition progress (C : nat) (i : Z) (j : nat) (cx cy cz : Z)
    : Z → Z → Z → Z → nat :=
  λ i' x y z,
    if decide (i' < i) then C
    else if decide (i < i') then 0%nat
    else if decide (x < cx ∨ (x = cx ∧ (y < cy ∨ (y = cy ∧ z < cz))))
         then S j else j.

(** The loops of [sum_grids], innermost first, for an input whose last
    three dimensions are [nx], [ny] and [nz]. *)
Section sum_grids_loops.
Variables (grids result : PyArray F) (nx ny nz roll_steps : Z).

Definition sum_z (i j : nat) (x new_x y new_y : Z)
    : list F → option (list F) :=
  for_down nz (λ z new_z buf,
    updated_idx ← roll_cur_idx nx ny nz new_x new_y new_z roll_steps;
    v ← load (data grids)
           (PyArray_GETPTR2 grids (Z.of_nat i) (Z.of_nat j))
           (nx * ny * nz) (x * ny * nz + y * nz + z);
    old ← load buf (PyArray_GETPTR1 result (Z.of_nat i)) (nx * ny * nz)
            updated_idx;
    store buf (PyArray_GETPTR1 result (Z.of_nat i)) (nx * ny * nz)
      updated_idx (fadd old v)).

Definition sum_y (i j : nat) (x new_x : Z) : list F → option (list F) :=
  for_down ny (λ y new_y, sum_z i j x new_x y new_y).

Definition sum_x (i j : nat) : list F → option (list F) :=
  for_down nx (λ x new_x, sum_y i j x new_x).

Definition sum_channels (n_grids : Z) (i : nat)
    : list F → option (list F) :=
  for_loop 0 (Z.to_nat n_grids) (λ j, sum_x i j).

Definition sum_orientations (n_orientations n_grids : Z)
    : list F → option (list F) :=
  for_loop 0 (Z.to_nat n_orientations) (λ i, sum_channels n_grids i).
End sum_grids_loops.

(** The loops of [flip_and_roll], innermost first. *)
Section flip_and_roll_loops.
Variables (grids : PyArray F) (nx ny nz roll_steps : Z).

Definition roll_cells (i j : nat) : list F → option (list F) :=
  for_loop 0 (Z.to_nat (nx * ny * nz)) (λ k buf,
    let k := Z.of_nat k in
    let x := k ÷ (ny * nz) in
    let y := Z.rem k (ny * nz) ÷ nz in
    let z := Z.rem k nz in
    idx ← roll_cur_idx nx ny nz x y z roll_steps;
    v ← load buf (PyArray_GETPTR1 grids (Z.of_nat i)) (nx * ny * nz) idx;
    store buf (PyArray_GETPTR2 grids (Z.of_nat i) (Z.of_nat j))
      (nx * ny * nz) k v).

Definition roll_channels (n_grids : Z) (i : nat)
    : list F → option (list F) :=
  for_loop 0 (Z.to_nat n_grids) (λ j, roll_cells i j).

Definition roll_orientations (n_orientations n_grids : Z)
    : list F → option (list F) :=
  for_loop 0 (Z.to_nat n_orientations) (λ i, roll_channels n_grids i).
End flip_and_roll_loops.
End realign_spec.

(** ** Small inputs to run the realignment on *)

Definition sum_grids_example_grids : PyArray Z :=
  {| type_num := NPY_FLOAT32; dims := [1; 2; 1; 2; 3]%Z;
     data := [1; 2; 3; 4; 5; 6; 10; 20; 30; 40; 50; 60]%Z |}.

Definition sum_grids_example_result : PyArray Z :=
  {| type_num := NPY_FLOAT32; dims := [1; 1; 2; 3]%Z;
     data := [100; 200; 300; 400; 500; 600]%Z |}.

(** One orientation, one channel, one cell. *)
Definition one_cell_grids : PyArray Z :=
  {| type_num := NPY_FLOAT32; dims := [1; 1; 1; 1; 1]%Z; data := [5]%Z |}.

(** A result buffer that is not zero on entry. *)
Definition one_cell_result : PyArray Z :=
  {| type_num := NPY_FLOAT32; dims := [1; 1; 1; 1]%Z; data := [7]%Z |}.

(** One orientation and one channel of shape [(1, 2, 3)]. *)
Definition single_channel_grids : PyArray Z :=
  {| type_num := NPY_FLOAT32; dims := [1; 1; 1; 2; 3]%Z;
     data := [1; 2; 3; 4; 5; 6]%Z |}.

Definition zero_result : PyArray Z :=
  {| type_num := NPY_FLOAT32; dims := [1; 1; 2; 3]%Z;
     data := [0; 0; 0; 0; 0; 0]%Z |}.

(** ** Shapes and loop invariant of the kernel *)

Section kernel_spec.
Context {F C : Type}.
Variable num : Numerics F C.
Variable fftw : Backend F C.
Local Open Scope Z_scope.

(** [recep_grid] is a [(Cn, nx, ny, nz)] array and [result] an
    [(O, Cn, nx, ny, nz)] array. *)
Record kernel_shapes (recep_grid result : PyArray F) (O Cn nx ny nz : Z)
    : Prop :=
  { shape_recep : dims recep_grid = [Cn; nx; ny; nz];
    shape_lig : dims result = [O; Cn; nx; ny; nz];
    shape_kernel_nonneg : 0 ≤ O ∧ 0 ≤ Cn ∧ 0 ≤ nx ∧ 0 ≤ ny ∧ 0 ≤ nz;
    size_recep :
      Z.of_nat (length (data recep_grid)) = Cn * (nx * ny * nz);
    size_lig :
      Z.of_nat (length (data result)) = O * Cn * (nx * ny * nz) }.

(** An array as plan creation leaves it: where a plan is made, the
    first [N] values are those the planner leaves. *)
Definition planned (plan : list F → option (list F)) (a : PyArray F)
    (N : Z) : PyArray F :=
  match plan (block (data a) 0 N) with
  | Some v => {| type_num := type_num a; dims := dims a;
                 data := v ++ drop (Z.to_nat N) (data a) |}
  | None => a
  end.

(** The product of line 111 at one frequency. *)
Definition conj_product (scale : F) (r l : C) : C :=
  cscale num (cmul num (conjf num r) l) scale.

(** What the kernel leaves for channel [i] of orientation [j]. *)
Definition correlation_surface (recep_grid result : PyArray F)
    (Cn nx ny nz i j : Z) : list F :=
  let N := nx * ny * nz in
  fftwf_execute_dft_c2r fftw nx ny nz
    (zip_with (conj_product (float_recip num N))
       (fftwf_execute_dft_r2c fftw nx ny nz
          (block (data recep_grid) (i * N) N))
       (fftwf_execute_dft_r2c fftw nx ny nz
          (block (data result) ((j * Cn + i) * N) N))).

(** The candidate buffer when the loops stand at channel [i] and
    orientation [j]: the fields already visited hold their correlation
    surface, the others what they held on entry. *)
Definition correlated (recep_grid result : PyArray F)
    (O Cn nx ny nz i j : Z) (lig : list F) : Prop :=
  length lig = length (data result) ∧
  ∀ i' j', 0 ≤ i' < Cn → 0 ≤ j' < O →
    block lig ((j' * Cn + i') * (nx * ny * nz)) (nx * ny * nz)
    = if decide (i' < i ∨ (i' = i ∧ j' < j))
      then correlation_surface recep_grid result Cn nx ny nz i' j'
      else block (data result) ((j' * Cn + i') * (nx * ny * nz))
             (nx * ny * nz).

(** The loops of [fft_correlate_batch], innermost first. *)
Section kernel_loops.
Variables (recep_grid result : PyArray F) (nx ny nz : Z).

Definition correlate_orientations (n_orientations : Z) (i : nat)
    (fft_r : list C) : list F → option (list F) :=
  for_loop 0 (Z.to_nat n_orientations) (λ j lig,
    let p := PyArray_GETPTR2 result (Z.of_nat j) (Z.of_nat i) in
    cur_lig ← load_block lig p (nx * ny * nz);
    let cur_fft_l := fftwf_execute_dft_r2c fftw nx ny nz cur_lig in
    cur_fft_l ← conj_multiply num (nx * ny * (nz ÷ 2 + 1)) fft_r
                  (float_recip num (nx * ny * nz)) cur_fft_l;
    store_block lig p (nx * ny * nz)
      (fftwf_execute_dft_c2r fftw nx ny nz cur_fft_l)).

Definition correlate_channels (n_grids n_orientations : Z)
    : list F → option (list F) :=
  for_loop 0 (Z.to_nat n_grids) (λ i lig,
    cur_recep ← load_block (data recep_grid)
                  (PyArray_GETPTR1 recep_grid (Z.of_nat i))
                  (nx * ny * nz);
    correlate_orientations n_orientations i
      (fftwf_execute_dft_r2c fftw nx ny nz cur_recep) lig).
End kernel_loops.
End kernel_spec.

(** ** Small inputs to run the kernel on *)

Definition small_recep : PyArray Z :=
  {| type_num := NPY_FLOAT32; dims := [1; 2; 2; 2]%Z;
     data := [1; 2; 3; 4; 5; 6; 7; 8]%Z |}.

(** A candidate array whose grid is [4 x 4 x 4], not [2 x 2 x 2]. *)
Definition large_result : PyArray Z :=
  {| type_num := NPY_FLOAT32; dims := [1; 1; 4; 4; 4]%Z;
     data := replicate 64 3%Z |}.

Definition small_result : PyArray Z :=
  {| type_num := NPY_FLOAT32; dims := [1; 1; 2; 2; 2]%Z;
     data := [3; 1; 4; 1; 5; 9; 2; 6]%Z |}.

(** Two channels of one cell each. *)
Definition two_channel_grids : PyArray Z :=
  {| type_num := NPY_FLOAT32; dims := [1; 2; 1; 1; 1]%Z; data := [1; 2]%Z |}.

(** One channel of three cells along the last axis. *)
Definition three_cell_grids : PyArray Z :=
  {| type_num := NPY_FLOAT32; dims := [1; 1; 1; 1; 3]%Z;
     data := [10; 20; 30]%Z |}.

Definition three_cell_result : PyArray Z :=
  {| type_num := NPY_FLOAT32; dims := [1; 1; 1; 3]%Z;
     data := [0; 0; 0]%Z |}.

(** ** The remaining functions of [fft_correlate.c] *)

(** Lines 21-25: [indices[i] = i] for [i < n]. *)
Definition fill_indices (indices : list Z) (n : Z) : option (list Z) :=
  for_loop 0 (Z.to_nat n) (λ i indices,
    store indices 0 (Z.of_nat (length indices)) (Z.of_nat i) (Z.of_nat i))
    indices.

Section negative_values.
Context {F : Type}.

(** [signbit] of a [float]: set for negative values, for [-0.0] and for
    NaNs that carry the sign. *)
Variable signbit : F → bool.
Local Open Scope Z_scope.

(** Lines 127-139.  The result is the returned counter and the array
    [neg_val_ids] as the call leaves it. *)
Definition find_neg_vals (arr : list F) (n : Z) (neg_val_ids : list Z)
    : option (Z * list Z) :=
  for_loop 0 (Z.to_nat n) (λ i st,
    let neg_val_counter := st.1 in
    let neg_val_ids := st.2 in
    a ← arr !! i;
    let is_neg := Z.b2z (signbit a) in
    let cur_id := is_neg * neg_val_counter in
    neg_val_ids ← store neg_val_ids 0 (Z.of_nat (length neg_val_ids))
                    cur_id (Z.of_nat i);
    Some (neg_val_counter + is_neg, neg_val_ids)) (1, neg_val_ids).

(** Whether [arr[i]] has its sign bit set, or clear. *)
Definition negative_at (arr : list F) (i : nat) : bool :=
  match arr !! i with Some a => signbit a | None => false end.

Definition other_at (arr : list F) (i : nat) : bool :=
  match arr !! i with Some a => negb (signbit a) | None => false end.

(** The positions among the first [m] whose value has its sign bit set,
    or clear, in increasing order. *)
Definition negative_positions (arr : list F) (m : nat) : list nat :=
  filter (λ i, negative_at arr i) (seq 0 m).

Definition other_positions (arr : list F) (m : nat) : list nat :=
  filter (λ i, other_at arr i) (seq 0 m).
End negative_values.

Section sum_grids_entry_point.
Context {F : Type}.
Variable fadd : F → F → F.
Local Open Scope Z_scope.

(** Lines 262-308.  The format ["O!iO!"] takes an array, a Python integer
    that fits an [int], and an array.  The two [malloc]ed buffers are
    passed to [sum_grids], which does not use them, and are never freed.
    The second component of the result is the argument tuple as the call
    leaves it. *)
Definition py_sum_grids (args : list (@PyObject F))
    : option (PyReturn * list (@PyObject F)) :=
  match args with
  | [PyArrayObject grids; PyLongObject roll_steps; PyArrayObject result] =>
      if bool_decide (¬ (- 2 ^ 31 ≤ roll_steps < 2 ^ 31)) then
        Some (PyArg_ParseTuple_failed, args)
      else if bool_decide (PyArray_NDIM grids ≠ 5%nat ∨
                           PyArray_TYPE grids ≠ NPY_FLOAT32) then
        Some (PyExc_TypeError
                "Expected grids array of float32 with 5 dimensions.",
              args)
      else if bool_decide (PyArray_NDIM result ≠ 4%nat ∨
                           PyArray_TYPE result ≠ NPY_FLOAT32) then
        Some (PyExc_TypeError
                "Expected result array of float32 with 4 dimensions.",
              args)
      else
        n_orientations ← PyArray_DIMS grids 0;
        nx ← PyArray_DIMS grids 2;
        ny ← PyArray_DIMS grids 3;
        nz ← PyArray_DIMS grids 4;
        result' ← sum_grids fadd grids result roll_steps;
        Some (Py_None,
              [PyArrayObject grids; PyLongObject roll_steps;
               PyArrayObject result'])
  | _ => Some (PyArg_ParseTuple_failed, args)
  end.
End sum_grids_entry_point.

(** * Properties *)

(** ** Loops *)

(** The invariant rule of a counting loop whose body cannot fail while the
    invariant holds. *)
Lemma for_loop_invariant {St : Type} (P : nat → St → Prop) count :
  ∀ start body s,
    P start s →
    (∀ i s, start ≤ i < start + count → P i s →
       ∃ s', body i s = Some s' ∧ P (S i) s') →
    ∃ s', for_loop start count body s = Some s' ∧ P (start + count) s'.
Proof.
  induction count as [|count IH]; intros start body s H0 Hstep; simpl.
  - exists s. by rewrite Nat.add_0_r.
  - destruct (Hstep start s) as (s1 & -> & H1); [lia|done|]. simpl.
    destruct (IH (S start) body s1) as (s2 & -> & H2); [done| |].
    + intros i s' ? ?. apply Hstep; [lia|done].
    + exists s2. split; [done|].
      by replace (start + S count) with (S start + count) by lia.
Qed.

(** One more iteration is one more call of the body. *)
Lemma for_loop_S_r {St : Type} count :
  ∀ start (body : nat → St → option St) s,
    for_loop start (S count) body s
    = for_loop start count body s ≫= body (start + count).
Proof.
  induction count as [|count IH]; intros start body s.
  - simpl. rewrite Nat.add_0_r. by destruct (body start s).
  - change (for_loop start (S (S count)) body s)
      with (body start s ≫= for_loop (S start) (S count) body).
    change (for_loop start (S count) body s)
      with (body start s ≫= for_loop (S start) count body).
    destruct (body start s) as [s1|]; [|done].
    change (for_loop (S start) (S count) body s1
            = for_loop (S start) count body s1 ≫= body (start + S count)).
    rewrite IH. by replace (start + S count) with (S start + count) by lia.
Qed.

(** Loops whose bodies agree where they run. *)
Lemma for_loop_ext {St : Type} count :
  ∀ start (body body' : nat → St → option St) s,
    (∀ i s, start ≤ i < start + count → body i s = body' i s) →
    for_loop start count body s = for_loop start count body' s.
Proof.
  induction count as [|count IH]; intros start body body' s Hext; [done|].
  cbn [for_loop]. rewrite Hext by lia.
  destruct (body' start s) as [s'|]; [|done]. cbn [mbind option_bind].
  apply IH. intros i s'' Hi. apply Hext. lia.
Qed.

Lemma for_down_ext {St : Type} n (body body' : Z → Z → St → option St) s :
  (∀ c s, (0 ≤ c < n)%Z →
     body (n - 1 - c)%Z c s = body' (n - 1 - c)%Z c s) →
  for_down n body s = for_down n body' s.
Proof.
  intros Hext. unfold for_down. apply for_loop_ext.
  intros i s' Hi. apply Hext. lia.
Qed.

(** ** The best-score selector *)

Lemma flt_num a b :
  a ≠ NaN → b ≠ NaN → flt a b = (num a <? num b)%Z.
Proof. by destruct a, b. Qed.

Lemma flt_asym a b : flt a b = true → flt b a = false.
Proof.
  destruct a as [x|], b as [y|]; simpl; try done.
  intros ?%Z.ltb_lt. apply Z.ltb_ge. lia.
Qed.

Lemma Num_num (l : list float) : numbers l → Num <$> (num <$> l) = l.
Proof.
  induction 1 as [|a l Ha _ IH]; [done|].
  rewrite !fmap_cons, IH. by destruct a.
Qed.

Lemma numbers_lookup scores i s :
  numbers scores → scores !! i = Some s → s ≠ NaN.
Proof. intros Hn Hs. by apply (Forall_lookup_1 _ _ _ _ Hn Hs). Qed.

(** [comparator] puts [p] before [q] unless [p] is below [q]. *)
Lemma comparator_nonpos p q :
  (comparator p q ≤ 0)%Z ↔ flt (score p) (score q) = false.
Proof.
  unfold comparator; simpl.
  destruct (flt (score p) (score q)) eqn:Hpq; simpl.
  - rewrite (flt_asym _ _ Hpq). simpl. split; [lia|done].
  - destruct (flt (score q) (score p)); simpl; split; (done || lia).
Qed.

Lemma comparator_antisym p q : comparator q p = (- comparator p q)%Z.
Proof. unfold comparator; simpl. lia. Qed.

Lemma Sorted_weaken {A} (R1 R2 : relation A) l :
  (∀ x y, R1 x y → R2 x y) → Sorted R1 l → Sorted R2 l.
Proof.
  intros HR. induction 1 as [|x l _ IH Hhd]; constructor; [done|].
  destruct Hhd; constructor; auto.
Qed.

Lemma Sorted_weaken_on {A} (P : A → Prop) (R1 R2 : relation A) l :
  Forall P l → (∀ x y, P x → P y → R1 x y → R2 x y) →
  Sorted R1 l → Sorted R2 l.
Proof.
  intros HP HR. induction 1 as [|x l _ IH Hhd]; constructor.
  - apply IH. by apply Forall_inv_tail in HP.
  - destruct Hhd as [|y l' Hxy]; constructor.
    apply Forall_cons in HP as [Hx HP]. apply Forall_cons in HP as [Hy _].
    by apply HR.
Qed.

Global Instance score_ge_trans :
  Transitive (λ p q : ScoreIndexPair, (num (score q) ≤ num (score p))%Z).
Proof. intros p q r; simpl; lia. Qed.

(** On numbers, "not below" is "at least". *)
Lemma descending_numbers l :
  Forall (λ p, score p ≠ NaN) l → descending l →
  Sorted (λ p q, (num (score q) ≤ num (score p))%Z) l.
Proof.
  intros Hn. apply (Sorted_weaken_on (λ p, score p ≠ NaN)); [done|].
  intros p q Hp Hq. rewrite flt_num by done. intros ?%Z.ltb_ge. lia.
Qed.

Lemma descending_head_worst w l p :
  Forall (λ p, score p ≠ NaN) (w :: l) →
  descending (w :: l) → p ∈ w :: l → (num (score p) ≤ num (score w))%Z.
Proof.
  intros Hn Hd Hp. apply descending_numbers in Hd; [|done].
  apply Sorted_StronglySorted in Hd; [|apply _].
  apply StronglySorted_cons in Hd as [Hall _].
  apply elem_of_cons in Hp as [->|Hp]; [lia|].
  rewrite Forall_forall in Hall. by apply Hall.
Qed.

Lemma valid_entries_perm scores m l l' :
  l' ≡ₚ l → valid_entries scores m l → valid_entries scores m l'.
Proof.
  intros Hp [Hv Hnd]. split.
  - intros p Hin. apply Hv. by rewrite <-Hp.
  - by rewrite Hp.
Qed.

Lemma valid_entries_mono scores m m' l :
  m ≤ m' → valid_entries scores m l → valid_entries scores m' l.
Proof.
  intros Hm [Hv Hnd]. split; [|done].
  intros p Hin. destruct (Hv p Hin). split; [lia|done].
Qed.

Lemma valid_entries_fresh scores m s l :
  scores !! m = Some s → valid_entries scores m l →
  valid_entries scores (S m) ({| index := m; score := s |} :: l).
Proof.
  intros Hs [Hv Hnd]. split.
  - intros p [->|Hin]%elem_of_cons; simpl; [split; [lia|done]|].
    destruct (Hv p Hin). split; [lia|done].
  - rewrite fmap_cons; simpl. apply NoDup_cons. split; [|done].
    intros (p & Hp & Hin)%list_elem_of_fmap. destruct (Hv p Hin). lia.
Qed.

(** The entries taken from a stream of numbers hold numbers. *)
Lemma valid_entries_numbers scores m l :
  numbers scores → valid_entries scores m l →
  Forall (λ p, score p ≠ NaN) l.
Proof.
  intros Hn [Hv _]. apply Forall_forall. intros p Hp.
  destruct (Hv p Hp) as [_ Hs]. by apply (numbers_lookup scores (index p)).
Qed.

Section selector_correct.
Variable qsort :
  list ScoreIndexPair → (ScoreIndexPair → ScoreIndexPair → Z) →
  list ScoreIndexPair.
Hypothesis qsort_ok : qsort_contract qsort.

Lemma qsort_perm l : qsort l comparator ≡ₚ l.
Proof. apply qsort_ok. Qed.

Lemma qsort_descending l : descending (qsort l comparator).
Proof.
  eapply Sorted_weaken; [|apply qsort_ok].
  intros p q. apply comparator_nonpos.
Qed.

Lemma qsort_heap_written l :
  qsort_heap qsort (Some <$> l) = Some (Some <$> qsort l comparator).
Proof.
  unfold qsort_heap. by rewrite (mapM_fmap_Some id Some l).
Qed.

(** Writing cell [i] of a heap that is filled up to [i]. *)
Lemma fill_write scores N i s heap :
  i < N → scores !! i = Some s →
  fill_invariant scores N i heap →
  fill_invariant scores N (S i)
    (<[i := Some {| index := i; score := s |}]> heap).
Proof.
  intros Hi Hs (l & -> & Hlen & Hv & Hp).
  exists (l ++ [{| index := i; score := s |}]). split_and!.
  - rewrite insert_app_r_alt by (rewrite length_fmap; lia).
    rewrite length_fmap, Hlen, Nat.sub_diag.
    replace (N - i) with (S (N - S i)) by lia.
    rewrite fmap_app. simpl. by rewrite <-app_assoc.
  - rewrite length_app; simpl; lia.
  - eapply valid_entries_perm; [symmetry; apply Permutation_cons_append|].
    by apply valid_entries_fresh.
  - rewrite (take_S_r _ _ _ Hs), fmap_app, Hp. done.
Qed.

(** The sort that follows the last of the first [N] writes. *)
Lemma fill_complete scores N heap :
  fill_invariant scores N N heap →
  ∃ heap', qsort_heap qsort heap = Some heap' ∧
           full_invariant scores N N heap'.
Proof.
  intros (l & -> & Hlen & Hv & Hp).
  rewrite Nat.sub_diag. simpl. rewrite app_nil_r, qsort_heap_written.
  eexists; split; [done|].
  exists (qsort l comparator), []. split_and!.
  - done.
  - by rewrite qsort_perm.
  - apply qsort_descending.
  - eapply valid_entries_perm; [apply qsort_perm|]. done.
  - by rewrite app_nil_r, qsort_perm.
  - intros a b _ Hb. by apply elem_of_nil in Hb.
Qed.

(** An iteration on a full heap. *)
Lemma full_step scores N m s heap :
  numbers scores →
  1 ≤ N → N ≤ m → scores !! m = Some s →
  full_invariant scores N m heap →
  ∃ heap', scan_step qsort scores N m heap = Some heap' ∧
           full_invariant scores N (S m) heap'.
Proof.
  intros Hnum HN Hm Hs (l & rest & -> & Hlen & Hd & Hv & Hp & Hle).
  destruct l as [|w tl]; [simpl in Hlen; lia|].
  pose proof (valid_entries_numbers _ _ _ Hnum Hv) as Hnl.
  pose proof (numbers_lookup _ _ _ Hnum Hs) as Hns.
  assert (score w ≠ NaN) as Hnw by (by apply Forall_inv in Hnl).
  unfold scan_step. rewrite Hs. cbn [mbind option_bind].
  rewrite bool_decide_false by lia.
  change (mjoin ((Some <$> w :: tl) !! 0)) with (Some w).
  cbn [mbind option_bind]. rewrite flt_num by done.
  destruct (Z.ltb_spec (num s) (num (score w))) as [Hlt|Hge].
  - assert (<[0:=Some {| index := m; score := s |}]> (Some <$> w :: tl)
            = Some <$> ({| index := m; score := s |} :: tl)) as -> by done.
    rewrite qsort_heap_written. eexists; split; [done|].
    set (l1 := {| index := m; score := s |} :: tl).
    assert (Hv1 : valid_entries scores (S m) l1).
    { apply valid_entries_fresh; [done|].
      destruct Hv as [Hv Hnd]. split.
      - intros p Hin. apply Hv. by right.
      - rewrite fmap_cons in Hnd. by apply NoDup_cons in Hnd as [_ ?]. }
    exists (qsort l1 comparator), (score w :: rest). split_and!.
    + done.
    + rewrite qsort_perm. simpl in *; lia.
    + apply qsort_descending.
    + eapply valid_entries_perm; [apply qsort_perm|]. done.
    + rewrite (take_S_r _ _ _ Hs), Hp, qsort_perm. unfold l1. simpl.
      rewrite <-!Permutation_middle, app_nil_r. apply perm_swap.
    + intros a b Ha Hb. rewrite qsort_perm in Ha. unfold l1 in Ha. simpl in Ha.
      assert (Htl : ∀ a, a ∈ score <$> tl → (num a ≤ num (score w))%Z).
      { intros a' (p & -> & Hin)%list_elem_of_fmap.
        eapply descending_head_worst; [done|done|]. by right. }
      assert (Hw : ∀ b, b ∈ rest → (num (score w) ≤ num b)%Z).
      { intros b' Hb'. apply Hle; [|done]. simpl. by left. }
      apply elem_of_cons in Ha as [->|Ha];
        apply elem_of_cons in Hb as [->|Hb].
      * lia.
      * specialize (Hw _ Hb). lia.
      * by apply Htl.
      * apply Hle; [|done]. simpl. by right.
  - eexists; split; [done|].
    exists (w :: tl), (s :: rest). split_and!; [done|done|done|..].
    + eapply valid_entries_mono; [|done]. lia.
    + rewrite (take_S_r _ _ _ Hs), Hp.
      rewrite <-app_assoc. apply Permutation_app_head.
      by rewrite Permutation_app_comm.
    + intros a b Ha [->|Hb]%elem_of_cons; [|by apply Hle].
      apply list_elem_of_fmap in Ha as (p & -> & Hin).
      pose proof (descending_head_worst _ _ _ Hnl Hd Hin). lia.
Qed.

Lemma scan_step_invariant scores N i heap :
  numbers scores → 1 ≤ N → i < length scores →
  scan_invariant scores N i heap →
  ∃ heap', scan_step qsort scores N i heap = Some heap' ∧
           scan_invariant scores N (S i) heap'.
Proof.
  intros Hnum HN Hi Hinv.
  destruct (lookup_lt_is_Some_2 scores i Hi) as [s Hs].
  unfold scan_invariant in *. destruct (decide (i < N)) as [Hlt|Hge].
  - pose proof (fill_write _ _ _ _ _ Hlt Hs Hinv) as Hfill.
    unfold scan_step. rewrite Hs. cbn [mbind option_bind].
    rewrite bool_decide_true by done.
    destruct (decide (i = N - 1)) as [Heq|Hne].
    + rewrite bool_decide_true by done.
      replace (S i) with N in * by lia.
      destruct (fill_complete _ _ _ Hfill) as (heap' & -> & Hfull).
      exists heap'. split; [done|]. by rewrite decide_False by lia.
    + rewrite bool_decide_false by done.
      eexists; split; [done|]. by rewrite decide_True by lia.
  - destruct (full_step scores N i s heap) as (heap' & -> & Hfull);
      [done|lia|lia|done|done|].
    exists heap'. split; [done|]. by rewrite decide_False by lia.
Qed.

Lemma scan_loop scores N m :
  numbers scores → 1 ≤ N → m ≤ length scores →
  ∃ heap, for_loop 0 m (scan_step qsort scores N) (replicate N None)
          = Some heap ∧ scan_invariant scores N m heap.
Proof.
  intros Hnum HN Hm.
  apply (for_loop_invariant (scan_invariant scores N) m 0).
  - unfold scan_invariant. rewrite decide_True by lia.
    exists []. split_and!; [by rewrite Nat.sub_0_r|done| |done].
    split; [by intros p ?%elem_of_nil|constructor].
  - intros i heap [_ Hi] Hinv.
    apply scan_step_invariant; [done|done|lia|done].
Qed.

(** After at least [N] entries the selector returns a full, sorted
    heap. *)
Lemma get_top_n_scores_full scores N m :
  numbers scores → 1 ≤ N → N ≤ m → m ≤ length scores →
  ∃ kept rest,
    for_loop 0 m (scan_step qsort scores N) (replicate N None)
      = Some (Some <$> kept) ∧
    get_top_n_scores qsort scores m N = Some (Some <$> kept) ∧
    length kept = N ∧ descending kept ∧ valid_entries scores m kept ∧
    take m scores ≡ₚ (score <$> kept) ++ rest ∧
    (∀ a b, a ∈ score <$> kept → b ∈ rest → (num a ≤ num b)%Z).
Proof.
  intros Hnum HN HNm Hm.
  destruct (scan_loop scores N m Hnum HN Hm) as (heap & Hloop & Hinv).
  unfold scan_invariant in Hinv. rewrite decide_False in Hinv by lia.
  destruct Hinv as (l & rest & -> & Hlen & Hd & Hv & Hp & Hle).
  exists l, rest. split_and!; try done.
  unfold get_top_n_scores. rewrite Hloop. cbn [mbind option_bind].
  by rewrite take_ge by (rewrite length_fmap; lia).
Qed.

(** The selector's output is sorted, worst first, when the stream has
    at least [N] entries and no NaN. *)
Lemma get_top_n_scores_descending scores n N :
  numbers scores → n = length scores → 1 ≤ N ≤ n →
  ∃ kept, get_top_n_scores qsort scores n N = Some (Some <$> kept) ∧
          descending kept.
Proof.
  intros Hnum -> [HN Hn].
  destruct (get_top_n_scores_full scores N (length scores))
    as (kept & rest & _ & Hget & _ & Hd & _); [done..|].
  by exists kept.
Qed.

(** A set of entries that nothing left out beats holds the lowest
    scores of a full sort. *)
Lemma lowest_scores_characterised scores kept rest :
  numbers scores →
  descending kept →
  scores ≡ₚ (score <$> kept) ++ rest →
  (∀ a b, a ∈ score <$> kept → b ∈ rest → (num a ≤ num b)%Z) →
  score <$> kept
  = Num <$> reverse (lowest_scores (length kept) (num <$> scores)).
Proof.
  intros Hnum Hd Hp Hle.
  assert (Hnk : numbers (score <$> kept)).
  { unfold numbers in *. rewrite Hp in Hnum.
    by apply Forall_app in Hnum as [? _]. }
  set (vals := num <$> (score <$> kept)).
  set (asc := reverse vals).
  assert (Hasc : StronglySorted Z.le asc).
  { apply Sorted_StronglySorted; [apply _|].
    apply (Sorted_reverse (λ a b, (b ≤ a)%Z)).
    unfold vals. rewrite <-list_fmap_compose.
    apply (Sorted_fmap (num ∘ score)
             (λ p q, (num (score q) ≤ num (score p))%Z)); [done|].
    apply descending_numbers; [|done].
    unfold numbers in Hnk. by rewrite Forall_fmap in Hnk. }
  assert (Hall : StronglySorted Z.le (asc ++ merge_sort Z.le (num <$> rest))).
  { apply StronglySorted_app_2; [|done|].
    - intros a b Ha Hb.
      unfold asc in Ha. rewrite elem_of_reverse in Ha.
      apply list_elem_of_fmap in Ha as (a' & -> & Ha).
      rewrite merge_sort_Permutation in Hb.
      apply list_elem_of_fmap in Hb as (b' & -> & Hb).
      by apply Hle.
    - apply StronglySorted_merge_sort; apply _. }
  assert (Heq : merge_sort Z.le (num <$> scores)
                = asc ++ merge_sort Z.le (num <$> rest)).
  { apply (StronglySorted_unique Z.le); [|done|].
    - apply StronglySorted_merge_sort; apply _.
    - rewrite !merge_sort_Permutation, Hp, fmap_app. unfold asc.
      by rewrite reverse_Permutation. }
  unfold lowest_scores. rewrite Heq.
  rewrite take_app_length'
    by (unfold asc, vals; by rewrite length_reverse, !length_fmap).
  unfold asc. rewrite reverse_involutive. unfold vals.
  by rewrite Num_num.
Qed.

(** C2, as amended.  For a stream of [n >= N >= 1] scores none of which
    is a NaN, and a [qsort] that meets its contract, [get_top_n_scores]
    returns [N] entries with distinct indices, each carrying the score
    the stream has at its index, and their scores are the [N] lowest of
    a full sort of the stream (worst first).  Once the heap is full, an
    entry whose score is not strictly below the worst kept score leaves
    the selection unchanged: an equal-scoring later entry never replaces
    a kept one. *)
Theorem get_top_n_scores_lowest scores n N :
  numbers scores → n = length scores → 1 ≤ N ≤ n →
  ∃ kept,
    get_top_n_scores qsort scores n N = Some (Some <$> kept) ∧
    length kept = N ∧
    NoDup (index <$> kept) ∧
    (∀ p, p ∈ kept → scores !! index p = Some (score p)) ∧
    score <$> kept = Num <$> reverse (lowest_scores N (num <$> scores)) ∧
    (∀ m worst others s,
       N ≤ m < n →
       get_top_n_scores qsort scores m N = Some (Some worst :: others) →
       scores !! m = Some s → flt s (score worst) = false →
       get_top_n_scores qsort scores (S m) N
       = Some (Some worst :: others)).
Proof.
  intros Hnum -> [HN Hn].
  destruct (get_top_n_scores_full scores N (length scores))
    as (kept & rest & _ & Hget & Hlen & Hd & [Hv Hnd] & Hp & Hle);
    [done..|].
  exists kept. split_and!; [done|done|done|..].
  - intros p Hin. by destruct (Hv p Hin).
  - rewrite take_ge in Hp by done. rewrite <-Hlen.
    by apply (lowest_scores_characterised scores kept rest).
  - intros m worst others s [HNm Hm] Hgetm Hs Hws.
    destruct (get_top_n_scores_full scores N m)
      as (keptm & _ & Hloop & Hgetm' & Hlenm & _); [done|lia..|].
    rewrite Hgetm' in Hgetm. injection Hgetm as Hheap.
    unfold get_top_n_scores. rewrite for_loop_S_r, Hloop.
    cbn [mbind option_bind]. rewrite Nat.add_0_l.
    unfold scan_step. rewrite Hs. cbn [mbind option_bind].
    rewrite bool_decide_false by lia. rewrite Hheap.
    cbn [lookup list_lookup mjoin option_join mbind option_bind].
    rewrite Hws.
    cbn [mbind option_bind]. f_equal. apply take_ge.
    rewrite <-Hheap, length_fmap. lia.
Qed.
End selector_correct.

Lemma insert_sorted_perm cmp p l : insert_sorted cmp p l ≡ₚ p :: l.
Proof.
  induction l as [|q l IH]; simpl; [done|].
  destruct (cmp p q <=? 0)%Z; [done|]. by rewrite IH, perm_swap.
Qed.

Lemma insert_sorted_comparator p l :
  Sorted (λ p q, (comparator p q ≤ 0)%Z) l →
  Sorted (λ p q, (comparator p q ≤ 0)%Z) (insert_sorted comparator p l).
Proof.
  induction 1 as [|q l Hl IH Hhd]; simpl; [by repeat constructor|].
  destruct (Z.leb_spec (comparator p q) 0) as [Hle|Hgt].
  - by repeat constructor.
  - constructor; [done|].
    assert (comparator q p ≤ 0)%Z as Hqp
      by (rewrite comparator_antisym; lia).
    destruct Hhd as [|r l' Hqr]; simpl; [by constructor|].
    destruct (comparator p r <=? 0)%Z; by constructor.
Qed.

(** The stable sort meets the contract of [qsort]. *)
Lemma stable_qsort_contract : qsort_contract stable_qsort.
Proof.
  intros l. unfold stable_qsort. split.
  - induction l as [|p l IH]; simpl; [done|].
    by rewrite insert_sorted_perm, IH.
  - induction l as [|p l IH]; simpl; [constructor|].
    by apply insert_sorted_comparator.
Qed.

Lemma get_top_n_scores_lowest_witness :
  ∃ kept,
    get_top_n_scores stable_qsort
      [Num 3; Num 9; Num 1; Num 7; Num 2; Num 8] 6 3
      = Some (Some <$> kept) ∧
    length kept = 3 ∧
    NoDup (index <$> kept) ∧
    (∀ p, p ∈ kept →
       [Num 3; Num 9; Num 1; Num 7; Num 2; Num 8] !! index p
       = Some (score p)) ∧
    score <$> kept
    = Num <$> reverse
        (lowest_scores 3
           (num <$> [Num 3; Num 9; Num 1; Num 7; Num 2; Num 8])) ∧
    (∀ m worst others s,
       3 ≤ m < 6 →
       get_top_n_scores stable_qsort
         [Num 3; Num 9; Num 1; Num 7; Num 2; Num 8] m 3
         = Some (Some worst :: others) →
       [Num 3; Num 9; Num 1; Num 7; Num 2; Num 8] !! m = Some s →
       flt s (score worst) = false →
       get_top_n_scores stable_qsort
         [Num 3; Num 9; Num 1; Num 7; Num 2; Num 8] (S m) 3
       = Some (Some worst :: others)).
Proof.
  apply (get_top_n_scores_lowest stable_qsort stable_qsort_contract
           [Num 3; Num 9; Num 1; Num 7; Num 2; Num 8] 6 3);
    [repeat constructor; discriminate | reflexivity | lia].
Defined.

(** C2, counterexample.  With a [qsort] that keeps equal elements in
    order, the stream 5, 5, 4 with capacity 2 ends with the entries of
    indices 1 and 2: of the two entries of score 5 the later one is kept
    and the earlier one (index 0) is dropped.  A stream of 2 scores with
    capacity 3 does not end with 3 entries.  And on the stream NaN, 1, 2,
    0 with capacity 2 the NaN stays at the front of the heap, where
    nothing is below it: the entries kept are the NaN and 1, and the
    lowest score, 0, is not among them. *)
Lemma get_top_n_scores_counterexample :
  qsort_contract stable_qsort ∧
  get_top_n_scores stable_qsort [Num 5; Num 5; Num 4] 3 2
  = Some [Some {| index := 1; score := Num 5 |};
          Some {| index := 2; score := Num 4 |}] ∧
  ¬ (∀ scores n N kept,
       n = length scores → 1 ≤ N ≤ n →
       get_top_n_scores stable_qsort scores n N = Some (Some <$> kept) →
       ∀ i j s, i < j → scores !! i = Some s → scores !! j = Some s →
                j ∈ index <$> kept → i ∈ index <$> kept) ∧
  ¬ (∃ kept, get_top_n_scores stable_qsort [Num 2; Num 1] 2 3
             = Some (Some <$> kept)) ∧
  get_top_n_scores stable_qsort [NaN; Num 1; Num 2; Num 0] 4 2
  = Some [Some {| index := 0; score := NaN |};
          Some {| index := 1; score := Num 1 |}].
Proof.
  split; [apply stable_qsort_contract|]. split; [reflexivity|].
  split; [|split; [|reflexivity]].
  - intros Hties.
    assert (0 ∈ index <$> [{| index := 1; score := Num 5 |};
                           {| index := 2; score := Num 4 |}]) as Hin.
    { apply (Hties [Num 5; Num 5; Num 4] 3 2 _ eq_refl ltac:(lia))
        with (j := 1) (s := Num 5); [reflexivity|lia|done|done|].
      simpl. by left. }
    simpl in Hin.
    by repeat (apply elem_of_cons in Hin as [?|Hin]; [lia|]);
       apply elem_of_nil in Hin.
  - intros [kept Hkept]. vm_compute in Hkept.
    by destruct kept as [|? [|? [|? ?]]].
Qed.

(** C8 at its failing input.  For a stream shorter than the capacity the
    heap is never sorted and its last cells are never written: the output
    for the stream 1, 2 and capacity 3 is ascending, followed by an
    unwritten cell, whatever [qsort] does. *)
Theorem get_top_n_scores_short_stream :
  ∀ qsort,
    get_top_n_scores qsort [Num 1; Num 2] 2 3
    = Some [Some {| index := 0; score := Num 1 |};
            Some {| index := 1; score := Num 2 |}; None] ∧
    ¬ descending [{| index := 0; score := Num 1 |};
                  {| index := 1; score := Num 2 |}].
Proof.
  intros qsort. split; [reflexivity|].
  intros Hd. apply Sorted_inv in Hd as [_ Hhd].
  apply HdRel_inv in Hhd. simpl in Hhd. discriminate.
Qed.

(** ** Index arithmetic of the realignment *)

Section index_arithmetic.
Local Open Scope Z_scope.

Lemma rem_roll_bounds n x r : 0 ≤ x → 0 ≤ r → 0 < n → 0 ≤ Z.rem (x + r) n < n.
Proof.
  intros. rewrite Z.rem_mod_nonneg by lia. apply Z.mod_pos_bound. lia.
Qed.

Lemma rem_roll_inj n x x' r :
  0 ≤ x < n → 0 ≤ x' < n → 0 ≤ r →
  Z.rem (x + r) n = Z.rem (x' + r) n → x = x'.
Proof.
  intros Hx Hx' Hr. rewrite !Z.rem_mod_nonneg by lia. intros Heq.
  pose proof (Z.div_mod (x + r) n ltac:(lia)) as H1.
  pose proof (Z.div_mod (x' + r) n ltac:(lia)) as H2.
  rewrite Heq in H1.
  assert ((x + r) `div` n = (x' + r) `div` n) by nia. lia.
Qed.

Lemma radix_unique n a b a' b' :
  0 ≤ b < n → 0 ≤ b' < n → a * n + b = a' * n + b' → a = a' ∧ b = b'.
Proof. intros. assert (a = a') by nia. subst. lia. Qed.

Lemma cell_bounds nx ny nz x y z :
  0 ≤ x < nx → 0 ≤ y < ny → 0 ≤ z < nz →
  0 ≤ x * ny * nz + y * nz + z < nx * ny * nz.
Proof.
  intros Hx Hy Hz.
  assert (0 ≤ x * ny + y < nx * ny) by nia. nia.
Qed.

Lemma cell_inj ny nz x y z x' y' z' :
  0 ≤ y < ny → 0 ≤ z < nz → 0 ≤ y' < ny → 0 ≤ z' < nz →
  x * ny * nz + y * nz + z = x' * ny * nz + y' * nz + z' →
  x = x' ∧ y = y' ∧ z = z'.
Proof.
  intros Hy Hz Hy' Hz' Heq.
  destruct (radix_unique nz (x * ny + y) z (x' * ny + y') z') as [H1 H2];
    [lia|lia|lia|].
  destruct (radix_unique ny x y x' y') as [H3 H4]; [lia|lia|lia|]. done.
Qed.

Lemma roll_idx_bounds nx ny nz x y z r :
  0 ≤ r → 0 ≤ x < nx → 0 ≤ y < ny → 0 ≤ z < nz →
  0 ≤ roll_idx nx ny nz x y z r < nx * ny * nz.
Proof.
  intros Hr Hx Hy Hz. unfold roll_idx.
  apply cell_bounds; apply rem_roll_bounds; lia.
Qed.

Lemma roll_idx_inj nx ny nz x y z x' y' z' r :
  0 ≤ r → 0 ≤ x < nx → 0 ≤ y < ny → 0 ≤ z < nz →
  0 ≤ x' < nx → 0 ≤ y' < ny → 0 ≤ z' < nz →
  roll_idx nx ny nz x y z r = roll_idx nx ny nz x' y' z' r →
  x = x' ∧ y = y' ∧ z = z'.
Proof.
  intros Hr Hx Hy Hz Hx' Hy' Hz'. unfold roll_idx. intros Heq.
  apply cell_inj in Heq as (H1 & H2 & H3);
    try (apply rem_roll_bounds; lia).
  split_and!; eapply rem_roll_inj; eauto.
Qed.

(** Without a roll the destination is the cell itself. *)
Lemma roll_idx_0 nx ny nz x y z :
  0 ≤ x < nx → 0 ≤ y < ny → 0 ≤ z < nz →
  roll_idx nx ny nz x y z 0 = x * ny * nz + y * nz + z.
Proof.
  intros. unfold roll_idx. rewrite !Z.add_0_r.
  by rewrite !Z.rem_small by lia.
Qed.

(** On a cubic grid a shift and its remainder by the axis length select
    the same cells. *)
Lemma roll_idx_rem n x y z r :
  0 < n → 0 ≤ x → 0 ≤ y → 0 ≤ z → 0 ≤ r →
  roll_idx n n n x y z (Z.rem r n) = roll_idx n n n x y z r.
Proof.
  intros. unfold roll_idx.
  by rewrite !Z.add_rem_idemp_r by nia.
Qed.

(** The additions of [roll_cur_idx]. *)
Lemma int_add_0 a : int_add a 0 = Some a.
Proof.
  unfold int_add. rewrite bool_decide_false by lia. by rewrite Z.add_0_r.
Qed.

Lemma int_add_in_range a b :
  INT_MIN ≤ a + b ≤ INT_MAX → int_add a b = Some (a + b).
Proof. intros. unfold int_add. by rewrite bool_decide_false by lia. Qed.

Lemma int_add_overflow a b :
  0 < b → INT_MAX - b < a → int_add a b = None.
Proof. intros. unfold int_add. by rewrite bool_decide_true by lia. Qed.

Lemma int_add_cases a b : int_add a b = None ∨ int_add a b = Some (a + b).
Proof. unfold int_add. case_bool_decide; auto. Qed.

(** [roll_cur_idx] fails or returns the index of the exact sums. *)
Lemma roll_cur_idx_cases nx ny nz x y z r :
  roll_cur_idx nx ny nz x y z r = None ∨
  roll_cur_idx nx ny nz x y z r = Some (roll_idx nx ny nz x y z r).
Proof.
  unfold roll_cur_idx, roll_idx.
  destruct (int_add_cases x r) as [->| ->]; [by left|].
  destruct (int_add_cases y r) as [->| ->]; [by left|].
  destruct (int_add_cases z r) as [->| ->]; [by left|]. by right.
Qed.

Lemma roll_cur_idx_0 nx ny nz x y z :
  roll_cur_idx nx ny nz x y z 0 = Some (roll_idx nx ny nz x y z 0).
Proof.
  unfold roll_cur_idx, roll_idx. rewrite !int_add_0.
  cbn [mbind option_bind]. by rewrite !Z.add_0_r.
Qed.

Lemma roll_cur_idx_in_range nx ny nz x y z r :
  INT_MIN ≤ x + r ≤ INT_MAX → INT_MIN ≤ y + r ≤ INT_MAX →
  INT_MIN ≤ z + r ≤ INT_MAX →
  roll_cur_idx nx ny nz x y z r = Some (roll_idx nx ny nz x y z r).
Proof.
  intros. unfold roll_cur_idx, roll_idx.
  by rewrite !int_add_in_range by done.
Qed.

(** A roll that fits overflows at no cell of the grid. *)
Lemma roll_cur_idx_fits nx ny nz x y z r :
  0 ≤ r → roll_fits nx ny nz r → 0 ≤ x < nx → 0 ≤ y < ny → 0 ≤ z < nz →
  roll_cur_idx nx ny nz x y z r = Some (roll_idx nx ny nz x y z r).
Proof.
  intros Hr [->|(? & ? & ?)] Hx Hy Hz; [apply roll_cur_idx_0|].
  apply roll_cur_idx_in_range; unfold INT_MIN, INT_MAX; lia.
Qed.

(** A positive roll overflows at a coordinate above [INT_MAX - r]. *)
Lemma roll_cur_idx_overflow nx ny nz x y z r :
  0 < r → INT_MAX - r < x ∨ INT_MAX - r < y ∨ INT_MAX - r < z →
  roll_cur_idx nx ny nz x y z r = None.
Proof.
  intros Hr Hover. unfold roll_cur_idx.
  destruct (int_add_cases x r) as [->|Hx]; [done|].
  destruct (int_add_cases y r) as [->|Hy]; [by rewrite Hx|].
  destruct (int_add_cases z r) as [->|Hz]; [by rewrite Hx, Hy|].
  destruct Hover as [H|[H|H]].
  - by rewrite int_add_overflow in Hx.
  - by rewrite int_add_overflow in Hy.
  - by rewrite int_add_overflow in Hz.
Qed.

(** With coordinates and a roll that are not negative, the index is
    that of the roll of the specification. *)
Lemma result_cell_rolled nx ny nz i x y z r :
  0 ≤ r → 0 ≤ x → 0 ≤ y → 0 ≤ z → 0 < nx → 0 < ny → 0 < nz →
  result_cell nx ny nz i x y z r = rolled_cell nx ny nz i x y z r.
Proof.
  intros. unfold result_cell, rolled_cell, roll_idx.
  by rewrite !Z.rem_mod_nonneg by lia.
Qed.

(** The coordinates [flip_and_roll] recovers from a flat index. *)
Lemma unflatten_bounds nx ny nz k :
  0 ≤ k < nx * ny * nz → 0 ≤ nx → 0 ≤ ny → 0 ≤ nz →
  0 ≤ k ÷ (ny * nz) < nx ∧ 0 ≤ Z.rem k (ny * nz) ÷ nz < ny ∧
  0 ≤ Z.rem k nz < nz.
Proof.
  intros Hk Hnx Hny Hnz.
  assert (0 < nx ∧ 0 < ny ∧ 0 < nz) as (? & ? & ?) by nia.
  assert (0 < ny * nz) by nia.
  pose proof (Z.mod_pos_bound k (ny * nz) ltac:(done)) as Hm.
  pose proof (Z.mod_pos_bound k nz ltac:(done)).
  rewrite (Z.quot_div_nonneg k) by lia.
  rewrite !Z.rem_mod_nonneg by lia.
  rewrite Z.quot_div_nonneg by lia.
  split_and!; try lia.
  - apply Z.div_pos; lia.
  - apply Z.div_lt_upper_bound; nia.
  - apply Z.div_pos; lia.
  - apply Z.div_lt_upper_bound; [lia|]. nia.
Qed.
End index_arithmetic.

(** ** Fused flip, roll and channel sum *)

Lemma for_down_invariant {St : Type} (P : nat → St → Prop) n body s :
  P 0%nat s →
  (∀ c s, (c < Z.to_nat n)%nat → P c s →
     ∃ s', body (n - 1 - Z.of_nat c)%Z (Z.of_nat c) s = Some s' ∧ P (S c) s') →
  ∃ s', for_down n body s = Some s' ∧ P (Z.to_nat n) s'.
Proof.
  intros H0 Hstep. unfold for_down.
  apply (for_loop_invariant P (Z.to_nat n) 0%nat); [done|].
  intros c s' [_ Hc] HP. apply Hstep; [lia|done].
Qed.

Lemma for_down_rule {St : Type} (P : nat → St → Prop) (Q : St → Prop)
    n body s :
  P 0%nat s →
  (∀ c s, (c < Z.to_nat n)%nat → P c s →
     ∃ s', body (n - 1 - Z.of_nat c)%Z (Z.of_nat c) s = Some s' ∧ P (S c) s') →
  (∀ s, P (Z.to_nat n) s → Q s) →
  ∃ s', for_down n body s = Some s' ∧ Q s'.
Proof.
  intros H0 Hstep HQ.
  destruct (for_down_invariant P n body s H0 Hstep) as (s' & ? & ?). eauto.
Qed.

Lemma for_loop_rule {St : Type} (P : nat → St → Prop) (Q : St → Prop)
    count body s :
  P 0%nat s →
  (∀ i s, (i < count)%nat → P i s →
     ∃ s', body i s = Some s' ∧ P (S i) s') →
  (∀ s, P count s → Q s) →
  ∃ s', for_loop 0 count body s = Some s' ∧ Q s'.
Proof.
  intros H0 Hstep HQ.
  destruct (for_loop_invariant P count 0%nat body s H0) as (s' & ? & ?);
    [|by eauto].
  intros i s' [_ Hi] HP. by apply Hstep.
Qed.

Lemma load_in_bounds {F} (buf : list F) p len k :
  (0 ≤ k < len)%Z → (0 ≤ p)%Z → load buf p len k = buf !! Z.to_nat (p + k).
Proof. intros. unfold load. by rewrite bool_decide_true. Qed.

Lemma store_in_bounds {F} (buf : list F) p len k v :
  (0 ≤ k < len)%Z → (0 ≤ p)%Z → (p + k < Z.of_nat (length buf))%Z →
  store buf p len k v = Some (<[Z.to_nat (p + k) := v]> buf).
Proof. intros. unfold store. by rewrite bool_decide_true. Qed.

Section sum_grids_correct.
Context {F : Type}.
Variable fadd : F → F → F.
Variables (grids result : PyArray F) (O C nx ny nz r : Z).
Hypothesis shapes : sum_grids_shapes grids result O C nx ny nz.
Hypothesis roll_nonneg : (0 ≤ r)%Z.
Hypothesis roll_ok : roll_fits nx ny nz r.
Local Open Scope Z_scope.

Local Abbreviation N := (nx * ny * nz).

Lemma GETPTR2_grids i j : PyArray_GETPTR2 grids i j = (i * C + j) * N.
Proof.
  unfold PyArray_GETPTR2, stride. rewrite (shape_grids _ _ _ _ _ _ _ shapes).
  simpl. lia.
Qed.

Lemma GETPTR1_result i : PyArray_GETPTR1 result i = i * N.
Proof.
  unfold PyArray_GETPTR1, stride. rewrite (shape_result _ _ _ _ _ _ _ shapes).
  simpl. lia.
Qed.

Lemma result_cell_lt i x y z :
  0 ≤ i < O → 0 ≤ x < nx → 0 ≤ y < ny → 0 ≤ z < nz →
  (result_cell nx ny nz i x y z r < length (data result))%nat.
Proof.
  intros Hi Hx Hy Hz.
  pose proof (roll_idx_bounds nx ny nz x y z r roll_nonneg Hx Hy Hz).
  pose proof (size_result _ _ _ _ _ _ _ shapes).
  unfold result_cell. nia.
Qed.

Lemma result_cell_inj i x y z i' x' y' z' :
  0 ≤ i → 0 ≤ x < nx → 0 ≤ y < ny → 0 ≤ z < nz →
  0 ≤ i' → 0 ≤ x' < nx → 0 ≤ y' < ny → 0 ≤ z' < nz →
  result_cell nx ny nz i x y z r = result_cell nx ny nz i' x' y' z' r →
  i = i' ∧ x = x' ∧ y = y' ∧ z = z'.
Proof.
  intros Hi Hx Hy Hz Hi' Hx' Hy' Hz' Heq.
  pose proof (roll_idx_bounds nx ny nz x y z r roll_nonneg Hx Hy Hz).
  pose proof (roll_idx_bounds nx ny nz x' y' z' r roll_nonneg Hx' Hy' Hz').
  unfold result_cell in Heq.
  apply Z2Nat.inj in Heq; [|nia|nia].
  apply radix_unique in Heq as [-> Hroll]; [|lia|lia].
  split; [done|]. by apply (roll_idx_inj nx ny nz x y z x' y' z' r).
Qed.

Lemma grids_cell_lt i j x y z :
  0 ≤ i < O → 0 ≤ j < C → 0 ≤ x < nx → 0 ≤ y < ny → 0 ≤ z < nz →
  (grids_cell C nx ny nz i j x y z < length (data grids))%nat.
Proof.
  intros Hi Hj Hx Hy Hz.
  pose proof (cell_bounds nx ny nz x y z Hx Hy Hz).
  pose proof (size_grids _ _ _ _ _ _ _ shapes).
  unfold grids_cell.
  assert (0 ≤ i * C + j < O * C) by nia. nia.
Qed.

Lemma accumulated_ext K K' buf :
  (∀ i x y z, 0 ≤ i < O → 0 ≤ x < nx → 0 ≤ y < ny → 0 ≤ z < nz →
     K i x y z = K' i x y z) →
  accumulated fadd grids result O C nx ny nz r K buf →
  accumulated fadd grids result O C nx ny nz r K' buf.
Proof.
  intros HK [Hlen Hcells]. split; [done|].
  intros i x y z prior Hi Hx Hy Hz Hprior.
  rewrite <-HK by done. by apply Hcells.
Qed.

(** The body of the innermost loop adds one channel to one cell. *)
Lemma accumulate_cell K buf (i : Z) (j : nat) x y z :
  0 ≤ i < O → (Z.of_nat j < C) → 0 ≤ x < nx → 0 ≤ y < ny → 0 ≤ z < nz →
  K i x y z = j →
  accumulated fadd grids result O C nx ny nz r K buf →
  ∃ buf',
    (updated_idx ← roll_cur_idx nx ny nz x y z r;
     v ← load (data grids) (PyArray_GETPTR2 grids i (Z.of_nat j)) N
           ((nx - 1 - x) * ny * nz + (ny - 1 - y) * nz + (nz - 1 - z));
     old ← load buf (PyArray_GETPTR1 result i) N updated_idx;
     store buf (PyArray_GETPTR1 result i) N updated_idx (fadd old v))
    = Some buf' ∧
    accumulated fadd grids result O C nx ny nz r
      (λ i' x' y' z',
         if decide (i' = i ∧ x' = x ∧ y' = y ∧ z' = z) then S j
         else K i' x' y' z') buf'.
Proof.
  intros Hi Hj Hx Hy Hz HK [Hlen Hcells].
  rewrite roll_cur_idx_fits by done. cbn [mbind option_bind].
  pose proof (roll_idx_bounds nx ny nz x y z r roll_nonneg Hx Hy Hz)
    as Hroll.
  assert (Hsrc : 0 ≤ (nx - 1 - x) * ny * nz + (ny - 1 - y) * nz + (nz - 1 - z) < N)
    by (apply cell_bounds; lia).
  rewrite GETPTR2_grids, GETPTR1_result.
  (* the source cell *)
  destruct (lookup_lt_is_Some_2 (data grids)
              (grids_cell C nx ny nz i (Z.of_nat j)
                 (nx - 1 - x) (ny - 1 - y) (nz - 1 - z))) as [v Hv].
  { apply grids_cell_lt; lia. }
  assert (0 ≤ i * C + Z.of_nat j) by nia.
  assert (0 ≤ (i * C + Z.of_nat j) * N) by nia.
  assert (0 ≤ i * N) by nia.
  rewrite (load_in_bounds (data grids)) by done.
  rewrite (load_in_bounds buf) by done.
  unfold grids_cell in Hv. rewrite Hv. cbn [mbind option_bind].
  (* the destination cell *)
  pose proof (result_cell_lt i x y z Hi Hx Hy Hz) as Hdst.
  destruct (lookup_lt_is_Some_2 _ _ Hdst) as [prior Hprior].
  destruct (Hcells i x y z prior Hi Hx Hy Hz Hprior)
    as (vs & [Hvs1 Hvs2] & Hold).
  pose proof Hold as Hold'. unfold result_cell in Hold'.
  rewrite Hold'. cbn [mbind option_bind].
  rewrite store_in_bounds;
    [|done|done|rewrite Hlen; unfold result_cell in Hdst; lia].
  fold (result_cell nx ny nz i x y z r).
  eexists; split; [done|]. split; [by rewrite length_insert|].
  intros i' x' y' z' prior' Hi' Hx' Hy' Hz' Hprior'.
  destruct (decide (i' = i ∧ x' = x ∧ y' = y ∧ z' = z))
    as [(-> & -> & -> & ->)|Hne].
  - exists (vs ++ [v]). split.
    + split; [rewrite length_app; simpl; lia|].
      intros j' Hj'. destruct (decide (j' < j)%nat) as [Hlt|Hge].
      * rewrite lookup_app_l by lia. apply Hvs2. lia.
      * assert (j' = j) as -> by lia.
        rewrite lookup_app_r by lia.
        replace (j - length vs)%nat with 0%nat by lia. simpl.
        by rewrite <-Hv.
    + rewrite list_lookup_insert_eq by (rewrite Hlen; done).
      rewrite foldl_app. simpl. congruence.
  - destruct (Hcells i' x' y' z' prior' Hi' Hx' Hy' Hz' Hprior')
      as (vs' & Hvs' & Hother).
    exists vs'. split; [done|].
    rewrite list_lookup_insert_ne; [done|].
    intros Heq. apply result_cell_inj in Heq; [|lia..].
    apply Hne. by destruct Heq as (-> & -> & -> & ->).
Qed.

Local Abbreviation acc := (accumulated fadd grids result O C nx ny nz r).

Local Ltac progress_eq :=
  intros; unfold progress in *; repeat case_decide; try done; lia.

Lemma sum_z_correct (i j : nat) x y buf :
  0 ≤ Z.of_nat i < O → Z.of_nat j < C → 0 ≤ x < nx → 0 ≤ y < ny →
  acc (progress (Z.to_nat C) (Z.of_nat i) j x y 0) buf →
  ∃ buf',
    sum_z fadd grids result nx ny nz r i j (nx - 1 - x) x (ny - 1 - y) y buf
      = Some buf' ∧
    acc (progress (Z.to_nat C) (Z.of_nat i) j x (y + 1) 0) buf'.
Proof.
  intros Hi Hj Hx Hy Hacc. unfold sum_z.
  apply (for_down_rule
    (λ c, acc (progress (Z.to_nat C) (Z.of_nat i) j x y (Z.of_nat c))));
    [done| |].
  - intros c s Hc Hs.
    destruct (accumulate_cell
                (progress (Z.to_nat C) (Z.of_nat i) j x y (Z.of_nat c))
                s (Z.of_nat i) j x y (Z.of_nat c))
      as (s' & -> & Hs'); [lia..| |done|].
    + progress_eq.
    + exists s'. split; [done|].
      eapply accumulated_ext; [|apply Hs']. progress_eq.
  - intros s. apply accumulated_ext. progress_eq.
Qed.

Lemma sum_y_correct (i j : nat) x buf :
  0 ≤ Z.of_nat i < O → Z.of_nat j < C → 0 ≤ x < nx →
  acc (progress (Z.to_nat C) (Z.of_nat i) j x 0 0) buf →
  ∃ buf',
    sum_y fadd grids result nx ny nz r i j (nx - 1 - x) x buf = Some buf' ∧
    acc (progress (Z.to_nat C) (Z.of_nat i) j (x + 1) 0 0) buf'.
Proof.
  intros Hi Hj Hx Hacc. unfold sum_y.
  apply (for_down_rule
    (λ c, acc (progress (Z.to_nat C) (Z.of_nat i) j x (Z.of_nat c) 0)));
    [done| |].
  - intros c s Hc Hs.
    destruct (sum_z_correct i j x (Z.of_nat c) s) as (s' & -> & Hs');
      [lia..|done|].
    exists s'. split; [done|].
    eapply accumulated_ext; [|apply Hs']. progress_eq.
  - intros s. apply accumulated_ext. progress_eq.
Qed.

Lemma sum_x_correct (i j : nat) buf :
  0 ≤ Z.of_nat i < O → Z.of_nat j < C →
  acc (progress (Z.to_nat C) (Z.of_nat i) j 0 0 0) buf →
  ∃ buf',
    sum_x fadd grids result nx ny nz r i j buf = Some buf' ∧
    acc (progress (Z.to_nat C) (Z.of_nat i) (S j) 0 0 0) buf'.
Proof.
  intros Hi Hj Hacc. unfold sum_x.
  apply (for_down_rule
    (λ c, acc (progress (Z.to_nat C) (Z.of_nat i) j (Z.of_nat c) 0 0)));
    [done| |].
  - intros c s Hc Hs.
    destruct (sum_y_correct i j (Z.of_nat c) s) as (s' & -> & Hs');
      [lia..|done|].
    exists s'. split; [done|].
    eapply accumulated_ext; [|apply Hs']. progress_eq.
  - intros s. apply accumulated_ext. progress_eq.
Qed.

Lemma sum_channels_correct (i : nat) buf :
  0 ≤ Z.of_nat i < O →
  acc (progress (Z.to_nat C) (Z.of_nat i) 0 0 0 0) buf →
  ∃ buf',
    sum_channels fadd grids result nx ny nz r C i buf = Some buf' ∧
    acc (progress (Z.to_nat C) (Z.of_nat (S i)) 0 0 0 0) buf'.
Proof.
  intros Hi Hacc. unfold sum_channels.
  apply (for_loop_rule
    (λ j, acc (progress (Z.to_nat C) (Z.of_nat i) j 0 0 0))); [done| |].
  - intros j s Hj Hs. apply sum_x_correct; [done|lia|done].
  - intros s. apply accumulated_ext. progress_eq.
Qed.

Lemma sum_orientations_correct :
  ∃ buf',
    sum_orientations fadd grids result nx ny nz r O C (data result)
      = Some buf' ∧
    acc (λ _ _ _ _, Z.to_nat C) buf'.
Proof.
  unfold sum_orientations.
  apply (for_loop_rule
    (λ i, acc (progress (Z.to_nat C) (Z.of_nat i) 0 0 0 0))).
  - split; [done|]. intros i x y z prior Hi Hx Hy Hz Hprior.
    exists []. split; [|done]. split; [progress_eq|].
    intros j Hj. exfalso. revert Hj. progress_eq.
  - intros i s Hi Hs. apply sum_channels_correct; [lia|done].
  - intros s. apply accumulated_ext. progress_eq.
Qed.

Lemma sum_grids_loops :
  sum_grids fadd grids result r
  = (buf ← sum_orientations fadd grids result nx ny nz r O C (data result);
     Some {| type_num := type_num result; dims := dims result;
             data := buf |}).
Proof.
  unfold sum_grids, PyArray_DIMS.
  by rewrite (shape_grids _ _ _ _ _ _ _ shapes).
Qed.

(** What [sum_grids] leaves in [result]: every destination cell holds
    its prior value with the channels of the mirrored source cell added
    in channel order. *)
Lemma sum_grids_spec :
  ∃ out,
    sum_grids fadd grids result r = Some out ∧
    sum_grids_shapes grids out O C nx ny nz ∧
    accumulated fadd grids result O C nx ny nz r (λ _ _ _ _, Z.to_nat C)
      (data out).
Proof.
  destruct sum_orientations_correct as (buf & Hrun & Hacc).
  rewrite sum_grids_loops, Hrun. cbn [mbind option_bind].
  eexists; split; [done|]. split; [|done].
  destruct shapes. destruct Hacc as [Hlen _].
  constructor; simpl; try done. by rewrite Hlen.
Qed.
End sum_grids_correct.

Lemma flipped_channels_unique {F} (grids : PyArray F) C nx ny nz i x y z k
    vs vs' :
  flipped_channels grids C nx ny nz i x y z k vs →
  flipped_channels grids C nx ny nz i x y z k vs' → vs = vs'.
Proof.
  intros [Hlen Hvs] [Hlen' Hvs']. apply list_eq. intros j.
  destruct (decide (j < k)%nat) as [Hj|Hj].
  - by rewrite Hvs, Hvs'.
  - by rewrite !lookup_ge_None_2 by lia.
Qed.

(** C9.  [sum_grids] adds into the buffer it is given.  For arrays of
    shapes [(O, C, nx, ny, nz)] and [(O, nx, ny, nz)] and a roll of at
    least 0 that overflows at no coordinate ([roll_steps + n <= 2^31] for
    each axis length [n]), the cell of [result[i]] at the coordinates
    [((x + r) mod nx, (y + r) mod ny, (z + r) mod nz)] ends with its prior
    value plus, channel after channel, the values of the source cell
    [(nx-1-x, ny-1-y, nz-1-z)] of the channels of orientation [i]; a
    second call on the same [result] adds them a second time. *)
Theorem sum_grids_accumulates {F : Type} (fadd : F → F → F)
    (grids result : PyArray F) (O C nx ny nz r : Z) :
  sum_grids_shapes grids result O C nx ny nz →
  (0 ≤ r)%Z → (r + nx ≤ 2 ^ 31)%Z → (r + ny ≤ 2 ^ 31)%Z →
  (r + nz ≤ 2 ^ 31)%Z →
  ∃ once twice,
    sum_grids fadd grids result r = Some once ∧
    sum_grids fadd grids once r = Some twice ∧
    ∀ i x y z,
      (0 ≤ i < O)%Z → (0 ≤ x < nx)%Z → (0 ≤ y < ny)%Z → (0 ≤ z < nz)%Z →
      ∃ prior vs,
        data result !! rolled_cell nx ny nz i x y z r = Some prior ∧
        flipped_channels grids C nx ny nz i x y z (Z.to_nat C) vs ∧
        data once !! rolled_cell nx ny nz i x y z r
          = Some (foldl fadd prior vs) ∧
        data twice !! rolled_cell nx ny nz i x y z r
          = Some (foldl fadd (foldl fadd prior vs) vs).
Proof.
  intros Hshapes Hr Hfx Hfy Hfz.
  assert (roll_fits nx ny nz r) as Hfits by (by right).
  destruct (sum_grids_spec fadd grids result O C nx ny nz r Hshapes Hr Hfits)
    as (once & Hrun1 & Hshapes1 & _ & Hacc1).
  destruct (sum_grids_spec fadd grids once O C nx ny nz r Hshapes1 Hr Hfits)
    as (twice & Hrun2 & _ & _ & Hacc2).
  exists once, twice. split; [done|]. split; [done|].
  intros i x y z Hi Hx Hy Hz.
  rewrite <-(result_cell_rolled nx ny nz i x y z r) by lia.
  destruct (lookup_lt_is_Some_2 (data result)
              (result_cell nx ny nz i x y z r)) as [prior Hprior].
  { by apply (result_cell_lt grids result O C). }
  destruct (Hacc1 i x y z prior Hi Hx Hy Hz Hprior) as (vs & Hvs & Hv1).
  destruct (Hacc2 i x y z _ Hi Hx Hy Hz Hv1) as (vs' & Hvs' & Hv2).
  rewrite (flipped_channels_unique _ _ _ _ _ _ _ _ _ _ _ _ Hvs' Hvs) in Hv2.
  by exists prior, vs.
Qed.

Lemma sum_grids_example_shapes :
  sum_grids_shapes sum_grids_example_grids sum_grids_example_result
    1 2 1 2 3.
Proof. constructor; simpl; try done; lia. Qed.

Lemma sum_grids_accumulates_witness :
  ∃ once twice,
    sum_grids Z.add sum_grids_example_grids sum_grids_example_result 1
      = Some once ∧
    sum_grids Z.add sum_grids_example_grids once 1 = Some twice ∧
    ∀ i x y z,
      (0 ≤ i < 1)%Z → (0 ≤ x < 1)%Z → (0 ≤ y < 2)%Z → (0 ≤ z < 3)%Z →
      ∃ prior vs,
        data sum_grids_example_result !! rolled_cell 1 2 3 i x y z 1
          = Some prior ∧
        flipped_channels sum_grids_example_grids 2 1 2 3 i x y z
          (Z.to_nat 2) vs ∧
        data once !! rolled_cell 1 2 3 i x y z 1
          = Some (foldl Z.add prior vs) ∧
        data twice !! rolled_cell 1 2 3 i x y z 1
          = Some (foldl Z.add (foldl Z.add prior vs) vs).
Proof.
  apply (sum_grids_accumulates Z.add sum_grids_example_grids
           sum_grids_example_result 1 2 1 2 3 1);
    [apply sum_grids_example_shapes | lia..].
Defined.

(** With an associative addition the channel-order sum is the prior value
    plus the sum of the channels. *)
Lemma foldl_fadd_assoc {F : Type} (fadd : F → F → F) prior v vs :
  (∀ a b c, fadd (fadd a b) c = fadd a (fadd b c)) →
  foldl fadd prior (v :: vs) = fadd prior (foldl fadd v vs).
Proof.
  intros Hassoc. simpl. revert prior v.
  induction vs as [|w vs IH]; intros prior v; simpl; [done|].
  by rewrite Hassoc, IH.
Qed.

(** C5, as amended.  For a single-channel batch, no roll, and a [result]
    buffer that holds zeros on entry, [sum_grids] leaves in every cell
    [(x, y, z)] of every orientation the value of the input cell
    [(nx-1-x, ny-1-y, nz-1-z)]: the reversal of the input field along its
    three axes.  ([fzero + v = v] is the property of the addition that is
    used.) *)
Theorem sum_grids_single_channel_reversal {F : Type} (fadd : F → F → F)
    (fzero : F) (grids result : PyArray F) (O nx ny nz : Z) :
  (∀ v, fadd fzero v = v) →
  sum_grids_shapes grids result O 1 nx ny nz →
  (∀ v, v ∈ data result → v = fzero) →
  ∃ out,
    sum_grids fadd grids result 0 = Some out ∧
    ∀ i x y z,
      (0 ≤ i < O)%Z → (0 ≤ x < nx)%Z → (0 ≤ y < ny)%Z → (0 ≤ z < nz)%Z →
      ∃ v,
        data grids !! grids_cell 1 nx ny nz i 0
                        (nx - 1 - x) (ny - 1 - y) (nz - 1 - z) = Some v ∧
        data out !! Z.to_nat (i * (nx * ny * nz) + (x * ny * nz + y * nz + z))
          = Some v.
Proof.
  intros Hzero Hshapes Hres.
  destruct (sum_grids_spec fadd grids result O 1 nx ny nz 0 Hshapes)
    as (out & Hrun & _ & _ & Hacc); [lia|by left|].
  exists out. split; [done|]. intros i x y z Hi Hx Hy Hz.
  destruct (lookup_lt_is_Some_2 (data result)
              (result_cell nx ny nz i x y z 0)) as [prior Hprior].
  { apply (result_cell_lt grids result O 1); [done|lia|done..]. }
  destruct (Hacc i x y z prior Hi Hx Hy Hz Hprior) as (vs & [Hlen Hvs] & Hv).
  assert (prior = fzero) as ->.
  { apply Hres. by eapply list_elem_of_lookup_2. }
  destruct vs as [|v [|? ?]]; try discriminate Hlen.
  specialize (Hvs 0%nat ltac:(simpl; lia)). simpl in Hvs, Hv.
  exists v. split; [done|].
  unfold result_cell in Hv. rewrite roll_idx_0 in Hv by done.
  by rewrite Hv, Hzero.
Qed.

Lemma single_channel_shapes :
  sum_grids_shapes single_channel_grids zero_result 1 1 1 2 3.
Proof. constructor; simpl; try done; lia. Qed.

Lemma sum_grids_single_channel_reversal_witness :
  ∃ out,
    sum_grids Z.add single_channel_grids zero_result 0 = Some out ∧
    ∀ i x y z,
      (0 ≤ i < 1)%Z → (0 ≤ x < 1)%Z → (0 ≤ y < 2)%Z → (0 ≤ z < 3)%Z →
      ∃ v,
        data single_channel_grids !! grids_cell 1 1 2 3 i 0
                        (1 - 1 - x) (2 - 1 - y) (3 - 1 - z) = Some v ∧
        data out !! Z.to_nat (i * (1 * 2 * 3) + (x * 2 * 3 + y * 3 + z))
          = Some v.
Proof.
  apply (sum_grids_single_channel_reversal Z.add 0%Z single_channel_grids
           zero_result 1 1 2 3).
  - intros v. apply Z.add_0_l.
  - apply single_channel_shapes.
  - intros v Hv. simpl in Hv.
    repeat (apply elem_of_cons in Hv as [->|Hv]; [reflexivity|]).
    by apply elem_of_nil in Hv.
Defined.

(** C5, counterexample.  On a one-cell field of value 5 and a [result]
    buffer that holds 7, [sum_grids] leaves 12, which is not the reversal
    of the field. *)
Lemma sum_grids_reversal_counterexample :
  sum_grids_shapes one_cell_grids one_cell_result 1 1 1 1 1 ∧
  ∃ out,
    sum_grids Z.add one_cell_grids one_cell_result 0 = Some out ∧
    data out = [12]%Z ∧
    data out ≠ reverse (data one_cell_grids).
Proof.
  split; [constructor; simpl; try done; lia|].
  eexists. split; [reflexivity|]. split; [reflexivity|]. discriminate.
Qed.

(** ** Bounds of the indices *)

Lemma for_loop_fails {St : Type} count :
  ∀ start (body : nat → St → option St) s k,
    (start ≤ k < start + count)%nat → (∀ s, body k s = None) →
    for_loop start count body s = None.
Proof.
  induction count as [|count IH]; intros start body s k Hk Hfail; [lia|].
  simpl. destruct (decide (k = start)) as [->|Hne].
  - by rewrite Hfail.
  - destruct (body start s) as [s'|]; simpl; [|done].
    apply (IH _ _ _ k); [lia|done].
Qed.

Lemma for_down_fails {St : Type} n (body : Z → Z → St → option St) s c :
  (0 ≤ c < n)%Z → (∀ s, body (n - 1 - c)%Z c s = None) →
  for_down n body s = None.
Proof.
  intros Hc Hfail. unfold for_down.
  apply (for_loop_fails _ _ _ _ (Z.to_nat c)); [lia|].
  intros s'. rewrite Z2Nat.id by lia. apply Hfail.
Qed.

Section negative_roll.
Local Open Scope Z_scope.

(** A negative roll sends some coordinate of an axis of length at least
    2 to a negative remainder. *)
Lemma rem_roll_negative n r :
  1 ≤ n → r < 0 →
  ∃ x, 0 ≤ x < n ∧ Z.rem (x + r) n ≤ 0 ∧ (2 ≤ n → Z.rem (x + r) n < 0).
Proof.
  intros Hn Hr. destruct (decide (Z.rem r n = 0)) as [Hdiv|Hndiv].
  - destruct (decide (2 ≤ n)) as [H2|H1].
    + exists 1. split; [lia|].
      pose proof (Z.quot_rem' r n) as Hr'. rewrite Hdiv in Hr'.
      pose proof (Z.quot_rem' (1 + r) n) as H1r.
      assert (1 + r ≤ 0) as Hle by nia.
      pose proof (Z.rem_nonpos (1 + r) n ltac:(lia) Hle) as Hnp.
      assert (Z.rem (1 + r) n ≠ 0).
      { intros Hz. rewrite Hz in H1r.
        set (d := (1 + r) ÷ n - r ÷ n).
        assert (n * d = 1) as Hd by (unfold d; lia).
        destruct (decide (d ≤ 0)); nia. }
      lia.
    + exists 0. split; [lia|]. rewrite Z.add_0_l, Hdiv. lia.
  - exists 0. split; [lia|]. rewrite Z.add_0_l.
    pose proof (Z.rem_nonpos r n ltac:(lia) ltac:(lia)). lia.
Qed.

Lemma roll_idx_negative nx ny nz r :
  1 ≤ nx → 1 ≤ ny → 1 ≤ nz → 2 ≤ nx * ny * nz → r < 0 →
  ∃ x y z, 0 ≤ x < nx ∧ 0 ≤ y < ny ∧ 0 ≤ z < nz ∧
           roll_idx nx ny nz x y z r < 0.
Proof.
  intros Hnx Hny Hnz HN Hr.
  destruct (rem_roll_negative nx r Hnx Hr) as (x & Hx & Hx0 & Hx1).
  destruct (rem_roll_negative ny r Hny Hr) as (y & Hy & Hy0 & Hy1).
  destruct (rem_roll_negative nz r Hnz Hr) as (z & Hz & Hz0 & Hz1).
  exists x, y, z. split_and!; try lia. unfold roll_idx.
  assert (2 ≤ nx ∨ 2 ≤ ny ∨ 2 ≤ nz) as [H|[H|H]].
  { destruct (decide (2 ≤ nx)); [by left|].
    destruct (decide (2 ≤ ny)); [by right; left|].
    destruct (decide (2 ≤ nz)); [by right; right|].
    assert (nx = 1) as -> by lia. assert (ny = 1) as -> by lia. lia. }
  - specialize (Hx1 H). nia.
  - specialize (Hy1 H). nia.
  - specialize (Hz1 H). nia.
Qed.

(** Added to a coordinate, a negative roll that is an [int] does not
    overflow. *)
Lemma roll_cur_idx_negative_roll nx ny nz x y z r :
  INT_MIN ≤ r < 0 → 0 ≤ x → 0 ≤ y → 0 ≤ z →
  roll_cur_idx nx ny nz x y z r = Some (roll_idx nx ny nz x y z r).
Proof.
  intros Hr Hx Hy Hz. unfold roll_cur_idx, roll_idx, int_add.
  by rewrite !bool_decide_false by lia.
Qed.

(** The coordinates recovered from a flat index are those of the cell. *)
Lemma unflatten_cell ny nz x y z :
  0 ≤ x → 0 ≤ y < ny → 0 ≤ z < nz →
  let k := x * ny * nz + y * nz + z in
  k ÷ (ny * nz) = x ∧ Z.rem k (ny * nz) ÷ nz = y ∧ Z.rem k nz = z.
Proof.
  intros Hx Hy Hz k.
  assert (0 ≤ y * nz + z < ny * nz) as Hyz by nia.
  assert (0 ≤ k) by nia.
  assert (Hq : k ÷ (ny * nz) = x).
  { symmetry. rewrite Z.quot_div_nonneg by lia.
    apply (Z.div_unique_pos k (ny * nz) x (y * nz + z)); [done|].
    unfold k. lia. }
  assert (Hm : Z.rem k (ny * nz) = y * nz + z).
  { pose proof (Z.quot_rem' k (ny * nz)) as Hk. rewrite Hq in Hk.
    unfold k in *. lia. }
  split; [done|]. rewrite Hm. split.
  - symmetry. rewrite Z.quot_div_nonneg by lia.
    by apply (Z.div_unique_pos _ nz y z); [|lia].
  - symmetry. rewrite Z.rem_mod_nonneg by lia.
    apply (Z.mod_unique_pos _ nz (x * ny + y) z); [done|].
    unfold k. lia.
Qed.
End negative_roll.

Section indices_in_bounds.
Context {F : Type}.
Variable fadd : F → F → F.
Variables (grids result : PyArray F) (O C nx ny nz : Z).
Hypothesis shapes : sum_grids_shapes grids result O C nx ny nz.
Local Open Scope Z_scope.

Local Abbreviation N := (nx * ny * nz).

Lemma GETPTR1_grids i : PyArray_GETPTR1 grids i = i * C * N.
Proof.
  unfold PyArray_GETPTR1, stride. rewrite (shape_grids _ _ _ _ _ _ _ shapes).
  simpl. lia.
Qed.

Lemma flip_and_roll_loops r :
  flip_and_roll grids r
  = (buf ← roll_orientations grids nx ny nz r O C (data grids);
     Some {| type_num := type_num grids; dims := dims grids;
             data := buf |}).
Proof.
  unfold flip_and_roll, PyArray_DIMS.
  by rewrite (shape_grids _ _ _ _ _ _ _ shapes).
Qed.

Lemma roll_cells_runs r (i j : nat) buf :
  0 ≤ r → roll_fits nx ny nz r → Z.of_nat i < O → Z.of_nat j < C →
  length buf = length (data grids) →
  ∃ buf', roll_cells grids nx ny nz r i j buf = Some buf' ∧
          length buf' = length (data grids).
Proof.
  intros Hr Hfits Hi Hj Hlen. unfold roll_cells.
  apply (for_loop_rule (λ _ buf, length buf = length (data grids)));
    [done| |done].
  intros k s Hk Hs. cbv zeta.
  destruct shapes as [_ _ (HO & HC & Hnx & Hny & Hnz) Hsize _].
  destruct (unflatten_bounds nx ny nz (Z.of_nat k)) as (Hx & Hy & Hz);
    [lia..|].
  rewrite roll_cur_idx_fits by done. cbn [mbind option_bind].
  pose proof (roll_idx_bounds nx ny nz _ _ _ r Hr Hx Hy Hz) as Hroll.
  rewrite GETPTR1_grids, (GETPTR2_grids grids result O C nx ny nz shapes).
  assert (0 ≤ Z.of_nat i * C * N) by nia.
  assert (0 ≤ Z.of_nat i * C + Z.of_nat j < O * C) by nia.
  assert (0 ≤ (Z.of_nat i * C + Z.of_nat j) * N) by nia.
  rewrite load_in_bounds by done.
  destruct (lookup_lt_is_Some_2 s
    (Z.to_nat (Z.of_nat i * C * N +
               roll_idx nx ny nz (Z.of_nat k ÷ (ny * nz))
                 (Z.rem (Z.of_nat k) (ny * nz) ÷ nz)
                 (Z.rem (Z.of_nat k) nz) r))) as [v ->]; [nia|].
  cbn [mbind option_bind].
  rewrite store_in_bounds; [|lia|done|nia].
  eexists; split; [done|]. by rewrite length_insert.
Qed.

Lemma flip_and_roll_runs r :
  0 ≤ r → roll_fits nx ny nz r → is_Some (flip_and_roll grids r).
Proof.
  intros Hr Hfits. rewrite flip_and_roll_loops.
  destruct (for_loop_rule
    (λ (_ : nat) buf, length buf = length (data grids))
    (λ buf : list F, length buf = length (data grids))
    (Z.to_nat O) (λ i, roll_channels grids nx ny nz r C i) (data grids))
    as (buf & Hrun & _); [done| |done|].
  - intros i s Hi Hs. unfold roll_channels.
    apply (for_loop_rule (λ _ buf, length buf = length (data grids)));
      [done| |done].
    intros j s' Hj Hs'. apply roll_cells_runs; [done|done|lia|lia|done].
  - unfold roll_orientations. by rewrite Hrun.
Qed.

Lemma sum_grids_negative_roll r :
  r < 0 → 1 ≤ O → 1 ≤ C → 1 ≤ nx → 1 ≤ ny → 1 ≤ nz → 2 ≤ N →
  sum_grids fadd grids result r = None.
Proof.
  intros Hr HO HC Hnx Hny Hnz HN.
  destruct (roll_idx_negative nx ny nz r)
    as (x & y & z & Hx & Hy & Hz & Hneg); [done..|].
  rewrite (sum_grids_loops fadd grids result O C nx ny nz r shapes).
  assert (sum_orientations fadd grids result nx ny nz r O C (data result)
          = None) as ->; [|done].
  apply (for_loop_fails _ _ _ _ 0%nat); [lia|]. intros s1.
  apply (for_loop_fails _ _ _ _ 0%nat); [lia|]. intros s2.
  apply (for_down_fails _ _ _ x); [done|]. intros s3.
  apply (for_down_fails _ _ _ y); [done|]. intros s4.
  apply (for_down_fails _ _ _ z); [done|]. intros s5.
  destruct (roll_cur_idx_cases nx ny nz x y z r) as [->| ->]; [done|].
  cbn [mbind option_bind].
  destruct (load (data grids) _ _ _); cbn [mbind option_bind]; [|done].
  unfold load. by rewrite bool_decide_false by lia.
Qed.

Lemma flip_and_roll_negative_roll r :
  r < 0 → 1 ≤ O → 1 ≤ C → 1 ≤ nx → 1 ≤ ny → 1 ≤ nz → 2 ≤ N →
  flip_and_roll grids r = None.
Proof.
  intros Hr HO HC Hnx Hny Hnz HN.
  destruct (roll_idx_negative nx ny nz r)
    as (x & y & z & Hx & Hy & Hz & Hneg); [done..|].
  rewrite flip_and_roll_loops.
  assert (roll_orientations grids nx ny nz r O C (data grids) = None)
    as ->; [|done].
  pose proof (cell_bounds nx ny nz x y z Hx Hy Hz) as Hk.
  apply (for_loop_fails _ _ _ _ 0%nat); [lia|]. intros s1.
  apply (for_loop_fails _ _ _ _ 0%nat); [lia|]. intros s2.
  apply (for_loop_fails _ _ _ _ (Z.to_nat (x * ny * nz + y * nz + z)));
    [lia|]. intros s3. cbv zeta.
  rewrite Z2Nat.id by lia.
  destruct (unflatten_cell ny nz x y z) as (-> & -> & ->); [lia..|].
  destruct (roll_cur_idx_cases nx ny nz x y z r) as [->| ->]; [done|].
  cbn [mbind option_bind].
  unfold load. by rewrite bool_decide_false by lia.
Qed.
End indices_in_bounds.

(** C10, as amended.  For arrays of shapes [(O, C, nx, ny, nz)] and
    [(O, nx, ny, nz)] and a [roll_steps] of at least 0 that overflows at
    no coordinate ([roll_steps + n <= 2^31] for each axis length [n]),
    the source index and the destination index that [sum_grids] computes
    for a grid coordinate, and the source index that [flip_and_roll]
    computes for a flat index, are computed without overflow and lie in
    [0, nx*ny*nz), and neither function ever takes the out-of-bounds
    branch of a guarded access.  The lower bound is needed: for every
    negative [int] [roll_steps], on a grid of more than one cell, the
    truncating [%] sends some coordinate to a negative index, and both
    functions take that branch. *)
Theorem roll_indices_in_bounds {F : Type} (fadd : F → F → F)
    (grids result : PyArray F) (O C nx ny nz roll_steps : Z) :
  sum_grids_shapes grids result O C nx ny nz →
  (0 ≤ roll_steps)%Z → (roll_steps + nx ≤ 2 ^ 31)%Z →
  (roll_steps + ny ≤ 2 ^ 31)%Z → (roll_steps + nz ≤ 2 ^ 31)%Z →
  (∀ x y z, (0 ≤ x < nx)%Z → (0 ≤ y < ny)%Z → (0 ≤ z < nz)%Z →
     (0 ≤ x * ny * nz + y * nz + z < nx * ny * nz)%Z ∧
     ∃ d, roll_cur_idx nx ny nz x y z roll_steps = Some d ∧
          (0 ≤ d < nx * ny * nz)%Z) ∧
  (∀ k, (0 ≤ k < nx * ny * nz)%Z →
     ∃ d, roll_cur_idx nx ny nz (k ÷ (ny * nz)) (Z.rem k (ny * nz) ÷ nz)
            (Z.rem k nz) roll_steps = Some d ∧
          (0 ≤ d < nx * ny * nz)%Z) ∧
  is_Some (sum_grids fadd grids result roll_steps) ∧
  is_Some (flip_and_roll grids roll_steps) ∧
  (∀ r, (INT_MIN ≤ r < 0)%Z → (1 ≤ O)%Z → (1 ≤ C)%Z →
     (1 ≤ nx)%Z → (1 ≤ ny)%Z → (1 ≤ nz)%Z → (2 ≤ nx * ny * nz)%Z →
     (∃ x y z d, (0 ≤ x < nx)%Z ∧ (0 ≤ y < ny)%Z ∧ (0 ≤ z < nz)%Z ∧
                 roll_cur_idx nx ny nz x y z r = Some d ∧ (d < 0)%Z) ∧
     sum_grids fadd grids result r = None ∧
     flip_and_roll grids r = None).
Proof.
  intros Hshapes Hr Hfx Hfy Hfz.
  assert (roll_fits nx ny nz roll_steps) as Hfits by (by right).
  split_and!.
  - intros x y z Hx Hy Hz. split; [by apply cell_bounds|].
    eexists. split; [by apply roll_cur_idx_fits|].
    by apply roll_idx_bounds.
  - intros k Hk. destruct Hshapes as [_ _ (_ & _ & ? & ? & ?) _ _].
    destruct (unflatten_bounds nx ny nz k) as (? & ? & ?); [done..|].
    eexists. split; [by apply roll_cur_idx_fits|].
    by apply roll_idx_bounds.
  - destruct (sum_grids_spec fadd grids result O C nx ny nz roll_steps)
      as (out & -> & _); done.
  - by apply (flip_and_roll_runs grids result O C nx ny nz).
  - intros r Hneg HO HC Hnx Hny Hnz HN. split_and!.
    + destruct (roll_idx_negative nx ny nz r)
        as (x & y & z & Hx & Hy & Hz & Hd); [done..|lia|].
      exists x, y, z, (roll_idx nx ny nz x y z r).
      split_and!; try lia.
      apply roll_cur_idx_negative_roll; lia.
    + apply (sum_grids_negative_roll fadd grids result O C nx ny nz);
        [done|lia|done..].
    + apply (flip_and_roll_negative_roll grids result O C nx ny nz);
        [done|lia|done..].
Qed.

Lemma roll_indices_in_bounds_witness :
  (∀ x y z, (0 ≤ x < 1)%Z → (0 ≤ y < 2)%Z → (0 ≤ z < 3)%Z →
     (0 ≤ x * 2 * 3 + y * 3 + z < 1 * 2 * 3)%Z ∧
     ∃ d, roll_cur_idx 1 2 3 x y z 1 = Some d ∧ (0 ≤ d < 1 * 2 * 3)%Z) ∧
  is_Some (sum_grids Z.add sum_grids_example_grids
             sum_grids_example_result 1) ∧
  is_Some (flip_and_roll sum_grids_example_grids 1).
Proof.
  destruct (roll_indices_in_bounds Z.add sum_grids_example_grids
              sum_grids_example_result 1 2 1 2 3 1)
    as (H1 & _ & H3 & H4 & _);
    [apply sum_grids_example_shapes | lia | lia | lia | lia | done].
Defined.

(** C10, counterexample.  [roll_steps >= 0] is not enough: on a grid
    of shape [(1, 1, 3)] and with [roll_steps = 2147483647] the addition
    [new_z + roll_steps] overflows at [new_z = 1], and neither function
    returns. *)
Lemma roll_indices_overflow_counterexample :
  sum_grids_shapes three_cell_grids three_cell_result 1 1 1 1 3 ∧
  (0 ≤ 2147483647)%Z ∧
  roll_cur_idx 1 1 3 0 0 1 2147483647 = None ∧
  sum_grids Z.add three_cell_grids three_cell_result 2147483647 = None ∧
  flip_and_roll three_cell_grids 2147483647 = None.
Proof.
  split; [constructor; simpl; try done; lia|].
  split; [lia|]. split_and!; reflexivity.
Qed.

(** ** The correlation kernel *)

Section blocks.
Context {F : Type}.
Implicit Types buf vs : list F.

Lemma stored_lookup_other buf vs (p m : nat) :
  (p + length vs ≤ length buf)%nat →
  (m < p ∨ p + length vs ≤ m)%nat →
  (take p buf ++ vs ++ drop (p + length vs) buf) !! m = buf !! m.
Proof.
  intros Hp [Hm|Hm].
  - rewrite lookup_app_l by (rewrite length_take; lia).
    by rewrite lookup_take_lt.
  - rewrite lookup_app_r by (rewrite length_take; lia).
    rewrite length_take, lookup_app_r by lia.
    rewrite lookup_drop. f_equal. lia.
Qed.

Lemma stored_block_same buf vs (p : nat) :
  (p + length vs ≤ length buf)%nat →
  take (length vs) (drop p (take p buf ++ vs ++ drop (p + length vs) buf))
  = vs.
Proof.
  intros Hp. rewrite drop_app_length' by (rewrite length_take; lia).
  apply take_app_length.
Qed.

Lemma stored_block_other buf vs (p q : nat) :
  (p + length vs ≤ length buf)%nat →
  (q + length vs ≤ p ∨ p + length vs ≤ q)%nat →
  take (length vs) (drop q (take p buf ++ vs ++ drop (p + length vs) buf))
  = take (length vs) (drop q buf).
Proof.
  intros Hp Hq. apply list_eq. intros m.
  destruct (decide (m < length vs)%nat) as [Hm|Hm].
  - rewrite !lookup_take_lt, !lookup_drop by done.
    apply stored_lookup_other; [done|lia].
  - by rewrite !lookup_take_ge by lia.
Qed.

Lemma load_block_in_bounds buf (p len : Z) :
  (0 ≤ p)%Z → (0 ≤ len)%Z → (p + len ≤ Z.of_nat (length buf))%Z →
  load_block buf p len = Some (block buf p len).
Proof. intros. unfold load_block. by rewrite bool_decide_true. Qed.

Lemma length_block buf (p len : Z) :
  (0 ≤ p)%Z → (0 ≤ len)%Z → (p + len ≤ Z.of_nat (length buf))%Z →
  Z.of_nat (length (block buf p len)) = len.
Proof.
  intros. unfold block. rewrite length_take, length_drop. lia.
Qed.
End blocks.

Section conj_multiply_correct.
Context {F C : Type}.
Variable num : Numerics F C.

(** The loop multiplies every frequency of the half-spectrum. *)
Lemma conj_multiply_spec (n : nat) (fft_r : list C) (scale : F)
    (cur_fft_l : list C) :
  length fft_r = n → length cur_fft_l = n →
  conj_multiply num (Z.of_nat n) fft_r scale cur_fft_l
  = Some (zip_with (conj_product num scale) fft_r cur_fft_l).
Proof.
  intros Hr Hl. unfold conj_multiply. rewrite Nat2Z.id.
  destruct (for_loop_rule
    (λ k s, length s = n ∧
            ∀ m, s !! m =
                 if decide (m < k)%nat
                 then zip_with (conj_product num scale) fft_r cur_fft_l !! m
                 else cur_fft_l !! m)
    (λ s, s = zip_with (conj_product num scale) fft_r cur_fft_l) n
    (λ k cur,
       r ← fft_r !! k; l ← cur !! k;
       Some (<[k := cscale num (cmul num (conjf num r) l) scale]> cur))
    cur_fft_l) as (s & -> & ->); [| | |done].
  - split; [done|]. intros m. by rewrite decide_False by lia.
  - intros k s Hk [Hlen Hs].
    destruct (lookup_lt_is_Some_2 fft_r k) as [t Ht]; [lia|].
    destruct (lookup_lt_is_Some_2 cur_fft_l k) as [c Hc]; [lia|].
    rewrite Ht. cbn [mbind option_bind].
    rewrite Hs, decide_False, Hc by lia. cbn [mbind option_bind].
    eexists; split; [done|]. split; [by rewrite length_insert|].
    intros m. destruct (decide (m = k)) as [->|Hne].
    + rewrite list_lookup_insert_eq, decide_True by lia.
      by rewrite lookup_zip_with, Ht, Hc.
    + rewrite list_lookup_insert_ne, Hs by done.
      destruct (decide (m < k)%nat); [by rewrite decide_True by lia|].
      by rewrite decide_False by lia.
  - intros s [Hlen Hs]. apply list_eq. intros m. rewrite Hs.
    destruct (decide (m < n)%nat); [done|].
    rewrite lookup_ge_None_2 by lia.
    by rewrite lookup_ge_None_2 by (rewrite length_zip_with; lia).
Qed.
End conj_multiply_correct.

Section kernel_correct.
Context {F C : Type}.
Variable num : Numerics F C.
Variable fftw : Backend F C.
Variables (recep_grid result : PyArray F) (O Cn nx ny nz : Z).
Hypothesis shapes : kernel_shapes recep_grid result O Cn nx ny nz.
Hypothesis sized : backend_sized fftw.
Local Open Scope Z_scope.

Local Abbreviation N := (nx * ny * nz).
Local Abbreviation Nfft := (nx * ny * (nz ÷ 2 + 1)).
Local Abbreviation inv := (correlated num fftw recep_grid result O Cn nx ny nz).

Lemma GETPTR1_recep i : PyArray_GETPTR1 recep_grid i = i * N.
Proof.
  unfold PyArray_GETPTR1, stride. rewrite (shape_recep _ _ _ _ _ _ _ shapes).
  simpl. lia.
Qed.

Lemma GETPTR2_lig j i : PyArray_GETPTR2 result j i = (j * Cn + i) * N.
Proof.
  unfold PyArray_GETPTR2, stride. rewrite (shape_lig _ _ _ _ _ _ _ shapes).
  simpl. lia.
Qed.

Lemma recep_block_bounds i :
  0 ≤ i < Cn → 0 ≤ i * N ∧ 0 ≤ N ∧ i * N + N ≤ Z.of_nat (length (data recep_grid)).
Proof.
  intros Hi. destruct shapes as [_ _ (? & ? & ? & ? & ?) Hsize _].
  rewrite Hsize. assert (0 ≤ N) by nia. nia.
Qed.

Lemma lig_block_bounds i j :
  0 ≤ i < Cn → 0 ≤ j < O →
  0 ≤ (j * Cn + i) * N ∧ 0 ≤ N ∧
  (j * Cn + i) * N + N ≤ Z.of_nat (length (data result)).
Proof.
  intros Hi Hj. destruct shapes as [_ _ (? & ? & ? & ? & ?) _ Hsize].
  rewrite Hsize. assert (0 ≤ N) by nia.
  assert (0 ≤ j * Cn + i ∧ j * Cn + i + 1 ≤ O * Cn) as [? ?] by nia. nia.
Qed.

Lemma lig_blocks_disjoint i j i' j' :
  0 ≤ i < Cn → 0 ≤ j < O → 0 ≤ i' < Cn → 0 ≤ j' < O →
  ¬ (i' = i ∧ j' = j) →
  (j' * Cn + i') * N + N ≤ (j * Cn + i) * N ∨
  (j * Cn + i) * N + N ≤ (j' * Cn + i') * N.
Proof.
  intros Hi Hj Hi' Hj' Hne.
  destruct shapes as [_ _ (? & ? & ? & ? & ?) _ _].
  assert (0 ≤ N) by nia.
  destruct (decide (j' * Cn + i' < j * Cn + i)) as [Hlt|Hge].
  - left. nia.
  - right. assert (j' * Cn + i' ≠ j * Cn + i).
    { intros Heq. apply Hne.
      destruct (radix_unique Cn j' i' j i); [lia..|]. done. }
    nia.
Qed.

(** One orientation of one channel: forward transform, product, inverse
    transform into the same field. *)
Lemma correlate_orientation_step (i j : nat) lig :
  Z.of_nat i < Cn → Z.of_nat j < O →
  inv (Z.of_nat i) (Z.of_nat j) lig →
  ∃ lig',
    (cur_lig ← load_block lig
                 (PyArray_GETPTR2 result (Z.of_nat j) (Z.of_nat i)) N;
     cur_fft_l ← conj_multiply num Nfft
                   (fftwf_execute_dft_r2c fftw nx ny nz
                      (block (data recep_grid) (Z.of_nat i * N) N))
                   (float_recip num N)
                   (fftwf_execute_dft_r2c fftw nx ny nz cur_lig);
     store_block lig
       (PyArray_GETPTR2 result (Z.of_nat j) (Z.of_nat i)) N
       (fftwf_execute_dft_c2r fftw nx ny nz cur_fft_l)) = Some lig' ∧
    inv (Z.of_nat i) (Z.of_nat (S j)) lig'.
Proof.
  intros Hi Hj [Hlen Hblocks].
  destruct (lig_block_bounds (Z.of_nat i) (Z.of_nat j)) as (Hp & HN & Hend);
    [lia..|].
  destruct (recep_block_bounds (Z.of_nat i)) as (Hrp & _ & Hrend); [lia|].
  destruct (sized nx ny nz) as [Hr2c Hc2r];
    [by destruct shapes as [_ _ (_ & _ & ? & ? & ?) _ _]..|].
  rewrite GETPTR2_lig.
  rewrite load_block_in_bounds by (rewrite ?Hlen; lia).
  cbn [mbind option_bind].
  rewrite (Hblocks (Z.of_nat i) (Z.of_nat j)) by lia.
  rewrite decide_False by lia.
  set (target := block (data recep_grid) (Z.of_nat i * N) N).
  set (cand := block (data result) ((Z.of_nat j * Cn + Z.of_nat i) * N) N).
  assert (Hlt : Z.of_nat (length (fftwf_execute_dft_r2c fftw nx ny nz target))
                = Nfft).
  { apply Hr2c. by apply length_block. }
  assert (Hlc : Z.of_nat (length (fftwf_execute_dft_r2c fftw nx ny nz cand))
                = Nfft).
  { apply Hr2c. by apply length_block. }
  rewrite <-Hlt.
  rewrite conj_multiply_spec by lia. cbn [mbind option_bind].
  set (surface := fftwf_execute_dft_c2r fftw nx ny nz _).
  assert (Hsurf : surface
                  = correlation_surface num fftw recep_grid result
                      Cn nx ny nz (Z.of_nat i) (Z.of_nat j)) by done.
  assert (Hls : Z.of_nat (length surface) = N).
  { apply Hc2r. rewrite length_zip_with. lia. }
  unfold store_block. rewrite bool_decide_true by (rewrite Hlen; lia).
  eexists; split; [done|].
  replace (Z.to_nat ((Z.of_nat j * Cn + Z.of_nat i) * N + N))
    with (Z.to_nat ((Z.of_nat j * Cn + Z.of_nat i) * N) + length surface)%nat
    by lia.
  split.
  { rewrite !length_app, length_take, length_drop. lia. }
  intros i' j' Hi' Hj'. unfold block.
  replace (Z.to_nat N) with (length surface) by lia.
  destruct (decide (i' = Z.of_nat i ∧ j' = Z.of_nat j)) as [[-> ->]|Hne].
  - rewrite stored_block_same by lia.
    by rewrite decide_True by lia.
  - destruct (lig_block_bounds i' j' Hi' Hj') as (Hq & _ & Hqend).
    destruct (lig_blocks_disjoint (Z.of_nat i) (Z.of_nat j) i' j');
      [lia..|done| |].
    + rewrite stored_block_other by lia.
      replace (length surface) with (Z.to_nat N) by lia.
      fold (block lig ((j' * Cn + i') * N) N).
      rewrite Hblocks by done.
      destruct (decide (i' < Z.of_nat i ∨ i' = Z.of_nat i ∧ j' < Z.of_nat j));
        [by rewrite decide_True by lia|by rewrite decide_False by lia].
    + rewrite stored_block_other by lia.
      replace (length surface) with (Z.to_nat N) by lia.
      fold (block lig ((j' * Cn + i') * N) N).
      rewrite Hblocks by done.
      destruct (decide (i' < Z.of_nat i ∨ i' = Z.of_nat i ∧ j' < Z.of_nat j));
        [by rewrite decide_True by lia|by rewrite decide_False by lia].
Qed.

Lemma inv_ext i j i2 j2 lig :
  (∀ i' j', 0 ≤ i' < Cn → 0 ≤ j' < O →
     (i' < i ∨ (i' = i ∧ j' < j)) ↔ (i' < i2 ∨ (i' = i2 ∧ j' < j2))) →
  inv i j lig → inv i2 j2 lig.
Proof.
  intros Hiff [Hlen Hblocks]. split; [done|].
  intros i' j' Hi' Hj'. rewrite Hblocks by done.
  specialize (Hiff i' j' Hi' Hj').
  destruct (decide (i' < i ∨ (i' = i ∧ j' < j)));
    [by rewrite decide_True by tauto|by rewrite decide_False by tauto].
Qed.

Lemma correlate_channels_correct :
  ∃ lig,
    correlate_channels num fftw recep_grid result nx ny nz Cn O
      (data result) = Some lig ∧
    inv Cn 0 lig.
Proof.
  unfold correlate_channels.
  apply (for_loop_rule (λ i, inv (Z.of_nat i) 0)).
  - split; [done|]. intros i' j' Hi' Hj'. by rewrite decide_False by lia.
  - intros i lig Hi Hinv.
    destruct (recep_block_bounds (Z.of_nat i)) as (? & ? & ?); [lia|].
    rewrite GETPTR1_recep, load_block_in_bounds by done.
    cbn [mbind option_bind]. unfold correlate_orientations.
    apply (for_loop_rule (λ j, inv (Z.of_nat i) (Z.of_nat j))); [done| |].
    + intros j lig' Hj Hinv'.
      apply correlate_orientation_step; [lia|lia|done].
    + intros lig'. apply inv_ext. intros i' j' Hi' Hj'. lia.
  - intros lig. apply inv_ext. intros i' j' Hi' Hj'. lia.
Qed.

(** What the loops leave, frequency by frequency. *)
Lemma correlated_pointwise lig :
  inv Cn 0 lig →
  ∀ i j, 0 ≤ i < Cn → 0 ≤ j < O →
    ∃ target cand spectrum,
      load_block (data recep_grid) (i * N) N = Some target ∧
      load_block (data result) ((j * Cn + i) * N) N = Some cand ∧
      conj_multiply num Nfft
        (fftwf_execute_dft_r2c fftw nx ny nz target)
        (float_recip num N)
        (fftwf_execute_dft_r2c fftw nx ny nz cand) = Some spectrum ∧
      Z.of_nat (length spectrum) = Nfft ∧
      (∀ k : nat, Z.of_nat k < Nfft →
         ∃ t c,
           fftwf_execute_dft_r2c fftw nx ny nz target !! k = Some t ∧
           fftwf_execute_dft_r2c fftw nx ny nz cand !! k = Some c ∧
           spectrum !! k = Some (cscale num (cmul num (conjf num t) c)
                            (float_recip num N))) ∧
      load_block lig ((j * Cn + i) * N) N
      = Some (fftwf_execute_dft_c2r fftw nx ny nz spectrum).
Proof.
  intros [Hlen Hblocks] i j Hi Hj.
  destruct (lig_block_bounds i j Hi Hj) as (Hp & HN & Hend).
  destruct (recep_block_bounds i Hi) as (Hrp & _ & Hrend).
  destruct (sized nx ny nz) as [Hr2c Hc2r];
    [by destruct shapes as [_ _ (_ & _ & ? & ? & ?) _ _]..|].
  set (target := block (data recep_grid) (i * N) N).
  set (cand := block (data result) ((j * Cn + i) * N) N).
  assert (Hlt : Z.of_nat (length (fftwf_execute_dft_r2c fftw nx ny nz target))
                = Nfft).
  { apply Hr2c. by apply length_block. }
  assert (Hlc : Z.of_nat (length (fftwf_execute_dft_r2c fftw nx ny nz cand))
                = Nfft).
  { apply Hr2c. by apply length_block. }
  exists target, cand,
    (zip_with (conj_product num (float_recip num N))
       (fftwf_execute_dft_r2c fftw nx ny nz target)
       (fftwf_execute_dft_r2c fftw nx ny nz cand)).
  split_and!.
  - by apply load_block_in_bounds.
  - by apply load_block_in_bounds.
  - rewrite <-Hlt. apply conj_multiply_spec; lia.
  - rewrite length_zip_with. lia.
  - intros k Hk.
    destruct (lookup_lt_is_Some_2
                (fftwf_execute_dft_r2c fftw nx ny nz target) k)
      as [t Ht]; [lia|].
    destruct (lookup_lt_is_Some_2
                (fftwf_execute_dft_r2c fftw nx ny nz cand) k)
      as [c Hc]; [lia|].
    exists t, c. split; [done|]. split; [done|].
    by rewrite lookup_zip_with, Ht, Hc.
  - rewrite load_block_in_bounds by (rewrite ?Hlen; lia).
    rewrite Hblocks by done. by rewrite decide_True by lia.
Qed.
End kernel_correct.

(** ** Plan creation *)

Section planning.
Context {F : Type}.
Implicit Types a : PyArray F.
Local Open Scope Z_scope.

Lemma planned_eta plan a N :
  planned plan a N
  = {| type_num := type_num a; dims := dims a;
       data := data (planned plan a N) |}.
Proof. unfold planned. destruct (plan _); by destruct a. Qed.

Lemma planned_dims plan a N : dims (planned plan a N) = dims a.
Proof. unfold planned. by destruct (plan _). Qed.

Lemma planned_GETPTR1 plan a N i :
  PyArray_GETPTR1 (planned plan a N) i = PyArray_GETPTR1 a i.
Proof. unfold PyArray_GETPTR1, stride. by rewrite planned_dims. Qed.

Lemma planned_GETPTR2 plan a N i j :
  PyArray_GETPTR2 (planned plan a N) i j = PyArray_GETPTR2 a i j.
Proof. unfold PyArray_GETPTR2, stride. by rewrite planned_dims. Qed.

(** Planning on the first field of an array that holds it. *)
Lemma plan_measure_planned plan a N v :
  0 ≤ N ≤ Z.of_nat (length (data a)) →
  plan (block (data a) 0 N) = Some v →
  length v = length (block (data a) 0 N) →
  plan_measure plan (data a) (PyArray_GETPTR1 a 0) N
  = Some (true, data (planned plan a N)) ∧
  length (data (planned plan a N)) = length (data a).
Proof.
  intros HN Hplan Hlen.
  assert (Z.of_nat (length v) = N) as Hv.
  { rewrite Hlen. apply length_block; lia. }
  unfold plan_measure, planned, PyArray_GETPTR1.
  rewrite Z.mul_0_l, Hplan. unfold store_block.
  rewrite bool_decide_true by lia. cbn [mbind option_bind data].
  rewrite Z.add_0_l. split; [done|].
  rewrite length_app, length_drop. lia.
Qed.
End planning.

Section kernel_planned.
Context {F C : Type}.
Variable num : Numerics F C.
Variable fftw : Backend F C.
Variables (recep_grid result : PyArray F) (O Cn nx ny nz : Z).
Local Open Scope Z_scope.
Hypothesis shapes : kernel_shapes recep_grid result O Cn nx ny nz.
Hypothesis positive : 1 ≤ O ∧ 1 ≤ Cn ∧ 1 ≤ nx ∧ 1 ≤ ny ∧ 1 ≤ nz.
Hypothesis sized : backend_sized fftw.
Hypothesis plans : backend_plans fftw.

Local Abbreviation N := (nx * ny * nz).
Local Abbreviation Nfft := (nx * ny * (nz ÷ 2 + 1)).
Local Abbreviation target :=
  (planned (fftwf_plan_dft_r2c_3d fftw nx ny nz) recep_grid N).
Local Abbreviation candidates :=
  (planned (fftwf_plan_dft_c2r_3d fftw nx ny nz) result N).

Lemma planning_runs :
  plan_measure (fftwf_plan_dft_r2c_3d fftw nx ny nz) (data recep_grid)
    (PyArray_GETPTR1 recep_grid 0) N = Some (true, data target) ∧
  plan_measure (fftwf_plan_dft_c2r_3d fftw nx ny nz) (data result)
    (PyArray_GETPTR1 result 0) N = Some (true, data candidates) ∧
  kernel_shapes target candidates O Cn nx ny nz.
Proof.
  destruct positive as (HO & HCn & Hnx & Hny & Hnz).
  destruct shapes as [Hdr Hdl Hnn Hsr Hsl].
  assert (0 < N) by nia.
  assert (N ≤ Cn * N) by nia.
  assert (N ≤ O * Cn * N) by nia.
  destruct (plans nx ny nz (block (data recep_grid) 0 N))
    as [(v & Hv & Hlv) _]; [lia..|].
  destruct (plans nx ny nz (block (data result) 0 N))
    as [_ (w & Hw & Hlw)]; [lia..|].
  destruct (plan_measure_planned (fftwf_plan_dft_r2c_3d fftw nx ny nz)
              recep_grid N v) as [Hpr Hlr];
    [lia|done|done|].
  destruct (plan_measure_planned (fftwf_plan_dft_c2r_3d fftw nx ny nz)
              result N w) as [Hpl Hll];
    [lia|done|done|].
  split_and!; [done|done|].
  constructor; rewrite ?planned_dims; try done; congruence.
Qed.

(** Once the plans exist and the number of threads is positive, the
    kernel is the two loops on the arrays as planning leaves them. *)
Lemma fft_correlate_batch_loops n_threads :
  1 ≤ n_threads →
  fft_correlate_batch num fftw recep_grid result n_threads
  = (lig ← correlate_channels num fftw target candidates nx ny nz Cn O
             (data candidates);
     Some (target,
           {| type_num := type_num result; dims := dims result;
              data := lig |})).
Proof.
  intros Hthreads.
  destruct planning_runs as (Hfwd & Hinv & _).
  destruct positive as (HO & HCn & Hnx & Hny & Hnz).
  assert (Hdims : PyArray_DIMS recep_grid 0 = Some Cn ∧
                  PyArray_DIMS result 0 = Some O ∧
                  PyArray_DIMS recep_grid 1 = Some nx ∧
                  PyArray_DIMS recep_grid 2 = Some ny ∧
                  PyArray_DIMS recep_grid 3 = Some nz).
  { unfold PyArray_DIMS.
    by rewrite (shape_recep _ _ _ _ _ _ _ shapes),
               (shape_lig _ _ _ _ _ _ _ shapes). }
  destruct Hdims as (Hd0 & Hd1 & Hd2 & Hd3 & Hd4).
  unfold fft_correlate_batch. rewrite Hd0, Hd1, Hd2, Hd3, Hd4.
  cbn [mbind option_bind]. cbv zeta.
  rewrite Hfwd. cbn [mbind option_bind]. rewrite Hinv.
  cbn [mbind option_bind].
  assert (0 ≤ nz ÷ 2) by (apply Z.quot_pos; lia).
  assert (0 ≤ Nfft) by nia.
  rewrite bool_decide_false by nia.
  rewrite <-(planned_eta _ recep_grid). unfold correlate_channels.
  f_equal. apply for_loop_ext. intros i lig _.
  rewrite planned_GETPTR1.
  destruct (load_block _ _ _) as [cur_recep|]; [|done].
  cbn [mbind option_bind negb].
  rewrite bool_decide_false by lia. unfold correlate_orientations.
  apply for_loop_ext. intros j lig' _. cbv zeta.
  rewrite planned_GETPTR2.
  destruct (load_block _ _ _) as [cur_lig|]; [|done].
  cbn [mbind option_bind].
  by destruct (conj_multiply _ _ _ _ _).
Qed.

(** C4.  For arrays of shapes [(Cn, nx, ny, nz)] and [(O, Cn, nx, ny,
    nz)] with positive sizes, at least one thread, and a backend that
    plans every such grid and keeps its sizes, [fft_correlate_batch]
    returns, and for every channel [i] and orientation [j] the field it
    leaves is the inverse transform of a half-spectrum of exactly
    [nx*ny*(nz/2+1)] points, produced by the multiplication loop, that
    holds [conj(S_target[k]) * S_cand[k] * scale] at every frequency [k],
    where [S_target] and [S_cand] are the forward transforms of the
    target field [i] and of the candidate field [(j, i)] as the loops
    find them, which is as plan creation leaves them, and [scale] is
    the float [1.0 / (nx*ny*nz)]. *)
Theorem fft_correlate_batch_pointwise n_threads :
  1 ≤ n_threads →
  ∃ out,
    fft_correlate_batch num fftw recep_grid result n_threads
    = Some (target, out) ∧
    ∀ i j, 0 ≤ i < Cn → 0 ≤ j < O →
      ∃ field cand spectrum,
        load_block (data target) (i * N) N = Some field ∧
        load_block (data candidates) ((j * Cn + i) * N) N = Some cand ∧
        conj_multiply num Nfft
          (fftwf_execute_dft_r2c fftw nx ny nz field)
          (float_recip num N)
          (fftwf_execute_dft_r2c fftw nx ny nz cand) = Some spectrum ∧
        Z.of_nat (length spectrum) = Nfft ∧
        (∀ k : nat, Z.of_nat k < Nfft →
           ∃ t c,
             fftwf_execute_dft_r2c fftw nx ny nz field !! k = Some t ∧
             fftwf_execute_dft_r2c fftw nx ny nz cand !! k = Some c ∧
             spectrum !! k = Some (cscale num (cmul num (conjf num t) c)
                              (float_recip num N))) ∧
        load_block (data out) ((j * Cn + i) * N) N
        = Some (fftwf_execute_dft_c2r fftw nx ny nz spectrum).
Proof.
  intros Hthreads.
  destruct planning_runs as (_ & _ & Hshapes).
  destruct (correlate_channels_correct num fftw target candidates
              O Cn nx ny nz Hshapes sized) as (lig & Hrun & Hinv).
  rewrite fft_correlate_batch_loops, Hrun by done.
  cbn [mbind option_bind].
  eexists; split; [done|]. cbn [data].
  by apply (correlated_pointwise num fftw target candidates
              O Cn nx ny nz Hshapes sized).
Qed.
End kernel_planned.

Lemma Z_backend_sized : backend_sized Z_backend.
Proof.
  intros nx ny nz Hnx Hny Hnz. simpl. split; intros l _.
  - rewrite length_resize, Z2Nat.id; [done|].
    assert (0 ≤ nz ÷ 2)%Z by (apply Z.quot_pos; lia). nia.
  - rewrite length_resize, Z2Nat.id; [done|nia].
Qed.

Lemma small_kernel_shapes : kernel_shapes small_recep small_result 1 1 2 2 2.
Proof. constructor; simpl; try done; lia. Qed.

Lemma Z_backend_plans : backend_plans Z_backend.
Proof.
  intros nx ny nz v Hnx Hny Hnz. simpl.
  rewrite bool_decide_true by done. split; by exists v.
Qed.

Lemma fft_correlate_batch_pointwise_witness :
  ∃ out,
    fft_correlate_batch Z_numerics Z_backend small_recep small_result 1
    = Some (planned (fftwf_plan_dft_r2c_3d Z_backend 2 2 2) small_recep
              (2 * 2 * 2), out) ∧
    ∀ i j, (0 ≤ i < 1)%Z → (0 ≤ j < 1)%Z →
      ∃ field cand spectrum,
        load_block
          (data (planned (fftwf_plan_dft_r2c_3d Z_backend 2 2 2)
                   small_recep (2 * 2 * 2)))
          (i * (2 * 2 * 2)) (2 * 2 * 2) = Some field ∧
        load_block
          (data (planned (fftwf_plan_dft_c2r_3d Z_backend 2 2 2)
                   small_result (2 * 2 * 2)))
          ((j * 1 + i) * (2 * 2 * 2)) (2 * 2 * 2) = Some cand ∧
        conj_multiply Z_numerics (2 * 2 * (2 ÷ 2 + 1))
          (fftwf_execute_dft_r2c Z_backend 2 2 2 field)
          (float_recip Z_numerics (2 * 2 * 2))
          (fftwf_execute_dft_r2c Z_backend 2 2 2 cand) = Some spectrum ∧
        Z.of_nat (length spectrum) = (2 * 2 * (2 ÷ 2 + 1))%Z ∧
        (∀ k : nat, (Z.of_nat k < 2 * 2 * (2 ÷ 2 + 1))%Z →
           ∃ t c,
             fftwf_execute_dft_r2c Z_backend 2 2 2 field !! k = Some t ∧
             fftwf_execute_dft_r2c Z_backend 2 2 2 cand !! k = Some c ∧
             spectrum !! k = Some (cscale Z_numerics
                              (cmul Z_numerics (conjf Z_numerics t) c)
                              (float_recip Z_numerics (2 * 2 * 2)))) ∧
        load_block (data out) ((j * 1 + i) * (2 * 2 * 2)) (2 * 2 * 2)
        = Some (fftwf_execute_dft_c2r Z_backend 2 2 2 spectrum).
Proof.
  apply (fft_correlate_batch_pointwise Z_numerics Z_backend
           small_recep small_result 1 1 2 2 2
           small_kernel_shapes ltac:(lia) Z_backend_sized Z_backend_plans
           1%Z); lia.
Defined.

(** ** The Python entry point *)

Section entry_point.
Context {F C : Type}.
Variable num : Numerics F C.
Variable fftw : Backend F C.

(** Arrays that disagree on the number of channels are rejected, and
    the arguments are left as they were. *)
Lemma py_fft_correlate_batch_channel_mismatch
    (recep_grid result : PyArray F) (n_threads n_grids n_grids_result : Z) :
  (- 2 ^ 31 ≤ n_threads < 2 ^ 31)%Z →
  PyArray_NDIM recep_grid = 4%nat → PyArray_TYPE recep_grid = NPY_FLOAT32 →
  PyArray_NDIM result = 5%nat → PyArray_TYPE result = NPY_FLOAT32 →
  PyArray_DIMS recep_grid 0 = Some n_grids →
  PyArray_DIMS result 1 = Some n_grids_result →
  n_grids ≠ n_grids_result →
  ∃ msg,
    py_fft_correlate_batch num fftw
      [PyArrayObject recep_grid; PyArrayObject result;
       PyLongObject n_threads]
    = Some (PyExc_TypeError msg,
            [PyArrayObject recep_grid; PyArrayObject result;
             PyLongObject n_threads]).
Proof.
  intros Hint Hn1 Ht1 Hn2 Ht2 Hd1 Hd2 Hne. unfold py_fft_correlate_batch.
  rewrite bool_decide_false by (intros ?; done).
  rewrite bool_decide_false by (intros [?|?]; congruence).
  rewrite bool_decide_false by (intros [?|?]; congruence).
  rewrite Hd1, Hd2. cbn [mbind option_bind].
  rewrite bool_decide_true by done. by eexists.
Qed.

(** Nothing but the number of dimensions, the element type and the
    number of channels is checked: when these agree, the kernel runs
    whatever the spatial dimensions of the two arrays are. *)
Lemma py_fft_correlate_batch_runs_kernel
    (recep_grid result : PyArray F) (n_threads n_grids : Z) :
  (- 2 ^ 31 ≤ n_threads < 2 ^ 31)%Z →
  PyArray_NDIM recep_grid = 4%nat → PyArray_TYPE recep_grid = NPY_FLOAT32 →
  PyArray_NDIM result = 5%nat → PyArray_TYPE result = NPY_FLOAT32 →
  PyArray_DIMS recep_grid 0 = Some n_grids →
  PyArray_DIMS result 1 = Some n_grids →
  py_fft_correlate_batch num fftw
    [PyArrayObject recep_grid; PyArrayObject result; PyLongObject n_threads]
  = ('(recep_grid', result') ←
       fft_correlate_batch num fftw recep_grid result n_threads;
     Some (Py_None,
           [PyArrayObject recep_grid'; PyArrayObject result';
            PyLongObject n_threads])).
Proof.
  intros Hint Hn1 Ht1 Hn2 Ht2 Hd1 Hd2. unfold py_fft_correlate_batch.
  rewrite bool_decide_false by (intros ?; done).
  rewrite bool_decide_false by (intros [?|?]; congruence).
  rewrite bool_decide_false by (intros [?|?]; congruence).
  rewrite Hd1, Hd2. cbn [mbind option_bind].
  by rewrite bool_decide_false by (intros ?; congruence).
Qed.
End entry_point.

(** C3 at its failing input.  A target of shape [(1, 2, 2, 2)] and a
    candidate array of shape [(1, 1, 4, 4, 4)] agree on the number of
    channels and differ in every spatial dimension.  The call is not
    rejected: the kernel runs, with any backend, on the candidate array,
    and with the backend over [Z] it returns [None] to Python after
    overwriting the first 8 of the 64 candidate values. *)
Theorem py_fft_correlate_batch_spatial_mismatch :
  (∀ (F C : Type) (num : Numerics F C) (fftw : Backend F C)
     (recep_data result_data : list F),
     let n_threads := 1%Z in
     let recep_grid := {| type_num := NPY_FLOAT32; dims := [1; 2; 2; 2]%Z;
                          data := recep_data |} in
     let result := {| type_num := NPY_FLOAT32; dims := [1; 1; 4; 4; 4]%Z;
                      data := result_data |} in
     py_fft_correlate_batch num fftw
       [PyArrayObject recep_grid; PyArrayObject result; PyLongObject n_threads]
     = ('(recep_grid', result') ←
          fft_correlate_batch num fftw recep_grid result n_threads;
        Some (Py_None,
              [PyArrayObject recep_grid'; PyArrayObject result';
               PyLongObject n_threads]))) ∧
  py_fft_correlate_batch Z_numerics Z_backend
    [PyArrayObject small_recep; PyArrayObject large_result; PyLongObject 1%Z]
  = Some (Py_None,
          [PyArrayObject small_recep;
           PyArrayObject
             {| type_num := NPY_FLOAT32; dims := [1; 1; 4; 4; 4]%Z;
                data := [32; 56; 80; 104; 128; 152; 176; 200]%Z
                        ++ replicate 56 3%Z |};
           PyLongObject 1%Z]).
Proof.
  split; [|by vm_compute].
  intros F C num fftw recep_data result_data n_threads recep_grid result.
  by apply (py_fft_correlate_batch_runs_kernel num fftw recep_grid result
              n_threads 1%Z).
Qed.

(** ** Roll in place *)

(** C6 at its failing input.  With two channels of one cell each, holding
    1 and 2, and a shift of 0, [flip_and_roll] leaves 1 in both channels:
    every channel is read from the start of its orientation, which is
    channel 0. *)
Theorem flip_and_roll_zero_two_channels :
  flip_and_roll two_channel_grids 0
  = Some {| type_num := NPY_FLOAT32; dims := [1; 2; 1; 1; 1]%Z;
            data := [1; 1]%Z |} ∧
  flip_and_roll two_channel_grids 0 ≠ Some two_channel_grids.
Proof. split; [reflexivity|discriminate]. Qed.

(** C7 at its failing input.  On one channel of three cells 10, 20, 30,
    rolling by 1 twice gives 30, 20, 30 and rolling by 2 gives 30, 30, 30:
    the roll reads the buffer it is writing, so neither is the field
    30, 10, 20 that a shift of 2 selects, and the two differ. *)
Theorem flip_and_roll_twice_three_cells :
  (r1 ← flip_and_roll three_cell_grids 1; flip_and_roll r1 1)
  = Some {| type_num := NPY_FLOAT32; dims := [1; 1; 1; 1; 3]%Z;
            data := [30; 20; 30]%Z |} ∧
  flip_and_roll three_cell_grids (Z.rem (1 + 1) 3)
  = Some {| type_num := NPY_FLOAT32; dims := [1; 1; 1; 1; 3]%Z;
            data := [30; 30; 30]%Z |} ∧
  (λ k, data three_cell_grids !! Z.to_nat (Z.rem (k + 2) 3)) <$> [0; 1; 2]%Z
  = [Some 30; Some 10; Some 20]%Z.
Proof. split_and!; reflexivity. Qed.

(** * Further properties *)

(** ** Filling and partitioning index arrays *)

Lemma fill_indices_run (indices : list Z) (m : nat) :
  for_loop 0 m (λ i indices,
    store indices 0 (Z.of_nat (length indices)) (Z.of_nat i) (Z.of_nat i))
    indices
  = if decide (m ≤ length indices)
    then Some ((Z.of_nat <$> seq 0 m) ++ drop m indices)
    else None.
Proof.
  induction m as [|m IH].
  - cbn [for_loop]. by rewrite decide_True by lia.
  - rewrite for_loop_S_r, IH, Nat.add_0_l.
    destruct (decide (m ≤ length indices)) as [Hm|Hm];
      [|by rewrite decide_False by lia].
    cbn [mbind option_bind].
    set (s := (Z.of_nat <$> seq 0 m) ++ drop m indices).
    assert (Hlen : length s = length indices).
    { unfold s. rewrite length_app, length_fmap, length_seq, length_drop. lia. }
    unfold store. rewrite Hlen.
    destruct (decide (S m ≤ length indices)) as [HS|HS].
    + rewrite bool_decide_true by lia. f_equal.
      rewrite Z.add_0_l, Nat2Z.id. unfold s.
      rewrite insert_app_r_alt by (rewrite length_fmap, length_seq; lia).
      rewrite length_fmap, length_seq, Nat.sub_diag.
      rewrite seq_S, fmap_app, <-app_assoc. f_equal. simpl.
      destruct (drop m indices) as [|v tl] eqn:Hdrop.
      { apply (f_equal length) in Hdrop. rewrite length_drop in Hdrop.
        simpl in Hdrop. lia. }
      simpl. f_equal.
      replace (S m) with (m + 1)%nat by lia.
      by rewrite <-drop_drop, Hdrop.
    + by rewrite bool_decide_false by lia.
Qed.

(** X1.  [fill_indices] writes [0, 1, ..., n-1] over the first [n] cells
    and leaves the others as they were; it runs past the end of the array
    exactly when [n] exceeds its length.  A non-positive [n] writes
    nothing. *)
Theorem fill_indices_spec (indices : list Z) (n : Z) :
  fill_indices indices n
  = if decide (n ≤ Z.of_nat (length indices))%Z
    then Some ((Z.of_nat <$> seq 0 (Z.to_nat n)) ++
               drop (Z.to_nat n) indices)
    else None.
Proof.
  unfold fill_indices. rewrite fill_indices_run.
  destruct (decide (n ≤ Z.of_nat (length indices))%Z);
    [by rewrite decide_True by lia|by rewrite decide_False by lia].
Qed.

Section negative_values_correct.
Context {F : Type}.
Variable signbit : F → bool.
Local Open Scope Z_scope.

Local Abbreviation negs := (negative_positions signbit).
Local Abbreviation others := (other_positions signbit).

Lemma negative_positions_S arr m a :
  arr !! m = Some a →
  negs arr (S m) = negs arr m ++ (if signbit a then [m] else []) ∧
  others arr (S m) = others arr m ++ (if signbit a then [] else [m]).
Proof.
  intros Ha. unfold negative_positions, other_positions.
  rewrite seq_S, !filter_app. simpl.
  rewrite !filter_cons, !filter_nil.
  unfold negative_at, other_at. rewrite Ha.
  by destruct (signbit a).
Qed.

(** The array after the first [m] iterations. *)
Lemma find_neg_vals_run arr ids (m : nat) :
  for_loop 0 m (λ i st,
    a ← arr !! i;
    ids' ← store st.2 0 (Z.of_nat (length st.2))
             (Z.b2z (signbit a) * st.1) (Z.of_nat i);
    Some (st.1 + Z.b2z (signbit a), ids')) (1, ids)
  = if decide ((m ≤ length arr)%nat ∧
               (m = 0%nat ∨ (length (negs arr m) < length ids)%nat))
    then Some (1 + Z.of_nat (length (negs arr m)),
               match last (others arr m) with
               | Some i => [Z.of_nat i]
               | None => take 1 ids
               end ++ (Z.of_nat <$> negs arr m) ++
               drop (1 + length (negs arr m)) ids)
    else None.
Proof.
  induction m as [|m IH].
  - cbn [for_loop]. rewrite decide_True by (split; [lia|by left]).
    cbn. by rewrite take_drop.
  - rewrite for_loop_S_r, IH, Nat.add_0_l. clear IH.
    destruct (decide ((m ≤ length arr)%nat ∧
                      (m = 0%nat ∨ (length (negs arr m) < length ids)%nat)))
      as [[Hm Hroom]|Hno]; cycle 1.
    { rewrite decide_False; [done|]. intros [HSm Hroom]. apply Hno.
      split; [lia|]. destruct (decide (m = 0%nat)) as [|Hne]; [by left|right].
      destruct Hroom as [|Hroom]; [lia|].
      destruct (lookup_lt_is_Some_2 arr m) as [a Ha]; [lia|].
      destruct (negative_positions_S arr m a Ha) as [Hn _].
      rewrite Hn, length_app in Hroom. lia. }
    cbn [mbind option_bind fst snd].
    destruct (arr !! m) as [a|] eqn:Ha; cycle 1.
    { rewrite decide_False; [done|].
      apply lookup_ge_None_1 in Ha. lia. }
    cbn [mbind option_bind].
    destruct (negative_positions_S arr m a Ha) as [Hn Ho].
    set (c := length (negs arr m)) in *.
    set (slot0 := match last (others arr m) with
                  | Some i => [Z.of_nat i] | None => take 1 ids end).
    set (s := slot0 ++ (Z.of_nat <$> negs arr m) ++ drop (1 + c) ids).
    assert (Hempty : m = 0%nat → negs arr m = [] ∧ others arr m = [])
      by (by intros ->).
    assert (Hslot0 : length ids ≠ 0%nat → length slot0 = 1%nat).
    { intros Hne. unfold slot0. destruct (last (others arr m)); [done|].
      rewrite length_take. lia. }
    assert (Hlen : length s = length ids).
    { unfold s. rewrite !length_app, length_fmap, length_drop. fold c.
      destruct Hroom as [->|Hroom].
      - destruct (Hempty eq_refl) as [Hn0 Ho0]. unfold slot0, c.
        rewrite Hn0, Ho0. simpl. rewrite length_take. lia.
      - rewrite Hslot0 by lia. lia. }
    unfold store. rewrite Hlen, Hn, Ho.
    destruct (signbit a) eqn:Hsign; simpl Z.b2z.
    + (* a negative value goes to cell [1 + c] *)
      rewrite length_app. simpl length. fold c.
      destruct (decide (1 + c < length ids)%nat) as [Hfit|Hfull].
      * rewrite bool_decide_true by lia.
        rewrite decide_True by (split; [by apply lookup_lt_Some in Ha|right; lia]).
        cbn [mbind option_bind]. f_equal.
        rewrite app_nil_r. fold slot0. f_equal; [lia|].
        replace (Z.to_nat (0 + 1 * (1 + Z.of_nat c))) with (1 + c)%nat by lia.
        unfold s.
        rewrite insert_app_r_alt by (rewrite Hslot0; lia).
        rewrite Hslot0 by lia. f_equal.
        rewrite insert_app_r_alt by (rewrite length_fmap; fold c; lia).
        rewrite length_fmap. fold c.
        replace (1 + c - 1 - c)%nat with 0%nat by lia.
        rewrite fmap_app, <-app_assoc. f_equal. simpl.
        destruct (drop (S c) ids) as [|v tl] eqn:Hdrop.
        { apply (f_equal length) in Hdrop. rewrite length_drop in Hdrop.
          simpl in Hdrop. lia. }
        simpl. f_equal.
        replace (S (c + 1)) with (S c + 1)%nat by lia.
        by rewrite <-drop_drop, Hdrop.
      * rewrite bool_decide_false by lia.
        rewrite decide_False; [done|]. intros [_ [?|?]]; lia.
    + (* any other value goes to cell 0 *)
      rewrite !app_nil_r. fold c.
      destruct (decide (length ids = 0%nat)) as [Hnil|Hcell].
      * rewrite bool_decide_false by lia.
        rewrite decide_False; [done|]. intros [_ [?|?]]; lia.
      * rewrite bool_decide_true by lia.
        rewrite decide_True; cycle 1.
        { split; [by apply lookup_lt_Some in Ha|right].
          destruct Hroom as [->|?]; [|done].
          destruct (Hempty eq_refl) as [Hn0 _]. unfold c. rewrite Hn0.
          simpl. lia. }
        cbn [mbind option_bind]. f_equal. f_equal; [lia|].
        rewrite last_snoc. simpl Z.to_nat. unfold s.
        specialize (Hslot0 Hcell).
        destruct slot0 as [|v [|? ?]]; try discriminate Hslot0. done.
Qed.

Lemma negative_positions_all arr (m : nat) :
  Forall (λ a, signbit a = true) arr → (m ≤ length arr)%nat →
  length (negs arr m) = m.
Proof.
  intros Hall. induction m as [|m IH]; intros Hm; [done|].
  destruct (lookup_lt_is_Some_2 arr m) as [a Ha]; [lia|].
  destruct (negative_positions_S arr m a Ha) as [-> _].
  rewrite (proj1 (Forall_lookup _ _) Hall m a Ha).
  rewrite length_app, IH by lia. simpl. lia.
Qed.

Lemma find_neg_vals_total arr n neg_val_ids :
  find_neg_vals signbit arr n neg_val_ids
  = if decide ((Z.to_nat n ≤ length arr)%nat ∧
               (Z.to_nat n = 0%nat ∨
                (length (negs arr (Z.to_nat n)) < length neg_val_ids)%nat))
    then Some (1 + Z.of_nat (length (negs arr (Z.to_nat n))),
               match last (others arr (Z.to_nat n)) with
               | Some i => [Z.of_nat i]
               | None => take 1 neg_val_ids
               end ++ (Z.of_nat <$> negs arr (Z.to_nat n)) ++
               drop (1 + length (negs arr (Z.to_nat n))) neg_val_ids)
    else None.
Proof. apply find_neg_vals_run. Qed.

(** X2.  [find_neg_vals] returns one more than the number of values whose
    sign bit is set.  It leaves their positions, in increasing order, in
    the cells [1, 2, ...] of [neg_val_ids], the position of the last
    other value (if there is one) in cell 0, and the remaining cells as
    they were.  It stays inside [arr] and [neg_val_ids] exactly when [arr]
    has [n] values and, unless [n] is 0, [neg_val_ids] has more cells than
    there are values with the sign bit set. *)
Theorem find_neg_vals_spec arr n neg_val_ids :
  let m := Z.to_nat n in
  find_neg_vals signbit arr n neg_val_ids
  = if decide ((m ≤ length arr)%nat ∧
               (m = 0%nat ∨
                (length (negs arr m) < length neg_val_ids)%nat))
    then Some (1 + Z.of_nat (length (negs arr m)),
               match last (others arr m) with
               | Some i => [Z.of_nat i]
               | None => take 1 neg_val_ids
               end ++ (Z.of_nat <$> negs arr m) ++
               drop (1 + length (negs arr m)) neg_val_ids)
    else None.
Proof. intros m. apply find_neg_vals_total. Qed.

(** X3.  When every one of [n >= 1] values has its sign bit set, an array
    [neg_val_ids] of [n] cells is one cell short: the last position is
    written past its end. *)
Theorem find_neg_vals_all_negative arr neg_val_ids :
  arr ≠ [] → Forall (λ a, signbit a = true) arr →
  length neg_val_ids = length arr →
  find_neg_vals signbit arr (Z.of_nat (length arr)) neg_val_ids = None.
Proof.
  intros Hne Hall Hlen. rewrite find_neg_vals_total, Nat2Z.id.
  rewrite decide_False; [done|]. intros [_ [Hz|Hlt]].
  - by destruct arr.
  - rewrite negative_positions_all in Hlt by done. lia.
Qed.
End negative_values_correct.

Lemma find_neg_vals_all_negative_witness :
  find_neg_vals (λ a, (a <? 0)%Z) [-3; -1]%Z (Z.of_nat (length [-3; -1]%Z))
    [77; 77]%Z = None.
Proof.
  apply (find_neg_vals_all_negative (λ a, (a <? 0)%Z) [-3; -1]%Z [77; 77]%Z).
  - discriminate.
  - repeat constructor.
  - reflexivity.
Defined.

(** ** More on the best-score selector *)

(** X4.  [comparator] on any two entries gives -1, 0 or 1, exchanging
    the arguments negates the result, and the result is negative exactly
    when the first score is above the second: the higher score comes
    first.  A NaN compares as equal to everything.  On scores that are
    numbers the result is 0 exactly for equal scores, whatever the
    indices, and "not after" is transitive through an entry whose score
    is a number; through a NaN it is not: 1 is not after NaN, NaN is not
    after 2, and 1 is after 2. *)
Theorem comparator_consistent p q r :
  (comparator p q = -1 ∨ comparator p q = 0 ∨ comparator p q = 1)%Z ∧
  (comparator q p = - comparator p q)%Z ∧
  ((comparator p q < 0)%Z ↔ flt (score q) (score p) = true) ∧
  (score p = NaN ∨ score q = NaN → comparator p q = 0%Z) ∧
  (score p ≠ NaN → score q ≠ NaN →
   ((comparator p q < 0 ↔ num (score q) < num (score p)) ∧
    (comparator p q = 0 ↔ score p = score q))%Z) ∧
  (score q ≠ NaN →
   (comparator p q ≤ 0 → comparator q r ≤ 0 → comparator p r ≤ 0)%Z) ∧
  (comparator {| index := 0; score := Num 1 |} {| index := 1; score := NaN |}
   = 0%Z ∧
   comparator {| index := 1; score := NaN |} {| index := 2; score := Num 2 |}
   = 0%Z ∧
   comparator {| index := 0; score := Num 1 |} {| index := 2; score := Num 2 |}
   = 1%Z).
Proof.
  unfold comparator; simpl.
  destruct (score p) as [a|], (score q) as [b|], (score r) as [c|]; simpl;
    repeat match goal with
           | |- context [(?x <? ?y)%Z] => destruct (Z.ltb_spec x y)
           end; simpl;
    split_and!; try done; try lia;
    try (intros [?|?]; done);
    try (intros _ _; split; split; (lia || congruence ||
           (intros [= ?]; lia) || (intros ?; f_equal; lia)));
    try (split; (done || lia)).
Qed.

Section selector_edges.
Variable qsort :
  list ScoreIndexPair → (ScoreIndexPair → ScoreIndexPair → Z) →
  list ScoreIndexPair.

(** The heap while the stream is shorter than the capacity: the entries in
    stream order, then unwritten cells. *)
Lemma fill_run scores N (m : nat) :
  m ≤ length scores → m < N →
  for_loop 0 m (scan_step qsort scores N) (replicate N None)
  = Some ((Some <$> imap (λ i s, {| index := i; score := s |})
                         (take m scores)) ++
          replicate (N - m) None).
Proof.
  induction m as [|m IH]; intros Hm HN.
  - cbn [for_loop]. by rewrite take_0, Nat.sub_0_r.
  - rewrite for_loop_S_r, IH, Nat.add_0_l by lia.
    cbn [mbind option_bind].
    destruct (lookup_lt_is_Some_2 scores m) as [s Hs]; [lia|].
    unfold scan_step. rewrite Hs. cbn [mbind option_bind].
    rewrite bool_decide_true, bool_decide_false by lia. f_equal.
    rewrite insert_app_r_alt
      by (rewrite length_fmap, length_imap, length_take; lia).
    rewrite length_fmap, length_imap, length_take.
    replace (m - m `min` length scores) with 0 by lia.
    replace (N - m) with (S (N - S m)) by lia.
    rewrite (take_S_r _ _ _ Hs), imap_app, fmap_app, <-app_assoc.
    simpl. rewrite length_take.
    by replace (m `min` length scores + 0) with m by lia.
Qed.

(** X5.  For a stream shorter than the capacity, [get_top_n_scores] never
    calls [qsort]: it returns the entries of the stream in stream order,
    followed by the cells of the heap that were never written.  An empty
    stream gives unwritten cells only. *)
Theorem get_top_n_scores_short scores n N :
  n = length scores → n < N →
  get_top_n_scores qsort scores n N
  = Some ((Some <$> imap (λ i s, {| index := i; score := s |}) scores) ++
          replicate (N - n) None).
Proof.
  intros -> HN. unfold get_top_n_scores.
  rewrite fill_run by lia. cbn [mbind option_bind].
  rewrite (take_ge scores) by lia. f_equal. apply take_ge.
  rewrite length_app, length_fmap, length_imap, length_replicate. lia.
Qed.

(** X6.  With capacity 0 and at least one score to scan,
    [get_top_n_scores] compares the first score with [heap[0]] of an
    allocation of no cells. *)
Theorem get_top_n_scores_no_capacity scores n :
  1 ≤ n → get_top_n_scores qsort scores n 0 = None.
Proof.
  intros Hn. unfold get_top_n_scores.
  destruct n as [|n]; [lia|]. cbn [for_loop replicate].
  assert (scan_step qsort scores 0 0 [] = None) as ->; [|done].
  unfold scan_step. destruct (scores !! 0); cbn [mbind option_bind]; [|done].
  by rewrite bool_decide_false by lia.
Qed.
End selector_edges.

Lemma get_top_n_scores_short_witness :
  get_top_n_scores stable_qsort [Num 4; Num 2] 2 3
  = Some ((Some <$> imap (λ i s, {| index := i; score := s |}) [Num 4; Num 2]) ++
          replicate (3 - 2) None).
Proof.
  apply (get_top_n_scores_short stable_qsort [Num 4; Num 2] 2 3);
    [reflexivity | lia].
Defined.

Lemma get_top_n_scores_no_capacity_witness :
  get_top_n_scores stable_qsort [Num 4; Num 2] 2 0 = None.
Proof.
  apply (get_top_n_scores_no_capacity stable_qsort [Num 4; Num 2] 2). lia.
Defined.

Section selector_threshold.
Variable qsort :
  list ScoreIndexPair → (ScoreIndexPair → ScoreIndexPair → Z) →
  list ScoreIndexPair.
Hypothesis qsort_ok : qsort_contract qsort.

(** X7.  On a stream of numbers, once the heap is full the worst kept
    score, which is the threshold for admission, never rises: scanning
    one more entry leaves it where it was or lowers it. *)
Theorem get_top_n_scores_threshold scores N m :
  numbers scores → 1 ≤ N → N ≤ m → m < length scores →
  ∃ worst others worst' others',
    get_top_n_scores qsort scores m N = Some (Some worst :: others) ∧
    get_top_n_scores qsort scores (S m) N = Some (Some worst' :: others') ∧
    score worst ≠ NaN ∧ score worst' ≠ NaN ∧
    (num (score worst') ≤ num (score worst))%Z.
Proof.
  intros Hnum HN HNm Hm.
  destruct (get_top_n_scores_full qsort qsort_ok scores N m)
    as (kept & rest & Hloop & Hget & Hlen & Hd & Hv & _); [done|lia..|].
  pose proof (valid_entries_numbers _ _ _ Hnum Hv) as Hnk.
  destruct kept as [|w tl]; [simpl in Hlen; lia|].
  pose proof (Forall_inv Hnk) as Hw. simpl in Hw.
  destruct (lookup_lt_is_Some_2 scores m Hm) as [s Hs].
  pose proof (numbers_lookup _ _ _ Hnum Hs) as Hsn.
  exists w, (Some <$> tl).
  unfold get_top_n_scores at 2. rewrite for_loop_S_r, Hloop, Nat.add_0_l.
  cbn [mbind option_bind]. unfold scan_step. rewrite Hs.
  cbn [mbind option_bind]. rewrite bool_decide_false by lia.
  change (mjoin ((Some <$> w :: tl) !! 0)) with (Some w).
  cbn [mbind option_bind].
  destruct (flt s (score w)) eqn:Hlt.
  - assert (<[0:=Some {| index := m; score := s |}]> (Some <$> w :: tl)
            = Some <$> ({| index := m; score := s |} :: tl)) as -> by done.
    rewrite (qsort_heap_written qsort). cbn [mbind option_bind].
    set (l1 := {| index := m; score := s |} :: tl).
    pose proof (qsort_perm qsort qsort_ok l1) as Hperm.
    destruct (qsort l1 comparator) as [|w' tl'] eqn:Hsorted.
    { symmetry in Hperm. apply Permutation_nil_r in Hperm. discriminate. }
    rewrite flt_num in Hlt by done. apply Z.ltb_lt in Hlt.
    assert (w' ∈ l1) as Hin by (rewrite <-Hperm; by left).
    exists w', (Some <$> tl'). split; [done|]. split.
    + f_equal. apply take_ge.
      pose proof (Permutation_length Hperm) as HL.
      simpl in *. rewrite ?length_fmap. lia.
    + split; [done|].
      apply elem_of_cons in Hin as [->|Hin]; [simpl; split; [done|lia]|].
      split.
      * apply Forall_inv_tail in Hnk. rewrite Forall_forall in Hnk.
        by apply Hnk.
      * apply (descending_head_worst w tl); [done|done|by right].
  - exists w, (Some <$> tl). split; [done|]. split; [|split_and!; [done..|lia]].
    cbn [mbind option_bind]. f_equal. apply take_ge.
    simpl in *. rewrite ?length_fmap. lia.
Qed.
End selector_threshold.

Lemma get_top_n_scores_threshold_witness :
  ∃ worst others worst' others',
    get_top_n_scores stable_qsort
      [Num 3; Num 9; Num 1; Num 7; Num 2; Num 8] 3 3
      = Some (Some worst :: others) ∧
    get_top_n_scores stable_qsort
      [Num 3; Num 9; Num 1; Num 7; Num 2; Num 8] 4 3
      = Some (Some worst' :: others') ∧
    score worst ≠ NaN ∧ score worst' ≠ NaN ∧
    (num (score worst') ≤ num (score worst))%Z.
Proof.
  apply (get_top_n_scores_threshold stable_qsort stable_qsort_contract
           [Num 3; Num 9; Num 1; Num 7; Num 2; Num 8] 3 3);
    [repeat constructor; discriminate | simpl; lia..].
Defined.

(** ** More on the roll *)

Section roll_arithmetic.
Local Open Scope Z_scope.

(** Shifts with the same remainders select the same cells. *)
Lemma roll_idx_congr nx ny nz x y z r r' :
  0 < nx → 0 < ny → 0 < nz → 0 ≤ x → 0 ≤ y → 0 ≤ z → 0 ≤ r → 0 ≤ r' →
  Z.rem r nx = Z.rem r' nx → Z.rem r ny = Z.rem r' ny →
  Z.rem r nz = Z.rem r' nz →
  roll_idx nx ny nz x y z r = roll_idx nx ny nz x y z r'.
Proof.
  intros ???????? Hx Hy Hz. unfold roll_idx.
  rewrite <-(Z.add_rem_idemp_r x r nx), <-(Z.add_rem_idemp_r y r ny),
          <-(Z.add_rem_idemp_r z r nz) by nia.
  rewrite Hx, Hy, Hz.
  by rewrite !Z.add_rem_idemp_r by nia.
Qed.

(** A flat index is the cell of the coordinates recovered from it. *)
Lemma unflatten_flatten ny nz k :
  0 ≤ k → 0 < ny → 0 < nz →
  k ÷ (ny * nz) * ny * nz + Z.rem k (ny * nz) ÷ nz * nz + Z.rem k nz = k.
Proof.
  intros Hk Hny Hnz. assert (0 < ny * nz) by nia.
  pose proof (Z.mod_pos_bound k (ny * nz) ltac:(done)) as Hm.
  rewrite (Z.quot_div_nonneg k) by lia.
  rewrite !Z.rem_mod_nonneg by lia.
  rewrite Z.quot_div_nonneg by lia.
  pose proof (Z.div_mod k (ny * nz) ltac:(lia)) as H1.
  pose proof (Z.div_mod (k `mod` (ny * nz)) nz ltac:(lia)) as H2.
  assert (k `mod` nz = (k `mod` (ny * nz)) `mod` nz) as H3.
  { rewrite H1 at 1.
    replace (ny * nz * k `div` (ny * nz) + k `mod` (ny * nz))
      with (k `mod` (ny * nz) + (k `div` (ny * nz) * ny) * nz) by lia.
    apply Z_mod_plus_full. }
  lia.
Qed.

(** Every flat index is reached by the roll. *)
Lemma roll_idx_preimage nx ny nz r d :
  0 ≤ r → 0 < nx → 0 < ny → 0 < nz → 0 ≤ d < nx * ny * nz →
  ∃ x y z,
    (0 ≤ x < nx ∧ 0 ≤ y < ny ∧ 0 ≤ z < nz) ∧
    roll_idx nx ny nz x y z r = d.
Proof.
  intros Hr Hnx Hny Hnz Hd.
  destruct (unflatten_bounds nx ny nz d) as (Ha & Hb & Hc); [lia..|].
  set (a := d ÷ (ny * nz)) in *. set (b := Z.rem d (ny * nz) ÷ nz) in *.
  set (c := Z.rem d nz) in *.
  assert (Hback : ∀ n v, 0 < n → 0 ≤ v < n →
            0 ≤ (v - r) `mod` n < n ∧ Z.rem ((v - r) `mod` n + r) n = v).
  { intros n v Hn Hv.
    pose proof (Z.mod_pos_bound (v - r) n Hn) as Hm. split; [done|].
    rewrite Z.rem_mod_nonneg by lia.
    rewrite Z.add_mod_idemp_l by lia.
    replace (v - r + r) with v by lia. by apply Z.mod_small. }
  destruct (Hback nx a Hnx Ha) as [Hx Hxr].
  destruct (Hback ny b Hny Hb) as [Hy Hyr].
  destruct (Hback nz c Hnz Hc) as [Hz Hzr].
  exists ((a - r) `mod` nx), ((b - r) `mod` ny), ((c - r) `mod` nz).
  split; [done|].
  unfold roll_idx. rewrite Hxr, Hyr, Hzr.
  apply unflatten_flatten; lia.
Qed.

End roll_arithmetic.


Section roll_periodic.
Context {F : Type}.
Variable fadd : F → F → F.
Local Open Scope Z_scope.

(** X9.  [sum_grids] depends on a [roll_steps] that is not negative and
    overflows at no cell only through its remainders by the three axis
    lengths: two such shifts with the same remainders give the same
    result, whatever the arrays. *)
Theorem sum_grids_roll_periodic (grids result : PyArray F) r r' :
  0 ≤ r → 0 ≤ r' →
  (∀ k n, (2 ≤ k)%nat → PyArray_DIMS grids k = Some n →
     Z.rem r n = Z.rem r' n ∧ r + n ≤ 2 ^ 31 ∧ r' + n ≤ 2 ^ 31) →
  sum_grids fadd grids result r = sum_grids fadd grids result r'.
Proof.
  intros Hr Hr' Hrem. unfold sum_grids.
  destruct (PyArray_DIMS grids 0) as [O|]; [|done].
  destruct (PyArray_DIMS grids 1) as [C|]; [|done].
  destruct (PyArray_DIMS grids 2) as [nx|] eqn:Hnx; [|done].
  destruct (PyArray_DIMS grids 3) as [ny|] eqn:Hny; [|done].
  destruct (PyArray_DIMS grids 4) as [nz|] eqn:Hnz; [|done].
  destruct (Hrem 2%nat nx) as (Hx & ? & ?); [lia|done|].
  destruct (Hrem 3%nat ny) as (Hy & ? & ?); [lia|done|].
  destruct (Hrem 4%nat nz) as (Hz & ? & ?); [lia|done|].
  cbn [mbind option_bind]. f_equal.
  apply for_loop_ext. intros i s1 _.
  apply for_loop_ext. intros j s2 _.
  apply for_down_ext. intros cx s3 Hcx.
  apply for_down_ext. intros cy s4 Hcy.
  apply for_down_ext. intros cz s5 Hcz. cbv zeta.
  rewrite !roll_cur_idx_in_range by (unfold INT_MIN, INT_MAX; lia).
  by rewrite (roll_idx_congr nx ny nz cx cy cz r r') by lia.
Qed.

(** X10.  On an array whose dimensions are not negative,
    [flip_and_roll] depends on a [roll_steps] that is not negative and
    overflows at no cell only through its remainders by the three axis
    lengths: two such shifts with the same remainders give the same
    array.  On a cubic grid a shift can thus be reduced modulo the
    side. *)
Theorem flip_and_roll_periodic (grids : PyArray F) r r' :
  0 ≤ r → 0 ≤ r' → Forall (λ n, 0 ≤ n) (dims grids) →
  (∀ k n, (2 ≤ k)%nat → PyArray_DIMS grids k = Some n →
     Z.rem r n = Z.rem r' n ∧ r + n ≤ 2 ^ 31 ∧ r' + n ≤ 2 ^ 31) →
  flip_and_roll grids r = flip_and_roll grids r'.
Proof.
  intros Hr Hr' Hpos Hrem. unfold flip_and_roll.
  destruct (PyArray_DIMS grids 0) as [O|]; [|done].
  destruct (PyArray_DIMS grids 1) as [C|]; [|done].
  destruct (PyArray_DIMS grids 2) as [nx|] eqn:Hnx; [|done].
  destruct (PyArray_DIMS grids 3) as [ny|] eqn:Hny; [|done].
  destruct (PyArray_DIMS grids 4) as [nz|] eqn:Hnz; [|done].
  assert (0 ≤ nx ∧ 0 ≤ ny ∧ 0 ≤ nz) as (? & ? & ?).
  { rewrite Forall_lookup in Hpos. unfold PyArray_DIMS in *.
    split_and!; eapply Hpos; eauto. }
  destruct (Hrem 2%nat nx) as (Hx & ? & ?); [lia|done|].
  destruct (Hrem 3%nat ny) as (Hy & ? & ?); [lia|done|].
  destruct (Hrem 4%nat nz) as (Hz & ? & ?); [lia|done|].
  cbn [mbind option_bind]. f_equal.
  apply for_loop_ext. intros i s1 _.
  apply for_loop_ext. intros j s2 _.
  apply for_loop_ext. intros k s3 Hk. cbv zeta.
  destruct (unflatten_bounds nx ny nz (Z.of_nat k)) as (? & ? & ?);
    [lia..|].
  rewrite !roll_cur_idx_in_range by (unfold INT_MIN, INT_MAX; lia).
  by rewrite (roll_idx_congr nx ny nz _ _ _ r r') by lia.
Qed.
End roll_periodic.

Lemma sum_grids_roll_periodic_witness :
  sum_grids Z.add sum_grids_example_grids sum_grids_example_result 1
  = sum_grids Z.add sum_grids_example_grids sum_grids_example_result 7.
Proof.
  apply (sum_grids_roll_periodic Z.add sum_grids_example_grids
           sum_grids_example_result 1 7); [lia | lia |].
  intros [|[|[|[|[|k]]]]] n Hk Hn; try lia; inversion Hn;
    (split_and!; [reflexivity | lia..]).
Defined.

Lemma flip_and_roll_periodic_witness :
  flip_and_roll three_cell_grids 1 = flip_and_roll three_cell_grids 4.
Proof.
  apply (flip_and_roll_periodic three_cell_grids 1 4); [lia | lia | |].
  - repeat constructor; lia.
  - intros [|[|[|[|[|k]]]]] n Hk Hn; try lia; inversion Hn;
      (split_and!; [reflexivity | lia..]).
Defined.

(** ** What [flip_and_roll] leaves in the array *)

Lemma channel_bounds O C N i j :
  (0 ≤ i < O → 0 ≤ j < C → 0 ≤ N →
   0 ≤ i * C * N ∧ i * C * N ≤ (i * C + j) * N ∧
   (i * C + j) * N + N ≤ (i + 1) * C * N ∧ (i + 1) * C * N ≤ O * C * N ∧
   (j = 0 → (i * C + j) * N = i * C * N) ∧
   (1 ≤ j → i * C * N + N ≤ (i * C + j) * N))%Z.
Proof.
  intros Hi Hj HN.
  assert (0 ≤ i * C)%Z by nia.
  assert (i * C + j + 1 ≤ (i + 1) * C)%Z by nia.
  assert ((i + 1) * C ≤ O * C)%Z by nia.
  split_and!; nia.
Qed.

Section flip_and_roll_correct.
Context {F : Type}.
Variables (grids : PyArray F) (O C nx ny nz r : Z).
Hypothesis grids_dims : dims grids = [O; C; nx; ny; nz].
Hypothesis dims_nonneg : (0 ≤ O ∧ 0 ≤ C ∧ 0 ≤ nx ∧ 0 ≤ ny ∧ 0 ≤ nz)%Z.
Hypothesis grids_size :
  Z.of_nat (length (data grids)) = (O * C * (nx * ny * nz))%Z.
Hypothesis shift_nonneg : (0 ≤ r)%Z.
Hypothesis shift_fits : roll_fits nx ny nz r.
Local Open Scope Z_scope.

Local Abbreviation N := (nx * ny * nz).
Local Abbreviation rolled k :=
  (roll_idx nx ny nz (k ÷ (ny * nz)) (Z.rem k (ny * nz) ÷ nz)
     (Z.rem k nz) r).

Lemma GETPTR1_channels i : PyArray_GETPTR1 grids i = i * C * N.
Proof. unfold PyArray_GETPTR1, stride. rewrite grids_dims. simpl. lia. Qed.

Lemma GETPTR2_channels i j : PyArray_GETPTR2 grids i j = (i * C + j) * N.
Proof. unfold PyArray_GETPTR2, stride. rewrite grids_dims. simpl. lia. Qed.

Lemma N_nonneg : 0 ≤ N.
Proof. destruct dims_nonneg as (? & ? & ? & ? & ?). nia. Qed.

Lemma rolled_bounds k : 0 ≤ k < N → 0 ≤ rolled k < N.
Proof.
  intros Hk. destruct dims_nonneg as (? & ? & ? & ? & ?).
  destruct (unflatten_bounds nx ny nz k) as (Hx & Hy & Hz); [lia..|].
  by apply roll_idx_bounds.
Qed.

Lemma rolled_0 k : r = 0 → 0 ≤ k < N → rolled k = k.
Proof.
  intros -> Hk. destruct dims_nonneg as (? & ? & ? & ? & ?).
  destruct (unflatten_bounds nx ny nz k) as (Hx & Hy & Hz); [lia..|].
  rewrite roll_idx_0 by done. apply unflatten_flatten; nia.
Qed.

(** One pass of the innermost loop, for any channel: the cells of
    channel [j] are overwritten one by one with what stands at the
    rolled place of channel 0 at that moment. *)
Lemma roll_cells_step (i j k : nat) (buf : list F) :
  Z.of_nat i < O → Z.of_nat j < C → Z.of_nat k < N →
  length buf = length (data grids) →
  ∃ v : F,
    buf !! Z.to_nat (Z.of_nat i * C * N + rolled (Z.of_nat k)) = Some v ∧
       (let k := Z.of_nat k in
        let x := k ÷ (ny * nz) in
        let y := Z.rem k (ny * nz) ÷ nz in
        let z := Z.rem k nz in
        idx ← roll_cur_idx nx ny nz x y z r;
        v ← load buf (PyArray_GETPTR1 grids (Z.of_nat i)) N idx;
        store buf (PyArray_GETPTR2 grids (Z.of_nat i) (Z.of_nat j)) N k v)
       = Some (<[Z.to_nat ((Z.of_nat i * C + Z.of_nat j) * N + Z.of_nat k)
                 := v]> buf).
Proof.
  intros Hi Hj Hk Hlen. cbv zeta.
  pose proof (rolled_bounds (Z.of_nat k) ltac:(lia)) as Hroll.
  destruct (channel_bounds O C N (Z.of_nat i) (Z.of_nat j))
    as (H1 & H2 & H3 & H4 & _); [lia..|].
  destruct dims_nonneg as (? & ? & ? & ? & ?).
  destruct (unflatten_bounds nx ny nz (Z.of_nat k)) as (Hx & Hy & Hz);
    [lia..|].
  rewrite roll_cur_idx_fits by done. cbn [mbind option_bind].
  rewrite GETPTR1_channels, GETPTR2_channels.
  rewrite load_in_bounds by done.
  destruct (lookup_lt_is_Some_2 buf
    (Z.to_nat (Z.of_nat i * C * N + rolled (Z.of_nat k)))) as [v Hv];
    [lia|].
  exists v. split; [done|]. rewrite Hv. cbn [mbind option_bind].
  apply store_in_bounds; lia.
Qed.

Lemma roll_cells_first (i : nat) buf :
  Z.of_nat i < O → 0 < C → length buf = length (data grids) →
  ∃ buf', roll_cells grids nx ny nz r i 0 buf = Some buf' ∧
    length buf' = length (data grids) ∧
    (∀ m : nat, ¬ (Z.of_nat i * C * N ≤ Z.of_nat m < Z.of_nat i * C * N + N) →
       buf' !! m = buf !! m) ∧
    (r = 0 → buf' = buf).
Proof.
  intros Hi HC Hlen. unfold roll_cells.
  apply (for_loop_rule (λ (k : nat) s,
    length s = length (data grids) ∧
    (∀ m : nat,
       ¬ (Z.of_nat i * C * N ≤ Z.of_nat m < Z.of_nat i * C * N + N) →
       s !! m = buf !! m) ∧
    (r = 0 → s = buf))); [done| |done].
  intros k s Hk (Hs & Hout & Hid).
  destruct (roll_cells_step i 0 k s) as (v & Hv & Hstep); [lia..|done|].
  destruct (channel_bounds O C N (Z.of_nat i) 0)
    as (H1 & H2 & H3 & H4 & H5 & _); [lia..|].
  eexists; split; [exact Hstep|]. split_and!.
  - by rewrite length_insert.
  - intros m Hm. rewrite list_lookup_insert_ne by lia. by apply Hout.
  - intros Hr. rewrite <-(Hid Hr). apply list_insert_id.
    rewrite rolled_0 in Hv by lia. rewrite <-Hv. f_equal. lia.
Qed.

Lemma roll_cells_copy (i j : nat) buf :
  Z.of_nat i < O → 1 ≤ Z.of_nat j < C → length buf = length (data grids) →
  ∃ buf', roll_cells grids nx ny nz r i j buf = Some buf' ∧
    length buf' = length (data grids) ∧
    (∀ m : nat,
       ¬ ((Z.of_nat i * C + Z.of_nat j) * N ≤ Z.of_nat m
          < (Z.of_nat i * C + Z.of_nat j) * N + N) →
       buf' !! m = buf !! m) ∧
    (∀ k : nat, Z.of_nat k < N →
       buf' !! Z.to_nat ((Z.of_nat i * C + Z.of_nat j) * N + Z.of_nat k)
       = buf !! Z.to_nat (Z.of_nat i * C * N + rolled (Z.of_nat k))).
Proof.
  intros Hi Hj Hlen. unfold roll_cells.
  apply (for_loop_rule (λ (k : nat) s,
    length s = length (data grids) ∧
    (∀ m : nat,
       ¬ ((Z.of_nat i * C + Z.of_nat j) * N ≤ Z.of_nat m
          < (Z.of_nat i * C + Z.of_nat j) * N + Z.of_nat k) →
       s !! m = buf !! m) ∧
    (∀ k' : nat, (k' < k)%nat →
       s !! Z.to_nat ((Z.of_nat i * C + Z.of_nat j) * N + Z.of_nat k')
       = buf !! Z.to_nat (Z.of_nat i * C * N + rolled (Z.of_nat k'))))).
  - split_and!; [done|done|]. intros k' Hk'. lia.
  - intros k s Hk (Hs & Hout & Hin).
    destruct (roll_cells_step i j k s) as (v & Hv & Hstep); [lia..|done|].
    pose proof (rolled_bounds (Z.of_nat k) ltac:(lia)) as Hroll.
    destruct (channel_bounds O C N (Z.of_nat i) (Z.of_nat j))
      as (H1 & H2 & H3 & H4 & _ & H6); [lia..|].
    eexists; split; [exact Hstep|]. split_and!.
    + by rewrite length_insert.
    + intros m Hm. rewrite list_lookup_insert_ne by lia. apply Hout. lia.
    + intros k' Hk'. destruct (decide (k' = k)) as [->|Hne].
      * rewrite list_lookup_insert_eq by lia. rewrite <-Hv. apply Hout. lia.
      * rewrite list_lookup_insert_ne by lia. apply Hin. lia.
  - intros s (Hs & Hout & Hin). split_and!; [done| |].
    + intros m Hm. apply Hout. lia.
    + intros k Hk. apply Hin. lia.
Qed.

Lemma roll_channels_copy (i : nat) buf :
  Z.of_nat i < O → length buf = length (data grids) →
  ∃ buf', roll_channels grids nx ny nz r C i buf = Some buf' ∧
    length buf' = length (data grids) ∧
    (∀ m : nat,
       ¬ (Z.of_nat i * C * N ≤ Z.of_nat m < (Z.of_nat i + 1) * C * N) →
       buf' !! m = buf !! m) ∧
    (∀ j k : nat, 1 ≤ Z.of_nat j < C → Z.of_nat k < N →
       buf' !! Z.to_nat ((Z.of_nat i * C + Z.of_nat j) * N + Z.of_nat k)
       = buf' !! Z.to_nat (Z.of_nat i * C * N + rolled (Z.of_nat k))) ∧
    (r = 0 → ∀ k : nat, Z.of_nat k < N →
       buf' !! Z.to_nat (Z.of_nat i * C * N + Z.of_nat k)
       = buf !! Z.to_nat (Z.of_nat i * C * N + Z.of_nat k)).
Proof.
  intros Hi Hlen. unfold roll_channels.
  apply (for_loop_rule (λ (j : nat) s,
    length s = length (data grids) ∧
    (∀ m : nat,
       ¬ (Z.of_nat i * C * N ≤ Z.of_nat m
          < (Z.of_nat i * C + Z.of_nat j) * N) →
       s !! m = buf !! m) ∧
    (∀ j' k : nat, (1 ≤ j' < j)%nat → Z.of_nat k < N →
       s !! Z.to_nat ((Z.of_nat i * C + Z.of_nat j') * N + Z.of_nat k)
       = s !! Z.to_nat (Z.of_nat i * C * N + rolled (Z.of_nat k))) ∧
    (r = 0 → ∀ k : nat, Z.of_nat k < N →
       s !! Z.to_nat (Z.of_nat i * C * N + Z.of_nat k)
       = buf !! Z.to_nat (Z.of_nat i * C * N + Z.of_nat k)))).
  - split_and!; [done|done| |done]. intros j' k Hj'. lia.
  - intros j s Hj (Hs & Hout & Hcopy & Hfirst).
    destruct (decide (j = 0%nat)) as [->|Hj0].
    + destruct (roll_cells_first i s) as (s' & -> & Hs' & Hout' & Hid);
        [lia..|done|].
      eexists; split; [done|]. split_and!; [done| | |].
      * intros m Hm. rewrite Hout' by lia. apply Hout. lia.
      * intros j' k Hj'. lia.
      * intros Hr k Hk. rewrite (Hid Hr). by apply Hfirst.
    + destruct (roll_cells_copy i j s) as (s' & -> & Hs' & Hout' & Hin);
        [lia..|done|].
      eexists; split; [done|]. split_and!; [done| | |].
      * intros m Hm. pose proof N_nonneg.
        destruct (channel_bounds O C N (Z.of_nat i) (Z.of_nat j))
          as (H1 & H2 & H3 & H4 & _ & H6); [lia..|].
        rewrite Hout' by lia. apply Hout. lia.
      * intros j' k Hj' Hk.
        pose proof (rolled_bounds (Z.of_nat k) ltac:(lia)) as Hroll.
        destruct (channel_bounds O C N (Z.of_nat i) (Z.of_nat j))
          as (H1 & H2 & H3 & H4 & _ & H6); [lia..|].
        rewrite (Hout' (Z.to_nat (Z.of_nat i * C * N + rolled (Z.of_nat k))))
          by lia.
        destruct (decide (j' = j)) as [->|Hne]; [by apply Hin|].
        destruct (channel_bounds O C N (Z.of_nat i) (Z.of_nat j'))
          as (? & ? & ? & ? & _ & ?); [lia..|].
        rewrite Hout' by nia. apply Hcopy; lia.
      * intros Hr k Hk.
        destruct (channel_bounds O C N (Z.of_nat i) (Z.of_nat j))
          as (H1 & H2 & H3 & H4 & _ & H6); [lia..|].
        rewrite Hout' by lia. by apply Hfirst.
  - intros s (Hs & Hout & Hcopy & Hfirst). split_and!; [done| | |done].
    + intros m Hm. apply Hout.
      destruct dims_nonneg as (? & ? & _). nia.
    + intros j k Hj Hk. apply Hcopy; lia.
Qed.

Lemma roll_orientations_copy :
  ∃ out, roll_orientations grids nx ny nz r O C (data grids) = Some out ∧
    length out = length (data grids) ∧
    (∀ i j k : nat, Z.of_nat i < O → 1 ≤ Z.of_nat j < C → Z.of_nat k < N →
       out !! Z.to_nat ((Z.of_nat i * C + Z.of_nat j) * N + Z.of_nat k)
       = out !! Z.to_nat (Z.of_nat i * C * N + rolled (Z.of_nat k))) ∧
    (r = 0 → ∀ i k : nat, Z.of_nat i < O → Z.of_nat k < N →
       out !! Z.to_nat (Z.of_nat i * C * N + Z.of_nat k)
       = data grids !! Z.to_nat (Z.of_nat i * C * N + Z.of_nat k)).
Proof.
  unfold roll_orientations.
  apply (for_loop_rule (λ (i : nat) s,
    length s = length (data grids) ∧
    (∀ m : nat, Z.of_nat i * C * N ≤ Z.of_nat m → s !! m = data grids !! m) ∧
    (∀ i' j k : nat, (i' < i)%nat → 1 ≤ Z.of_nat j < C → Z.of_nat k < N →
       s !! Z.to_nat ((Z.of_nat i' * C + Z.of_nat j) * N + Z.of_nat k)
       = s !! Z.to_nat (Z.of_nat i' * C * N + rolled (Z.of_nat k))) ∧
    (r = 0 → ∀ i' k : nat, (i' < i)%nat → Z.of_nat k < N →
       s !! Z.to_nat (Z.of_nat i' * C * N + Z.of_nat k)
       = data grids !! Z.to_nat (Z.of_nat i' * C * N + Z.of_nat k)))).
  - split_and!; [done|done| |]; intros; lia.
  - intros i s Hi (Hs & Hrest & Hcopy & Hfirst).
    destruct (roll_channels_copy i s)
      as (s' & -> & Hs' & Hout & Hcopy' & Hfirst'); [lia|done|].
    eexists; split; [done|]. split_and!; [done| | |].
    + intros m Hm. rewrite Hout by lia. apply Hrest. nia.
    + intros i' j k Hi' Hj Hk.
      destruct (decide (i' = i)) as [->|Hne]; [by apply Hcopy'|].
      pose proof (rolled_bounds (Z.of_nat k) ltac:(lia)) as Hroll.
      destruct (channel_bounds (Z.of_nat i) C N (Z.of_nat i') (Z.of_nat j))
        as (H1 & H2 & H3 & H4 & _ & H6); [lia..|].
      rewrite !Hout by lia. apply Hcopy; lia.
    + intros Hr i' k Hi' Hk.
      destruct (decide (i' = i)) as [->|Hne].
      * rewrite Hfirst' by done. apply Hrest. lia.
      * assert (¬ (Z.of_nat i * C * N
                   ≤ Z.of_nat (Z.to_nat (Z.of_nat i' * C * N + Z.of_nat k))
                   < (Z.of_nat i + 1) * C * N)).
        { destruct (decide (C = 0)) as [->|HC0]; [lia|].
          destruct (channel_bounds (Z.of_nat i) C N (Z.of_nat i') 0)
            as (? & ? & ? & ? & _); [lia..|]. lia. }
        rewrite Hout by done. apply Hfirst; [done|lia|done].
  - intros s (Hs & _ & Hcopy & Hfirst). split_and!; [done| |].
    + intros i j k Hi Hj Hk. apply Hcopy; lia.
    + intros Hr i k Hi Hk. apply Hfirst; [done|lia|done].
Qed.

Lemma flip_and_roll_run :
  ∃ out,
    flip_and_roll grids r
    = Some {| type_num := type_num grids; dims := dims grids; data := out |} ∧
    length out = length (data grids) ∧
    (∀ i j x y z,
       0 ≤ i < O → 1 ≤ j < C → 0 ≤ x < nx → 0 ≤ y < ny → 0 ≤ z < nz →
       out !! grids_cell C nx ny nz i j x y z
       = out !! grids_cell C nx ny nz i 0
                  (Z.rem (x + r) nx) (Z.rem (y + r) ny) (Z.rem (z + r) nz)) ∧
    (r = 0 → ∀ i x y z,
       0 ≤ i < O → 0 ≤ x < nx → 0 ≤ y < ny → 0 ≤ z < nz →
       out !! grids_cell C nx ny nz i 0 x y z
       = data grids !! grids_cell C nx ny nz i 0 x y z).
Proof.
  destruct roll_orientations_copy as (out & Hrun & Hlen & Hcopy & Hfirst).
  exists out. split_and!; [|done| |].
  - transitivity
      (buf ← roll_orientations grids nx ny nz r O C (data grids);
       Some {| type_num := type_num grids; dims := dims grids;
               data := buf |}).
    + unfold flip_and_roll, PyArray_DIMS. by rewrite grids_dims.
    + by rewrite Hrun.
  - intros i j x y z Hi Hj Hx Hy Hz.
    pose proof (cell_bounds nx ny nz x y z Hx Hy Hz) as Hk.
    destruct (unflatten_cell ny nz x y z) as (Hqx & Hqy & Hqz); [lia..|].
    cbv zeta in Hqx, Hqy, Hqz.
    specialize (Hcopy (Z.to_nat i) (Z.to_nat j)
                  (Z.to_nat (x * ny * nz + y * nz + z))).
    rewrite !Z2Nat.id in Hcopy by lia. rewrite Hqx, Hqy, Hqz in Hcopy.
    unfold grids_cell. rewrite Hcopy by lia.
    unfold roll_idx. f_equal. f_equal. lia.
  - intros Hr i x y z Hi Hx Hy Hz.
    pose proof (cell_bounds nx ny nz x y z Hx Hy Hz) as Hk.
    specialize (Hfirst Hr (Z.to_nat i)
                  (Z.to_nat (x * ny * nz + y * nz + z))).
    rewrite !Z2Nat.id in Hfirst by lia.
    unfold grids_cell. rewrite Z.add_0_r. apply Hfirst; lia.
Qed.

(** X11.  On a well-shaped array and for a shift that is not negative
    and overflows at no cell (it is 0, or [r + n <= 2^31] for each axis
    length [n]), [flip_and_roll] returns, and in what it returns every
    channel after the first is the rolled copy of channel 0 of its
    orientation: the cell [(x, y, z)] of channel [j ≥ 1] equals the cell
    [((x + r) mod nx, (y + r) mod ny, (z + r) mod nz)] of channel 0.
    What the channels after the first held on entry is overwritten. *)
Theorem flip_and_roll_copies_first_channel :
  ∃ out,
    flip_and_roll grids r
    = Some {| type_num := type_num grids; dims := dims grids; data := out |} ∧
    length out = length (data grids) ∧
    ∀ i j x y z,
      0 ≤ i < O → 1 ≤ j < C → 0 ≤ x < nx → 0 ≤ y < ny → 0 ≤ z < nz →
      out !! grids_cell C nx ny nz i j x y z
      = out !! grids_cell C nx ny nz i 0
                 ((x + r) `mod` nx) ((y + r) `mod` ny) ((z + r) `mod` nz).
Proof.
  destruct flip_and_roll_run as (out & Hrun & Hlen & Hcopy & _).
  exists out. split; [done|]. split; [done|].
  intros i j x y z Hi Hj Hx Hy Hz.
  rewrite <-!Z.rem_mod_nonneg by lia. by apply Hcopy.
Qed.
End flip_and_roll_correct.

Lemma flip_and_roll_copies_first_channel_witness :
  ∃ out,
    flip_and_roll sum_grids_example_grids 1
    = Some {| type_num := NPY_FLOAT32; dims := [1; 2; 1; 2; 3]%Z;
              data := out |} ∧
    length out = 12%nat ∧
    ∀ i j x y z,
      (0 ≤ i < 1)%Z → (1 ≤ j < 2)%Z →
      (0 ≤ x < 1)%Z → (0 ≤ y < 2)%Z → (0 ≤ z < 3)%Z →
      out !! grids_cell 2 1 2 3 i j x y z
      = out !! grids_cell 2 1 2 3 i 0
                 ((x + 1) `mod` 1) ((y + 1) `mod` 2) ((z + 1) `mod` 3).
Proof.
  apply (flip_and_roll_copies_first_channel sum_grids_example_grids
           1 2 1 2 3 1);
    [reflexivity | lia | reflexivity | lia | right; lia].
Defined.

(** X12.  With shift 0 nothing is flipped or moved: channel 0 of every
    orientation keeps its contents and every other channel of that
    orientation becomes a copy of it. *)
Theorem flip_and_roll_zero_shift {F} (grids : PyArray F) (O C nx ny nz : Z) :
  dims grids = [O; C; nx; ny; nz] →
  (0 ≤ O ∧ 0 ≤ C ∧ 0 ≤ nx ∧ 0 ≤ ny ∧ 0 ≤ nz)%Z →
  Z.of_nat (length (data grids)) = (O * C * (nx * ny * nz))%Z →
  ∃ out,
    flip_and_roll grids 0
    = Some {| type_num := type_num grids; dims := dims grids; data := out |} ∧
    ∀ i j x y z,
      (0 ≤ i < O)%Z → (0 ≤ j < C)%Z →
      (0 ≤ x < nx)%Z → (0 ≤ y < ny)%Z → (0 ≤ z < nz)%Z →
      out !! grids_cell C nx ny nz i j x y z
      = data grids !! grids_cell C nx ny nz i 0 x y z.
Proof.
  intros Hdims Hnonneg Hsize.
  destruct (flip_and_roll_run grids O C nx ny nz 0 Hdims Hnonneg Hsize)
    as (out & Hrun & _ & Hcopy & Hfirst); [done|by left|].
  specialize (Hfirst eq_refl). exists out. split; [done|].
  intros i j x y z Hi Hj Hx Hy Hz.
  destruct (decide (j = 0%Z)) as [->|Hj0]; [by apply Hfirst|].
  rewrite Hcopy by lia. rewrite !Z.add_0_r, !Z.rem_small by lia.
  by apply Hfirst.
Qed.

Lemma flip_and_roll_zero_shift_witness :
  ∃ out,
    flip_and_roll sum_grids_example_grids 0
    = Some {| type_num := NPY_FLOAT32; dims := [1; 2; 1; 2; 3]%Z;
              data := out |} ∧
    ∀ i j x y z,
      (0 ≤ i < 1)%Z → (0 ≤ j < 2)%Z →
      (0 ≤ x < 1)%Z → (0 ≤ y < 2)%Z → (0 ≤ z < 3)%Z →
      out !! grids_cell 2 1 2 3 i j x y z
      = data sum_grids_example_grids !! grids_cell 2 1 2 3 i 0 x y z.
Proof.
  apply (flip_and_roll_zero_shift sum_grids_example_grids 1 2 1 2 3);
    [reflexivity | lia | reflexivity].
Defined.

(** X13.  An array with a single channel is returned as it is by
    [flip_and_roll] with shift 0. *)
Theorem flip_and_roll_zero_shift_single_channel {F} (grids : PyArray F)
    (O nx ny nz : Z) :
  dims grids = [O; 1; nx; ny; nz]%Z →
  (0 ≤ O ∧ 0 ≤ nx ∧ 0 ≤ ny ∧ 0 ≤ nz)%Z →
  Z.of_nat (length (data grids)) = (O * (nx * ny * nz))%Z →
  flip_and_roll grids 0 = Some grids.
Proof.
  intros Hdims (HO & Hnx & Hny & Hnz) Hsize.
  destruct (flip_and_roll_run grids O 1 nx ny nz 0 Hdims)
    as (out & -> & Hlen & _ & Hfirst); [lia|lia|lia|by left|].
  assert (out = data grids) as ->; [|by destruct grids].
  apply list_eq. intros m.
  destruct (decide (m < length (data grids))%nat) as [Hm|Hm];
    [|by rewrite !lookup_ge_None_2 by lia].
  set (N := (nx * ny * nz)%Z) in *.
  assert (0 < N)%Z as HN by nia.
  assert (0 < nx ∧ 0 < ny ∧ 0 < nz)%Z as (? & ? & ?) by (unfold N in *; nia).
  pose proof (Z.div_mod (Z.of_nat m) N ltac:(lia)) as Hdm.
  pose proof (Z.mod_pos_bound (Z.of_nat m) N HN) as Hk.
  assert (0 ≤ Z.of_nat m `div` N < O)%Z as Hi.
  { split; [apply Z.div_pos; lia|]. apply Z.div_lt_upper_bound; lia. }
  destruct (unflatten_bounds nx ny nz (Z.of_nat m `mod` N))
    as (Hx & Hy & Hz); [done..|].
  pose proof (unflatten_flatten ny nz (Z.of_nat m `mod` N)
                ltac:(lia) ltac:(lia) ltac:(lia)) as Hflat.
  specialize (Hfirst eq_refl _ _ _ _ Hi Hx Hy Hz).
  unfold grids_cell in Hfirst. rewrite Hflat in Hfirst.
  change (nx * ny * nz)%Z with N in Hfirst.
  replace (Z.to_nat ((Z.of_nat m `div` N * 1 + 0) * N + Z.of_nat m `mod` N))
    with m in Hfirst by lia.
  done.
Qed.

Lemma flip_and_roll_zero_shift_single_channel_witness :
  flip_and_roll single_channel_grids 0 = Some single_channel_grids.
Proof.
  apply (flip_and_roll_zero_shift_single_channel single_channel_grids
           1 1 2 3); [reflexivity | lia | reflexivity].
Defined.

(** ** The multiplication loop on spectra of any length *)

Section conj_multiply_total.
Context {F C : Type}.
Variable num : Numerics F C.

(** X14.  The multiplication loop of lines 110-112 on spectra of any
    length: it replaces the first [N_fft_points] points of the candidate
    spectrum by the scaled conjugate products and keeps the rest; it
    reads outside a spectrum exactly when that spectrum has fewer than
    [N_fft_points] points; a count that is not positive changes
    nothing. *)
Theorem conj_multiply_total (N_fft_points : Z) (fft_r : list C) (scale : F)
    (cur_fft_l : list C) :
  conj_multiply num N_fft_points fft_r scale cur_fft_l
  = if decide (Z.to_nat N_fft_points ≤ length fft_r ∧
               Z.to_nat N_fft_points ≤ length cur_fft_l)%nat
    then Some (zip_with (conj_product num scale)
                 (take (Z.to_nat N_fft_points) fft_r)
                 (take (Z.to_nat N_fft_points) cur_fft_l)
               ++ drop (Z.to_nat N_fft_points) cur_fft_l)
    else None.
Proof.
  unfold conj_multiply.
  induction (Z.to_nat N_fft_points) as [|n IH].
  - cbn [for_loop]. rewrite decide_True by lia. by rewrite !take_0, drop_0.
  - rewrite for_loop_S_r, IH. clear IH.
    destruct (decide (n ≤ length fft_r ∧ n ≤ length cur_fft_l)%nat)
      as [[Hr Hl]|Hn]; [|by rewrite decide_False by lia].
    cbn [mbind option_bind]. rewrite Nat.add_0_l.
    destruct (fft_r !! n) as [t|] eqn:Ht; cbn [mbind option_bind];
      [|apply lookup_ge_None_1 in Ht; by rewrite decide_False by lia].
    assert (length (zip_with (conj_product num scale) (take n fft_r)
                      (take n cur_fft_l)) = n) as Hzip
      by (rewrite length_zip_with, !length_take; lia).
    rewrite lookup_app_r, Hzip, Nat.sub_diag, lookup_drop, Nat.add_0_r
      by lia.
    destruct (cur_fft_l !! n) as [c|] eqn:Hc; cbn [mbind option_bind];
      [|apply lookup_ge_None_1 in Hc; by rewrite decide_False by lia].
    apply lookup_lt_Some in Ht as Hr', Hc as Hl'.
    rewrite decide_True by lia. f_equal.
    rewrite (take_S_r fft_r n t), (take_S_r cur_fft_l n c) by done.
    rewrite zip_with_app by (rewrite !length_take; lia).
    rewrite <-(Nat.add_0_r n) at 1. rewrite <-Hzip at 1.
    rewrite insert_app_r, <-app_assoc. f_equal.
    by rewrite (drop_S cur_fft_l c n) by done.
Qed.
End conj_multiply_total.

(** ** The entry points *)

Lemma for_loop_preserves {St : Type} (P : St → Prop) count :
  ∀ start (body : nat → St → option St) s s',
    (∀ i s s', P s → body i s = Some s' → P s') →
    P s → for_loop start count body s = Some s' → P s'.
Proof.
  induction count as [|count IH]; intros start body s s' Hbody Hs Hrun.
  - cbn [for_loop] in Hrun. by simplify_eq.
  - cbn [for_loop] in Hrun.
    destruct (body start s) as [s1|] eqn:Hstep; [|done].
    cbn [mbind option_bind] in Hrun. eapply IH; [done| |done]. eauto.
Qed.

Lemma for_down_preserves {St : Type} (P : St → Prop) n
    (body : Z → Z → St → option St) s s' :
  (∀ x c s s', P s → body x c s = Some s' → P s') →
  P s → for_down n body s = Some s' → P s'.
Proof.
  intros Hbody Hs Hrun. unfold for_down in Hrun.
  eapply (for_loop_preserves P); [|done..]. intros i; apply Hbody.
Qed.

(** A loop fails when one of its iterations fails on every state the
    earlier ones can leave. *)
Lemma for_loop_fails_from {St : Type} (P : St → Prop) count :
  ∀ start (body : nat → St → option St) s k,
    (start ≤ k < start + count)%nat →
    (∀ i s s', P s → body i s = Some s' → P s') →
    (∀ s, P s → body k s = None) →
    P s → for_loop start count body s = None.
Proof.
  induction count as [|count IH]; intros start body s k Hk Hbody Hfail Hs;
    [lia|].
  cbn [for_loop]. destruct (body start s) as [s1|] eqn:Hstep; [|done].
  cbn [mbind option_bind].
  destruct (decide (k = start)) as [->|Hne].
  - rewrite Hfail in Hstep; done.
  - apply (IH _ _ _ k); [lia|done|done|]. eauto.
Qed.

Lemma for_down_fails_from {St : Type} (P : St → Prop) n
    (body : Z → Z → St → option St) s c :
  (0 ≤ c < n)%Z →
  (∀ x c s s', P s → body x c s = Some s' → P s') →
  (∀ s, P s → body (n - 1 - c)%Z c s = None) →
  P s → for_down n body s = None.
Proof.
  intros Hc Hbody Hfail Hs. unfold for_down.
  apply (for_loop_fails_from P _ _ _ _ (Z.to_nat c)); [lia| | |done].
  - intros i; apply Hbody.
  - intros s1 Hs1. rewrite Z2Nat.id by lia. by apply Hfail.
Qed.

Lemma store_length {F} (buf buf' : list F) p len k v :
  store buf p len k v = Some buf' → length buf' = length buf.
Proof.
  unfold store. case_bool_decide; [|done]. intros ?; simplify_eq.
  by rewrite length_insert.
Qed.

Section sum_grids_unchecked.
Context {F : Type}.
Variable fadd : F → F → F.
Variables (grids result : PyArray F) (O C nx ny nz r : Z).
Hypothesis grids_dims : dims grids = [O; C; nx; ny; nz].
Local Open Scope Z_scope.

Local Abbreviation N := (nx * ny * nz).
Local Abbreviation same_length :=
  (λ buf : list F, length buf = length (data result)).

Lemma sum_z_length i j x new_x y new_y buf buf' :
  sum_z fadd grids result nx ny nz r i j x new_x y new_y buf = Some buf' →
  length buf = length (data result) → length buf' = length (data result).
Proof.
  intros Hrun Hlen. unfold sum_z in Hrun.
  apply (for_down_preserves same_length _ _ _ _) in Hrun; [done| |done].
  intros z new_z s s' Hs Hstep. cbv beta in *.
  destruct (roll_cur_idx _ _ _ _ _ _ _); cbn [mbind option_bind] in Hstep;
    [|done].
  destruct (load (data grids) _ _ _); cbn [mbind option_bind] in Hstep;
    [|done].
  destruct (load s _ _ _); cbn [mbind option_bind] in Hstep; [|done].
  apply store_length in Hstep. congruence.
Qed.

Lemma sum_y_length i j x new_x buf buf' :
  sum_y fadd grids result nx ny nz r i j x new_x buf = Some buf' →
  length buf = length (data result) → length buf' = length (data result).
Proof.
  intros Hrun Hlen. unfold sum_y in Hrun.
  apply (for_down_preserves same_length _ _ _ _) in Hrun; [done| |done].
  intros y new_y s s' Hs Hstep. by eapply sum_z_length.
Qed.

Lemma sum_x_length i j buf buf' :
  sum_x fadd grids result nx ny nz r i j buf = Some buf' →
  length buf = length (data result) → length buf' = length (data result).
Proof.
  intros Hrun Hlen. unfold sum_x in Hrun.
  apply (for_down_preserves same_length _ _ _ _) in Hrun; [done| |done].
  intros x new_x s s' Hs Hstep. by eapply sum_y_length.
Qed.

Lemma sum_channels_length i buf buf' :
  sum_channels fadd grids result nx ny nz r C i buf = Some buf' →
  length buf = length (data result) → length buf' = length (data result).
Proof.
  intros Hrun Hlen. unfold sum_channels in Hrun.
  apply (for_loop_preserves same_length _ _ _ _ _) in Hrun; [done| |done].
  intros j s s' Hs Hstep. by eapply sum_x_length.
Qed.

(** The kernel takes the sizes from [grids] alone: a [result] buffer
    with fewer elements than one grid is indexed past its end. *)
Lemma sum_grids_short_result :
  0 ≤ r → 1 ≤ O → 1 ≤ C → 1 ≤ nx → 1 ≤ ny → 1 ≤ nz →
  Z.of_nat (length (data result)) < N →
  sum_grids fadd grids result r = None.
Proof.
  intros Hr HO HC Hnx Hny Hnz Hshort.
  assert (0 < N) by nia.
  assert (∃ x y z,
            (0 ≤ x < nx ∧ 0 ≤ y < ny ∧ 0 ≤ z < nz) ∧
            (roll_cur_idx nx ny nz x y z r = None ∨
             roll_cur_idx nx ny nz x y z r = Some (N - 1)))
    as (x & y & z & (Hx & Hy & Hz) & Hroll).
  { destruct (decide (r = 0 ∨ (r + nx ≤ 2 ^ 31 ∧ r + ny ≤ 2 ^ 31 ∧
                               r + nz ≤ 2 ^ 31))) as [Hfits|Hover].
    - destruct (roll_idx_preimage nx ny nz r (N - 1))
        as (x & y & z & (Hx & Hy & Hz) & Hroll); [lia..|].
      exists x, y, z. split; [done|]. right.
      rewrite roll_cur_idx_fits by done. by rewrite Hroll.
    - assert (0 < r ∧ (2 ^ 31 < r + nx ∨ 2 ^ 31 < r + ny ∨
                       2 ^ 31 < r + nz)) as [Hpos [?|[?|?]]] by lia.
      + exists (Z.max 0 (2 ^ 31 - r)), 0, 0. split; [lia|]. left.
        apply roll_cur_idx_overflow; [done|]. unfold INT_MAX. lia.
      + exists 0, (Z.max 0 (2 ^ 31 - r)), 0. split; [lia|]. left.
        apply roll_cur_idx_overflow; [done|]. unfold INT_MAX. lia.
      + exists 0, 0, (Z.max 0 (2 ^ 31 - r)). split; [lia|]. left.
        apply roll_cur_idx_overflow; [done|]. unfold INT_MAX. lia. }
  transitivity
    (buf ← sum_orientations fadd grids result nx ny nz r O C (data result);
     Some {| type_num := type_num result; dims := dims result;
             data := buf |}).
  { unfold sum_grids, PyArray_DIMS. by rewrite grids_dims. }
  assert (sum_orientations fadd grids result nx ny nz r O C (data result)
          = None) as ->; [|done].
  apply (for_loop_fails_from same_length _ _ _ _ 0%nat); [lia| | |done].
  { intros i s s' Hs Hstep. by eapply sum_channels_length. }
  intros s1 Hs1.
  apply (for_loop_fails_from same_length _ _ _ _ 0%nat); [lia| | |done].
  { intros j s s' Hs Hstep. by eapply sum_x_length. }
  intros s2 Hs2.
  apply (for_down_fails_from same_length _ _ _ x); [done| | |done].
  { intros ? ? s s' Hs Hstep. by eapply sum_y_length. }
  intros s3 Hs3.
  apply (for_down_fails_from same_length _ _ _ y); [done| | |done].
  { intros ? ? s s' Hs Hstep. by eapply sum_z_length. }
  intros s4 Hs4.
  apply (for_down_fails_from same_length _ _ _ z); [done| | |done].
  { intros z0 c0 s s' Hs Hstep. cbv beta in *.
    destruct (roll_cur_idx nx ny nz x y c0 r);
      cbn [mbind option_bind] in Hstep; [|done].
    destruct (load (data grids) _ _ _); cbn [mbind option_bind] in Hstep;
      [|done].
    destruct (load s _ _ _); cbn [mbind option_bind] in Hstep; [|done].
    apply store_length in Hstep. congruence. }
  intros s5 Hs5.
  destruct Hroll as [-> | ->]; [done|]. cbn [mbind option_bind].
  destruct (load (data grids) _ _ _); cbn [mbind option_bind]; [|done].
  assert (load s5 (PyArray_GETPTR1 result (Z.of_nat 0)) N (N - 1) = None)
    as ->; [|done].
  unfold load, PyArray_GETPTR1. case_bool_decide; [|done].
  apply lookup_ge_None_2. lia.
Qed.
End sum_grids_unchecked.

Section py_sum_grids_correct.
Context {F : Type}.
Variable fadd : F → F → F.
Local Open Scope Z_scope.


(** X16.  The wrapper raises [TypeError] exactly when one of the two
    arrays has the wrong number of dimensions or the wrong element type;
    the sizes of the dimensions take no part in it. *)
Theorem py_sum_grids_type_error (grids result : PyArray F) (r : Z) :
  - 2 ^ 31 ≤ r < 2 ^ 31 →
  (∃ msg args,
     py_sum_grids fadd
       [PyArrayObject grids; PyLongObject r; PyArrayObject result]
     = Some (PyExc_TypeError msg, args))
  ↔ (PyArray_NDIM grids ≠ 5%nat ∨ PyArray_TYPE grids ≠ NPY_FLOAT32 ∨
     PyArray_NDIM result ≠ 4%nat ∨ PyArray_TYPE result ≠ NPY_FLOAT32).
Proof.
  intros Hr. unfold py_sum_grids.
  rewrite bool_decide_false by lia.
  repeat case_bool_decide; split; try tauto; try by eauto.
  intros (msg & args & Hrun). exfalso.
  destruct (PyArray_DIMS grids 0); [|done].
  destruct (PyArray_DIMS grids 2); [|done].
  destruct (PyArray_DIMS grids 3); [|done].
  destruct (PyArray_DIMS grids 4); [|done].
  by destruct (sum_grids fadd grids result r).
Qed.

(** X17.  A negative [roll_steps] is not refused: on well-shaped arrays
    with more than one cell per grid the call goes on to the kernel,
    which then indexes [result] at a negative offset. *)
Theorem py_sum_grids_negative_roll (grids result : PyArray F)
    (O C nx ny nz r : Z) :
  sum_grids_shapes grids result O C nx ny nz →
  PyArray_TYPE grids = NPY_FLOAT32 → PyArray_TYPE result = NPY_FLOAT32 →
  - 2 ^ 31 ≤ r < 0 →
  1 ≤ O → 1 ≤ C → 1 ≤ nx → 1 ≤ ny → 1 ≤ nz → 2 ≤ nx * ny * nz →
  py_sum_grids fadd
    [PyArrayObject grids; PyLongObject r; PyArrayObject result]
  = None.
Proof.
  intros Hshapes Hgrids Hresult Hr HO HC Hnx Hny Hnz HN.
  pose proof (sum_grids_negative_roll fadd grids result O C nx ny nz
                Hshapes r) as Hrun.
  destruct Hshapes as [Hdg Hdr _ _ _].
  unfold py_sum_grids, PyArray_NDIM, PyArray_DIMS.
  rewrite bool_decide_false by lia.
  rewrite Hdg, Hdr, Hgrids, Hresult.
  rewrite bool_decide_false by (simpl; intros [?|?]; done).
  rewrite bool_decide_false by (simpl; intros [?|?]; done).
  cbn [lookup list_lookup mbind option_bind]. rewrite Hrun; [done|lia..].
Qed.

(** X18.  Nothing relates the shape of [result] to that of [grids]: a
    float32 [result] of four dimensions that holds fewer elements than
    one grid of [grids] passes the checks, and the kernel, which takes
    every size from [grids], leaves the arrays: at the latest when it
    reaches the cell of [result] that the last cell of the first grid is
    rolled to. *)
Theorem py_sum_grids_short_result (grids result : PyArray F)
    (O C nx ny nz r : Z) :
  dims grids = [O; C; nx; ny; nz] →
  PyArray_TYPE grids = NPY_FLOAT32 →
  PyArray_NDIM result = 4%nat → PyArray_TYPE result = NPY_FLOAT32 →
  0 ≤ r < 2 ^ 31 →
  1 ≤ O → 1 ≤ C → 1 ≤ nx → 1 ≤ ny → 1 ≤ nz →
  Z.of_nat (length (data result)) < nx * ny * nz →
  py_sum_grids fadd
    [PyArrayObject grids; PyLongObject r; PyArrayObject result]
  = None.
Proof.
  intros Hdg Hgrids Hnd Hresult Hr HO HC Hnx Hny Hnz Hshort.
  pose proof (sum_grids_short_result fadd grids result O C nx ny nz r Hdg)
    as Hrun.
  unfold py_sum_grids, PyArray_NDIM, PyArray_DIMS.
  rewrite bool_decide_false by lia.
  rewrite Hdg, Hgrids, Hresult.
  rewrite bool_decide_false by (simpl; intros [?|?]; done).
  rewrite bool_decide_false by (simpl; intros [?|?]; done).
  cbn [lookup list_lookup mbind option_bind]. rewrite Hrun; [done|lia..].
Qed.
End py_sum_grids_correct.


Lemma py_sum_grids_type_error_witness :
  (∃ msg args,
     py_sum_grids Z.add
       [PyArrayObject sum_grids_example_grids; PyLongObject 1%Z;
        PyArrayObject sum_grids_example_grids]
     = Some (PyExc_TypeError msg, args))
  ↔ (PyArray_NDIM sum_grids_example_grids ≠ 5%nat ∨
     PyArray_TYPE sum_grids_example_grids ≠ NPY_FLOAT32 ∨
     PyArray_NDIM sum_grids_example_grids ≠ 4%nat ∨
     PyArray_TYPE sum_grids_example_grids ≠ NPY_FLOAT32).
Proof.
  apply (py_sum_grids_type_error Z.add sum_grids_example_grids
           sum_grids_example_grids 1). lia.
Defined.

Lemma py_sum_grids_negative_roll_witness :
  py_sum_grids Z.add
    [PyArrayObject sum_grids_example_grids; PyLongObject (-1)%Z;
     PyArrayObject sum_grids_example_result]
  = None.
Proof.
  apply (py_sum_grids_negative_roll Z.add sum_grids_example_grids
           sum_grids_example_result 1 2 1 2 3 (-1));
    [constructor; simpl; try reflexivity; lia
    | reflexivity | reflexivity | lia..].
Defined.

Lemma py_sum_grids_short_result_witness :
  py_sum_grids Z.add
    [PyArrayObject sum_grids_example_grids; PyLongObject 0%Z;
     PyArrayObject one_cell_result]
  = None.
Proof.
  apply (py_sum_grids_short_result Z.add sum_grids_example_grids
           one_cell_result 1 2 1 2 3 0);
    [reflexivity | reflexivity | reflexivity | reflexivity | simpl; lia..].
Defined.

Section py_fft_correlate_batch_correct.
Context {F C : Type}.
Variable num : Numerics F C.
Variable fftw : Backend F C.
Local Open Scope Z_scope.


End py_fft_correlate_batch_correct.


